(** * The feathr SQL registry: entity and edge stores, creation protocol,
      deletion and breadth-first traversal

    A shallow embedding of [feathr_registry/registry/db_registry.py]
    ([DbRegistry]), of the connection providers of
    [feathr_handlers/db/databases.py] and of the project-creation gate of
    [feathr_rbac/rbac/db_rbac.py], followed by the properties of section 8
    of the specification.

    The registry runs against one relational store.  The store is a value of
    type [World]; code that only reads is a function of the world, code that
    writes is a computation in the state-and-exception monad [M]. *)

From Stdlib Require Import List String Ascii Bool Arith PeanoNat Lia Permutation.
Import ListNotations.
Local Open Scope string_scope.
Local Open Scope list_scope.

(* ================================================================== *)
(** * Identifiers and exceptions *)
(* ================================================================== *)

(** [uuid.UUID].  [uuid4()] draws from a supply of identifiers that were
    never handed out before; the supply is the counter [next_uuid] of the
    world. *)
Definition UUID := nat.

(** A Python value of type [Union[str, UUID]], up to [str()]: a string
    that parses as a UUID is identified with that UUID, and [Str s] is text
    that [rgm._to_uuid] rejects.  The [String(36)] identifier columns of
    [orm.py] hold such values. *)
Inductive Ident : Type :=
| Uuid (u : UUID)
| Str (s : string).

(** The value that a text is, for a reading [uuid_of_text] of text as a
    UUID: what [UUID(s)] in [rgm._to_uuid] returns, [None] where it raises
    [ValueError]. *)
Definition of_text (uuid_of_text : string -> option UUID) (s : string)
    : Ident :=
  match uuid_of_text s with
  | Some u => Uuid u
  | None => Str s
  end.

(** [str(id)] where [id] is Python's builtin function (no local of that
    name is in scope). *)
Definition builtin_id : Ident := Str "<built-in function id>".

Definition Ident_eqb (a b : Ident) : bool :=
  match a, b with
  | Uuid u, Uuid v => Nat.eqb u v
  | Str s, Str t => String.eqb s t
  | _, _ => false
  end.

(** The exceptions that cross the registry boundary.  [api/__init__.py]
    maps [ConflictError] to 409, [ValueError] and [TypeError] to 400,
    [KeyError] and [IndexError] to 404; [BadRequest] is the 400 of
    [db_rbac.py].  [DbError] is an error raised by the database driver
    (an integrity error, a lost connection).  [OutOfFuel] is not a Python
    exception: it marks a run of the model whose loop or recursion did not
    finish within the fuel it was given. *)
Inductive Exc : Type :=
| KeyError | IndexError | ValueError | TypeError | AttributeError
| AssertionError | ConflictError | BadRequest | DbError | OutOfFuel.

Inductive Result (A : Type) : Type :=
| Ok (a : A)
| Raise (e : Exc).
Arguments Ok {A} a.
Arguments Raise {A} e.

Definition is_ok {A} (r : Result A) : bool :=
  match r with Ok _ => true | Raise _ => false end.

(* ================================================================== *)
(** * models/base.py and models/orm.py *)
(* ================================================================== *)

Inductive EntityType : Type :=
| Project | Source | Anchor | AnchorFeature | DerivedFeature.

Inductive RelationshipType : Type :=
| Contains | BelongsTo | Consumes | Produces.

Definition EntityType_eqb (a b : EntityType) : bool :=
  match a, b with
  | Project, Project | Source, Source | Anchor, Anchor
  | AnchorFeature, AnchorFeature | DerivedFeature, DerivedFeature => true
  | _, _ => false
  end.

Definition RelationshipType_eqb (a b : RelationshipType) : bool :=
  match a, b with
  | Contains, Contains | BelongsTo, BelongsTo
  | Consumes, Consumes | Produces, Produces => true
  | _, _ => false
  end.

(** [rgm._to_uuid]: [get_entity_id] relies on it raising [ValueError] on
    text that is not a UUID. *)
Definition _to_uuid (v : Ident) : Result Ident :=
  match v with
  | Uuid u => Ok (Uuid u)
  | Str _ => Raise ValueError
  end.

(** A structured attribute value (feature type, transformation, typed key,
    source options, ...), compared with [==]; it is kept as its JSON
    text. *)
Definition Payload := string.

Record EntityRef : Type := {
  ref_id : Ident;
  ref_type : EntityType;
  ref_qualified_name : string
}.

(** Modelled from the spec: the attribute classes of [models/base.py]
    (absent from the sources), with the fields that [db_registry.py] reads
    and writes.  The [attributes] column holds [to_attr().to_json()];
    [_to_type(json.loads(...), XAttributes)] is taken to give back the value
    that was serialized. *)
Inductive Attributes : Type :=
| ProjectAttributes (name : string)
| SourceAttributes (name : string)
    (type options preprocessing event_timestamp_column timestamp_format : Payload)
| AnchorAttributes (name : string) (source : EntityRef)
| AnchorFeatureAttributes (name : string) (type transformation key : Payload)
| DerivedFeatureAttributes (name : string) (type transformation key : Payload)
    (input_features : list EntityRef).

(** Modelled from the spec: the definition classes of [models/base.py],
    with the fields that the creation functions read. *)
Record ProjectDef : Type := { project_name : string }.

Record SourceDef : Type := {
  source_name : string;
  source_type : Payload;
  source_options : Payload;
  source_preprocessing : Payload;
  source_event_timestamp_column : Payload;
  source_timestamp_format : Payload
}.

Record AnchorDef : Type := {
  anchor_name : string;
  source_id : Ident
}.

Record AnchorFeatureDef : Type := {
  anchor_feature_name : string;
  anchor_feature_type : Payload;
  anchor_feature_transformation : Payload;
  anchor_feature_key : Payload
}.

Record DerivedFeatureDef : Type := {
  derived_feature_name : string;
  derived_feature_type : Payload;
  derived_feature_transformation : Payload;
  derived_feature_key : Payload;
  input_anchor_features : list Ident;
  input_derived_features : list Ident
}.

(** [orm.Entities]: [entity_id] is the primary key. *)
Record EntityRow : Type := {
  entity_id : Ident;
  qualified_name : string;
  entity_type : EntityType;
  attributes : Attributes
}.

(** [orm.Edges]: [edge_id] is the primary key. *)
Record EdgeRow : Type := {
  edge_id : Ident;
  from_id : Ident;
  to_id : Ident;
  conn_type : RelationshipType
}.

(** What [get_entity] returns: the row, and the decorations that
    [_fill_entity] computes at read time ([children], [features],
    [input_features] are unfilled entities, [source] is a filled one). *)
#[warnings="-register-all"]
Inductive Entity : Type :=
| mkEntity (row : EntityRow)
           (children features input_features : list EntityRow)
           (source : option Entity).

Definition row_of (e : Entity) : EntityRow :=
  match e with mkEntity row _ _ _ _ => row end.
Definition id (e : Entity) : Ident := entity_id (row_of e).
Definition source_of (e : Entity) : option Entity :=
  match e with mkEntity _ _ _ _ source => source end.
Definition unfilled (row : EntityRow) : Entity := mkEntity row [] [] [] None.

(* ================================================================== *)
(** * The store *)
(* ================================================================== *)

(** The two tables, the identifier supply of [uuid4] and the fault plan of
    the driver: [fail_in = Some n] makes the write statement number [n]
    (counted from 0, from now on) raise [DbError] without effect. *)
Record World : Type := {
  entities : list EntityRow;
  edges : list EdgeRow;
  next_uuid : nat;
  fail_in : option nat
}.

Definition empty_world : World :=
  {| entities := []; edges := []; next_uuid := 0; fail_in := None |}.

Definition set_entities (l : list EntityRow) (w : World) : World :=
  {| entities := l; edges := edges w;
     next_uuid := next_uuid w; fail_in := fail_in w |}.
Definition set_edges (l : list EdgeRow) (w : World) : World :=
  {| entities := entities w; edges := l;
     next_uuid := next_uuid w; fail_in := fail_in w |}.
Definition set_fail_in (f : option nat) (w : World) : World :=
  {| entities := entities w; edges := edges w;
     next_uuid := next_uuid w; fail_in := f |}.

(** Code that writes: a world transformer that returns a value or raises. *)
Definition M (A : Type) : Type := World -> Result A * World.

Definition ret {A} (a : A) : M A := fun w => (Ok a, w).
Definition raise {A} (e : Exc) : M A := fun w => (Raise e, w).
Definition bind {A B} (c : M A) (k : A -> M B) : M B :=
  fun w => match c w with
           | (Ok a, w') => k a w'
           | (Raise e, w') => (Raise e, w')
           end.
(** A read-only query, run inside a computation. *)
Definition read {A} (q : World -> Result A) : M A := fun w => (q w, w).

Notation "x <- c ;; k" := (bind c (fun x => k))
  (at level 61, c at next level, right associativity).
Notation "c ;;; k" := (bind c (fun _ => k))
  (at level 61, right associativity).

(** Binding in read-only code. *)
Definition rbind {A B} (r : Result A) (k : A -> Result B) : Result B :=
  match r with
  | Ok a => k a
  | Raise e => Raise e
  end.
Notation "'let?' x := r 'in' k" := (rbind r (fun x => k))
  (at level 61, x name, r at next level, right associativity).

(* ================================================================== *)
(** * databases.py: connection providers *)
(* ================================================================== *)

(** A connection provider.
    - [is_sqlalchemy_supported]: the property of [DbConnection], [True] for
      every [SQLAlchemyConnection], [False] for [MssqlConnection].
    - [autocommit]: the field of [MssqlConnection].
    - [text_as_bool], [bool_eq_text]: how the SQL engine behind a
      SQLAlchemy provider evaluates a text operand of [OR] and the
      comparison of the result of [OR] with text.  [bool_eq_text = None]
      is an engine that rejects the comparison.  These are read only by
      the ORM path of [_delete_all_entity_edges]. *)
Record DbConnection : Type := {
  is_sqlalchemy_supported : bool;
  autocommit : bool;
  text_as_bool : Ident -> bool;
  bool_eq_text : option (bool -> Ident -> bool)
}.

(** [PROVIDERS["sqlite"]], also the provider [get_db_provider] falls back
    to when no connection string is set.  SQLite compares the integer
    result of [OR] with a text parameter without conversion, and an
    integer is never equal to text; [truth] is its numeric reading of a
    text operand. *)
Definition SQLiteConnection (truth : Ident -> bool) : DbConnection :=
  {| is_sqlalchemy_supported := true;
     autocommit := true;
     text_as_bool := truth;
     bool_eq_text := Some (fun _ _ => false) |}.

(** [PROVIDERS["mssql"]]: [get_db_provider] constructs it with
    [conn_string] only, so [autocommit] keeps its default [True]. *)
Definition MssqlConnection : DbConnection :=
  {| is_sqlalchemy_supported := false;
     autocommit := true;
     text_as_bool := fun _ => false;
     bool_eq_text := None |}.

(** [transaction()].

    [SQLAlchemyConnection.transaction] yields a new session, commits it
    when the body returns and rolls it back when the body raises.  Under
    a SQLAlchemy provider the registry never issues a statement through
    that session: its statements go through [self.connection] and
    [self.sql_session], so neither the commit nor the rollback of the
    session touches what the body wrote.

    [MssqlConnection.transaction] builds [conn_params] with
    [autocommit = False] but then connects with [make_connection()],
    which reads [self.autocommit]; the cursor it yields belongs to that
    connection and the body issues all its statements through it.  With
    [autocommit] on, every statement is committed as it is executed and
    [conn.rollback()] has nothing to undo; with it off, [conn.rollback()]
    restores the tables as they were when the transaction began. *)
Definition rolls_back (conn : DbConnection) : bool :=
  negb (is_sqlalchemy_supported conn) && negb (autocommit conn).

Definition transaction {A} (conn : DbConnection) (body : M A) : M A :=
  fun w =>
    match body w with
    | (Ok a, w') => (Ok a, w')
    | (Raise e, w') =>
        (Raise e,
         if rolls_back conn
         then set_edges (edges w) (set_entities (entities w) w')
         else w')
    end.

(** [retry(max_attempts, delay_secs)] of [db/utils.py], the decorator of
    [query] and [update]: [func] is called until it returns, at most
    [max_attempts] times, each call from the store that the failed ones
    left; the exception of a failed call is logged and dropped.  [None] is
    the [Exception("Max retry attempts reached")] that is raised when no
    call returned. *)
Fixpoint retry {A} (max_attempts : nat) (func : M A) (w : World)
    : option A * World :=
  match max_attempts with
  | 0 => (None, w)
  | S remaining =>
      match func w with
      | (Ok result, w') => (Some result, w')
      | (Raise _, w') => retry remaining func w'
      end
  end.

(** What a call of [get_db_provider] gives: the provider it constructed,
    the [RuntimeError] it raises itself, the [TypeError] of calling what
    [PROVIDERS.get] did not find, or the exception that [make_connection]
    raised in the constructor, which nothing catches. *)
Inductive Provided : Type :=
| Provider (db_conn : DbConnection)
| RuntimeError
| NotCallable
| ConnectionFailed.

Section Providers.

(** The engine behind each SQLAlchemy provider: its reading of a text
    operand of [OR] and its comparison of the result with text (see
    [DbConnection]). *)
Variable engine : string -> (Ident -> bool) * option (bool -> Ident -> bool).

(** [make_connection()] of the provider class registered under a name, as
    its [__init__] calls it with the connection string: [true] when it
    returns, [false] when it raises ([parse_conn_str], [create_engine] or
    [pymssql.connect] rejecting the string, a server that does not
    answer). *)
Variable make_connection : string -> string -> bool.

(** [randomname.get_name()]. *)
Variable get_name : string.

(** [PgsqlConnection], [MySQLConnection], [MariaDBConnection] and
    [MssqlConnectionV2]: subclasses of [SQLAlchemyServerDBConnection] that
    add nothing to it. *)
Definition SQLAlchemyServerDBConnection (db_name : string) : DbConnection :=
  {| is_sqlalchemy_supported := true;
     autocommit := true;
     text_as_bool := fst (engine db_name);
     bool_eq_text := snd (engine db_name) |}.

(** The classes of [PROVIDERS], each as the record of its instances. *)
Definition PROVIDERS (db_name : string) : option DbConnection :=
  if String.eqb db_name "sqlite"
  then Some (SQLiteConnection (fst (engine "sqlite")))
  else if String.eqb db_name "pgsql" || String.eqb db_name "mysql"
          || String.eqb db_name "mariadb" || String.eqb db_name "mssqlv2"
  then Some (SQLAlchemyServerDBConnection db_name)
  else if String.eqb db_name "mssql"
  then Some MssqlConnection
  else None.

(** [get_db_provider].  The name is looked up first; then a connection
    string that is missing or empty replaces the name by ["sqlite"] and
    the string by a file under [/tmp]; then the class found under the
    name is instantiated, and its constructor connects. *)
Definition get_db_provider (db_name conn_str : option string) : Provided :=
  match db_name with
  | None => RuntimeError
  | Some db_name' =>
      match PROVIDERS db_name' with
      | None => RuntimeError
      | Some _ =>
          let (db_name'', conn_str') :=
            match conn_str with
            | None | Some EmptyString =>
                ("sqlite"%string,
                 ("sqlite:////tmp/" ++ get_name
                    ++ ".sqlite?check_same_thread=False")%string)
            | Some s => (db_name', s)
            end in
          match PROVIDERS db_name'' with
          | None => NotCallable
          | Some db_provider =>
              (* db_provider(conn_string=conn_str) *)
              if make_connection db_name'' conn_str'
              then Provider db_provider
              else ConnectionFailed
          end
      end
  end.

End Providers.

(* ================================================================== *)
(** * db_registry.py: reading *)
(* ================================================================== *)

(** [select ... from entities where qualified_name = %s]. *)
Definition select_by_qualified_name (qn : string) (w : World) : list EntityRow :=
  filter (fun r => String.eqb (qualified_name r) qn) (entities w).

(** [select ... from entities where entity_id = %s]. *)
Definition select_by_entity_id (x : Ident) (w : World) : list EntityRow :=
  filter (fun r => Ident_eqb (entity_id r) x) (entities w).

Definition get_entity_id (id_or_name : Ident) (w : World) : Result Ident :=
  match id_or_name with
  | Uuid u => Ok (Uuid u)         (* [rgm._to_uuid] succeeds: no lookup *)
  | Str s =>                      (* It is a name *)
      match select_by_qualified_name s w with
      | [] => Raise KeyError
      | r :: _ => Ok (entity_id r)
      end
  end.

Definition get_neighbors (id_or_name : Ident) (relationship : RelationshipType)
    (w : World) : Result (list EdgeRow) :=
  let? x := get_entity_id id_or_name w in
  Ok (filter (fun e => Ident_eqb (from_id e) x
                       && RelationshipType_eqb (conn_type e) relationship)
             (edges w)).

Definition _get_entity (id_or_name : Ident) (w : World) : Result EntityRow :=
  let? x := get_entity_id id_or_name w in
  match select_by_entity_id x w with
  | [] => Raise KeyError
  | row :: _ => Ok row
  end.

(** [select ... from entities where entity_id in %s]; the rows come in
    table order. *)
Definition _get_entities (ids : list Ident) (w : World) : list EntityRow :=
  filter (fun r => existsb (Ident_eqb (entity_id r)) ids) (entities w).

(** [_fill_entity]; [get_entity] is the function it calls for the source
    of an anchor. *)
Definition _fill_entity (get_entity : Ident -> World -> Result Entity)
    (e : EntityRow) (w : World) : Result Entity :=
  match entity_type e with
  | Project =>
      let? edges := get_neighbors (entity_id e) Contains w in
      let ids := map to_id edges in
      let children := _get_entities ids w in
      Ok (mkEntity e children [] [] None)
  | Anchor =>
      let? conn := get_neighbors (entity_id e) Contains w in
      let feature_ids := map to_id conn in
      let features := _get_entities feature_ids w in
      let? consumed := get_neighbors (entity_id e) Consumes w in
      match consumed with
      | [] => Raise IndexError
      | first :: _ =>
          let source_id := to_id first in
          let? source := get_entity source_id w in
          Ok (mkEntity e [] features [] (Some source))
      end
  | DerivedFeature =>
      let? conn := get_neighbors (entity_id e) Consumes w in
      let feature_ids := map to_id conn in
      let features := _get_entities feature_ids w in
      Ok (mkEntity e [] [] features None)
  | _ => Ok (unfilled e)
  end.

(** [get_entity]; the fuel bounds the depth of the recursion through
    [_fill_entity]. *)
Fixpoint get_entity (fuel : nat) (id_or_name : Ident) (w : World)
    : Result Entity :=
  match fuel with
  | 0 => Raise OutOfFuel
  | S fuel' =>
      let? row := _get_entity id_or_name w in
      _fill_entity (get_entity fuel') row w
  end.

(** [[f(x) for x in l]], where [f] may raise. *)
Fixpoint map_result {A B} (f : A -> Result B) (l : list A) : Result (list B) :=
  match l with
  | [] => Ok []
  | x :: l' =>
      let? y := f x in
      let? ys := map_result f l' in
      Ok (y :: ys)
  end.

Definition get_entities (fuel : nat) (ids : list Ident) (w : World)
    : Result (list Entity) :=
  map_result (fun e => _fill_entity (get_entity fuel) e w) (_get_entities ids w).

(** [_bfs_step]: [ids] are the [to_id]s of the current frontier. *)
Definition _bfs_step (ids : list Ident) (conn_type' : RelationshipType)
    (w : World) : list EdgeRow :=
  filter (fun e => RelationshipType_eqb (conn_type e) conn_type'
                   && existsb (Ident_eqb (from_id e)) ids)
         (edges w).

(** The [while] loop of [_bfs]: the edges it accumulates in [connections],
    or [None] when the frontier is not empty after [fuel] steps. *)
Fixpoint bfs_loop (fuel : nat) (to_ids : list Ident)
    (conn_type' : RelationshipType) (w : World) : option (list EdgeRow) :=
  match to_ids with
  | [] => Some []
  | _ :: _ =>
      match fuel with
      | 0 => None
      | S fuel' =>
          let step := _bfs_step to_ids conn_type' w in
          match bfs_loop fuel' (map to_id step) conn_type' w with
          | Some connections => Some (step ++ connections)
          | None => None
          end
      end
  end.

Definition _bfs (fuel : nat) (id' : Ident) (conn_type' : RelationshipType)
    (w : World) : Result (list Entity * list EdgeRow) :=
  match bfs_loop fuel [id'] conn_type' w with
  | None => Raise OutOfFuel
  | Some connections =>
      let ids := id' :: flat_map (fun r => [from_id r; to_id r]) connections in
      let? entities := get_entities fuel ids w in
      Ok (entities, connections)
  end.

Definition get_lineage (fuel : nat) (id_or_name : Ident) (w : World)
    : Result (list Entity * list EdgeRow) :=
  let? x := get_entity_id id_or_name w in
  let? up := _bfs fuel x Consumes w in
  let? down := _bfs fuel x Produces w in
  Ok (fst up ++ fst down, snd up ++ snd down).

Definition get_dependent_entities (fuel : nat) (entity_id' : Ident) (w : World)
    : Result (list Entity) :=
  let? x := get_entity_id entity_id' w in
  let? entity := get_entity fuel x w in
  let ty := entity_type (row_of entity) in
  let downstream_entities := [] in
  let? downstream_entities :=
    if EntityType_eqb ty Project
    then let? r := _bfs fuel x Contains w in Ok (fst r)
    else Ok downstream_entities in
  let? downstream_entities :=
    if EntityType_eqb ty Source
    then let? r := _bfs fuel x Produces w in Ok (fst r)
    else Ok downstream_entities in
  let? downstream_entities :=
    if EntityType_eqb ty Anchor
    then let? r := _bfs fuel x Contains w in Ok (fst r)
    else Ok downstream_entities in
  let? downstream_entities :=
    if EntityType_eqb ty AnchorFeature || EntityType_eqb ty DerivedFeature
    then let? r := _bfs fuel x Produces w in Ok (fst r)
    else Ok downstream_entities in
  Ok (filter (fun e => negb (Ident_eqb (id e) x)) downstream_entities).

(** [get_projects]: the qualified names of the rows of type Project, in
    table order. *)
Definition get_projects (w : World) : list string :=
  map qualified_name
      (filter (fun r => EntityType_eqb (entity_type r) Project) (entities w)).

(** [d[k] = v] on a Python [dict]: a key that is present keeps its place
    and takes the new value, a new key goes last. *)
Fixpoint dict_set {V} (k : Ident) (v : V) (d : list (Ident * V))
    : list (Ident * V) :=
  match d with
  | [] => [(k, v)]
  | (k', v') :: d' =>
      if Ident_eqb k' k then (k, v) :: d' else (k', v') :: dict_set k v d'
  end.

(** [get_projects_ids]: the dictionary from [entity_id] to
    [qualified_name] that the loop over the rows of type Project fills. *)
Definition get_projects_ids (w : World) : list (Ident * string) :=
  fold_left
    (fun projects r => dict_set (entity_id r) (qualified_name r) projects)
    (filter (fun r => EntityType_eqb (entity_type r) Project) (entities w))
    [].

(* ------------------------------------------------------------------ *)
(** ** search_entity *)
(* ------------------------------------------------------------------ *)

(** The row [entity_id as id, qualified_name, entity_type as type] of an
    entity, from which [rgm.EntityRef] is built. *)
Definition entity_ref (r : EntityRow) : EntityRef :=
  {| ref_id := entity_id r; ref_type := entity_type r;
     ref_qualified_name := qualified_name r |}.

(** [select TOP(n) ...]: the first [n] rows of the ordered result; an
    empty [top_clause] keeps them all. *)
Definition top {A} (top_clause : option nat) (rows : list A) : list A :=
  match top_clause with
  | Some n => firstn n rows
  | None => rows
  end.

(** [rows[-size:]] for a positive [size]: the last [size] rows, all of
    them when there are fewer. *)
Definition last_rows {A} (size : nat) (rows : list A) : list A :=
  skipn (List.length rows - size) rows.

Section Search.

Variable conn : DbConnection.

(** How the engine behind the raw SQL provider evaluates
    [qualified_name like %s] on the pattern ['%' + keyword + '%'] (under
    its collation, with the wildcards that [keyword] may hold), and how it
    orders rows by [qualified_name]. *)
Variable like : string -> string -> bool.
Variable order_by_qualified_name : list EntityRef -> list EntityRef.

(** The select of the raw SQL branch without its [TOP] clause: over
    [entities], or over [entities inner join edges on entity_id =
    edges.from_id and edges.conn_type = 'BelongsTo'] restricted to
    [edges.to_id = project_id] (one row for each such edge). *)
Definition search_rows (keyword : string) (type : list EntityType)
    (project_id : option Ident) (w : World) : list EntityRef :=
  let joined :=
    match project_id with
    | None => entities w
    | Some p =>
        flat_map
          (fun r =>
             map (fun _ => r)
                 (filter (fun e => Ident_eqb (from_id e) (entity_id r)
                                   && RelationshipType_eqb (conn_type e) BelongsTo
                                   && Ident_eqb (to_id e) p)
                         (edges w)))
          (entities w)
    end in
  order_by_qualified_name
    (map entity_ref
       (filter (fun r => like (qualified_name r) ("%" ++ keyword ++ "%")%string
                         && existsb (EntityType_eqb (entity_type r)) type)
               joined)).

(** The raw SQL query of [search_entity]: [entity_type in %s] is sent with
    the tuple of the types, and the driver writes the empty tuple as
    [()], which the engine rejects. *)
Definition search_query (top_clause : option nat) (keyword : string)
    (type : list EntityType) (project_id : option Ident) (w : World)
    : Result (list EntityRef) :=
  match type with
  | [] => Raise DbError
  | _ :: _ => Ok (top top_clause (search_rows keyword type project_id w))
  end.

(** [search_entity].  [if project:] holds for a UUID and for text that is
    not empty; [if size:] for a number that is not zero.  Under
    SQLAlchemy both branches name an attribute that the module [orm]
    does not have ([orm.Entitiesentity_id], [orm.Entitiesqualified_name])
    while they build the query. *)
Definition search_entity (keyword : string) (type : list EntityType)
    (project : option Ident) (start size : option nat) (w : World)
    : Result (list EntityRef) :=
  let top_clause :=
    match start, size with
    | Some start', Some size' => Some (start' + size')
    | _, _ => None
    end in
  let with_project (project' : Ident) :=
    let? project_id := get_entity_id project' w in
    if is_sqlalchemy_supported conn
    then Raise AttributeError
    else search_query top_clause keyword type (Some project_id) w in
  let without_project :=
    if is_sqlalchemy_supported conn
    then Raise AttributeError
    else search_query top_clause keyword type None w in
  let? rows :=
    match project with
    | None => without_project
    | Some (Str EmptyString) => without_project
    | Some project' => with_project project'
    end in
  let rows :=
    match size with
    | Some (S n) => last_rows (S n) rows
    | _ => rows
    end in
  Ok rows.

End Search.

(* ================================================================== *)
(** * db_registry.py: statements that write *)
(* ================================================================== *)

(** [uuid4()]. *)
Definition uuid4 : M Ident :=
  fun w => (Ok (Uuid (next_uuid w)),
            {| entities := entities w; edges := edges w;
               next_uuid := S (next_uuid w); fail_in := fail_in w |}).

(** Every statement that writes first meets the driver. *)
Definition driver : M unit :=
  fun w => match fail_in w with
           | Some 0 => (Raise DbError, set_fail_in None w)
           | Some (S n) => (Ok tt, set_fail_in (Some n) w)
           | None => (Ok tt, w)
           end.

(** [insert into entities ... values (...)]: the primary key rejects an
    [entity_id] that is already stored. *)
Definition insert_entity (row : EntityRow) : M unit :=
  driver ;;;
  fun w =>
    if existsb (fun r => Ident_eqb (entity_id r) (entity_id row)) (entities w)
    then (Raise DbError, w)
    else (Ok tt, set_entities (entities w ++ [row]) w).

(** [insert into edges ... values (...)]. *)
Definition insert_edge (row : EdgeRow) : M unit :=
  driver ;;;
  fun w =>
    if existsb (fun e => Ident_eqb (edge_id e) (edge_id row)) (edges w)
    then (Raise DbError, w)
    else (Ok tt, set_edges (edges w ++ [row]) w).

Definition same_connection (a b : EdgeRow) : bool :=
  Ident_eqb (from_id a) (from_id b) && Ident_eqb (to_id a) (to_id b)
  && RelationshipType_eqb (conn_type a) (conn_type b).

(** [IF NOT EXISTS (SELECT 1 FROM edges WHERE from_id=.. and to_id=.. and
    conn_type=..) BEGIN INSERT INTO edges ... END]. *)
Definition insert_edge_if_not_exists (row : EdgeRow) : M unit :=
  driver ;;;
  fun w =>
    if existsb (same_connection row) (edges w)
    then (Ok tt, w)
    else if existsb (fun e => Ident_eqb (edge_id e) (edge_id row)) (edges w)
    then (Raise DbError, w)
    else (Ok tt, set_edges (edges w ++ [row]) w).

(** [DELETE FROM edges WHERE <criterion>]. *)
Definition delete_edges (criterion : EdgeRow -> bool) : M unit :=
  driver ;;;
  fun w => (Ok tt, set_edges (filter (fun e => negb (criterion e)) (edges w)) w).

(** [DELETE FROM entities WHERE entity_id = %s]. *)
Definition delete_entities (x : Ident) : M unit :=
  driver ;;;
  fun w => (Ok tt,
            set_entities
              (filter (fun r => negb (Ident_eqb (entity_id r) x)) (entities w)) w).

Section Registry.

Variable conn : DbConnection.

(** [_create_edge]: a plain insert under SQLAlchemy, a guarded insert in
    raw SQL.  The edge identifier is drawn in both. *)
Definition _create_edge (from_id' to_id' : Ident) (type : RelationshipType)
    : M unit :=
  edge_id' <- uuid4 ;;
  let row := {| edge_id := edge_id'; from_id := from_id'; to_id := to_id';
                conn_type := type |} in
  if is_sqlalchemy_supported conn
  then insert_edge row
  else insert_edge_if_not_exists row.

(** The criterion of the ORM branch of [_delete_all_entity_edges],
    [(orm.Edges.from_id == str(entity_id)) | orm.Edges.to_id == str(entity_id)].
    In Python [|] binds tighter than [==], so the expression is
    [((from_id == x) | to_id) == x] and it is sent to the engine as
    [(edges.from_id = x OR edges.to_id) = x]. *)
Definition orm_edge_criterion (eq_text : bool -> Ident -> bool) (x : Ident)
    (e : EdgeRow) : bool :=
  eq_text (Ident_eqb (from_id e) x || text_as_bool conn (to_id e)) x.

(** The criterion of the raw SQL branch, [from_id = %s OR to_id = %s]. *)
Definition sql_edge_criterion (x : Ident) (e : EdgeRow) : bool :=
  Ident_eqb (from_id e) x || Ident_eqb (to_id e) x.

Definition _delete_all_entity_edges (entity_id' : Ident) : M unit :=
  if is_sqlalchemy_supported conn
  then match bool_eq_text conn with
       | Some eq_text => delete_edges (orm_edge_criterion eq_text entity_id')
       | None => driver ;;; raise DbError
       end
  else delete_edges (sql_edge_criterion entity_id').

Definition _delete_entity (entity_id' : Ident) : M unit :=
  delete_entities entity_id'.

Definition delete_entity (entity_id' : Ident) : M unit :=
  x <- read (get_entity_id entity_id') ;;
  transaction conn (
    _delete_all_entity_edges x ;;;
    _delete_entity x).

(** The body of the two loops of [delete_empty_entities], for the entity
    type [type] and the relation [conn_type']: an entity of that type whose
    traversal finds one entity only (itself) is deleted. *)
Definition delete_if_empty (type : EntityType) (conn_type' : RelationshipType)
    (fuel : nat) (e : Entity) : M unit :=
  if EntityType_eqb (entity_type (row_of e)) type
  then
    r <- read (_bfs fuel (id e) conn_type') ;;
    if Nat.eqb (List.length (fst r)) 1
    then delete_entity (id e)
    else ret tt
  else ret tt.

(** [for e in entities:] with that body. *)
Fixpoint delete_empty (type : EntityType) (conn_type' : RelationshipType)
    (fuel : nat) (entities' : list Entity) : M unit :=
  match entities' with
  | [] => ret tt
  | e :: rest =>
      delete_if_empty type conn_type' fuel e ;;;
      delete_empty type conn_type' fuel rest
  end.

Definition delete_empty_entities (fuel : nat) (entities' : list Entity) : M unit :=
  match entities' with
  | [] => ret tt
  | _ :: _ =>
      (* clean up empty anchors *)
      delete_empty Anchor Contains fuel entities' ;;;
      (* clean up empty sources *)
      delete_empty Source Produces fuel entities'
  end.

(* ------------------------------------------------------------------ *)
(** ** The creation protocol *)
(* ------------------------------------------------------------------ *)

(** The block that every creation function runs first inside its
    transaction (lines 300-323, 348-379, 402-428, 473-503, 537-567):
    look the qualified name up; with no row, go on to insert ([None]);
    with more than one row, [assert False]; with one row of another type,
    [ConflictError]; with one row of this type, [same] compares its
    attributes with the definition and decides between the stored
    identifier and [ConflictError]. *)
Definition find_existing (qualified_name' : string) (type : EntityType)
    (same : Attributes -> Result bool) : M (option Ident) :=
  r <- read (fun w => Ok (select_by_qualified_name qualified_name' w)) ;;
  match r with
  | [] => ret None
  | r0 :: rest =>
      match rest with
      | _ :: _ => raise AssertionError
      | [] =>
          (* The entity with same name already exists but with different type *)
          if negb (EntityType_eqb (entity_type r0) type)
          then raise ConflictError
          else
            b <- read (fun _ => same (attributes r0)) ;;
            if b
            then x <- read (fun _ => _to_uuid (entity_id r0)) ;; ret (Some x)
            else raise ConflictError
      end
  end.

(** [create_project] compares no attribute. *)
Definition same_project (definition : ProjectDef) (a : Attributes) : Result bool :=
  Ok true.

Definition same_source (definition : SourceDef) (a : Attributes) : Result bool :=
  match a with
  | SourceAttributes name type options preprocessing event_timestamp_column
      timestamp_format =>
      Ok (String.eqb name (source_name definition)
          && String.eqb type (source_type definition)
          && String.eqb options (source_options definition)
          && String.eqb preprocessing (source_preprocessing definition)
          && String.eqb event_timestamp_column
               (source_event_timestamp_column definition)
          && String.eqb timestamp_format (source_timestamp_format definition))
  | _ => Raise TypeError
  end.

Definition same_anchor (definition : AnchorDef) (a : Attributes) : Result bool :=
  match a with
  | AnchorAttributes name _ => Ok (String.eqb name (anchor_name definition))
  | _ => Raise TypeError
  end.

Definition same_anchor_feature (definition : AnchorFeatureDef) (a : Attributes)
    : Result bool :=
  match a with
  | AnchorFeatureAttributes name type transformation key =>
      Ok (String.eqb name (anchor_feature_name definition)
          && String.eqb type (anchor_feature_type definition)
          && String.eqb transformation (anchor_feature_transformation definition)
          && String.eqb key (anchor_feature_key definition))
  | _ => Raise TypeError
  end.

Definition same_derived_feature (definition : DerivedFeatureDef) (a : Attributes)
    : Result bool :=
  match a with
  | DerivedFeatureAttributes name type transformation key _ =>
      Ok (String.eqb name (derived_feature_name definition)
          && String.eqb type (derived_feature_type definition)
          && String.eqb transformation (derived_feature_transformation definition)
          && String.eqb key (derived_feature_key definition))
  | _ => Raise TypeError
  end.

(** [f"{parent.qualified_name}__{definition.name}"]. *)
Definition qualify (parent name : string) : string :=
  (parent ++ "__" ++ name)%string.

Definition create_project (definition : ProjectDef) : M Ident :=
  let qualified_name' := project_name definition in
  transaction conn (
    existing <- find_existing qualified_name' Project (same_project definition) ;;
    match existing with
    | Some x => ret x
    | None =>
        entity_id' <- uuid4 ;;
        insert_entity
          {| entity_id := entity_id';
             entity_type := Project;
             qualified_name := qualified_name';
             attributes := ProjectAttributes (project_name definition) |} ;;;
        ret entity_id'
    end).

Definition create_project_datasource (fuel : nat) (project_id : Ident)
    (definition : SourceDef) : M Ident :=
  project <- read (get_entity fuel project_id) ;;
  let qualified_name' :=
    qualify (qualified_name (row_of project)) (source_name definition) in
  transaction conn (
    existing <- find_existing qualified_name' Source (same_source definition) ;;
    match existing with
    | Some x => ret x
    | None =>
        id' <- uuid4 ;;
        insert_entity
          {| entity_id := id';
             entity_type := Source;
             qualified_name := qualified_name';
             attributes :=
               SourceAttributes (source_name definition) (source_type definition)
                 (source_options definition) (source_preprocessing definition)
                 (source_event_timestamp_column definition)
                 (source_timestamp_format definition) |} ;;;
        _create_edge project_id id' Contains ;;;
        _create_edge id' project_id BelongsTo ;;;
        ret id'
    end).

Definition create_project_anchor (fuel : nat) (project_id : Ident)
    (definition : AnchorDef) : M Ident :=
  project <- read (get_entity fuel project_id) ;;
  let qualified_name' :=
    qualify (qualified_name (row_of project)) (anchor_name definition) in
  transaction conn (
    existing <- find_existing qualified_name' Anchor (same_anchor definition) ;;
    match existing with
    | Some x => ret x
    | None =>
        r <- read (fun w =>
               Ok (filter (fun r => Ident_eqb (entity_id r) (source_id definition)
                                    && EntityType_eqb (entity_type r) Source)
                          (entities w))) ;;
        match r with
        | [] => raise ValueError
        | r0 :: _ =>
            let ref := {| ref_id := entity_id r0; ref_type := Source;
                          ref_qualified_name := qualified_name r0 |} in
            entity_id' <- uuid4 ;;
            insert_entity
              {| entity_id :=
                   (* [str(entity_id)] under SQLAlchemy, [str(id)] in raw SQL *)
                   if is_sqlalchemy_supported conn then entity_id' else builtin_id;
                 entity_type := Anchor;
                 qualified_name := qualified_name';
                 attributes := AnchorAttributes (anchor_name definition) ref |} ;;;
            (* Add "Contains/BelongsTo" relations between anchor and project *)
            _create_edge project_id entity_id' Contains ;;;
            _create_edge entity_id' project_id BelongsTo ;;;
            (* Add "Consumes/Produces" relations between anchor and datasource *)
            _create_edge entity_id' (source_id definition) Consumes ;;;
            _create_edge (source_id definition) entity_id' Produces ;;;
            ret entity_id'
        end
    end).

(** [anchor.attributes.source.id]: only a filled anchor has a source. *)
Definition attributes_source_id (anchor : Entity) : Result Ident :=
  match source_of anchor with
  | Some source => Ok (id source)
  | None => Raise AttributeError
  end.

Definition create_project_anchor_feature (fuel : nat)
    (project_id anchor_id : Ident) (definition : AnchorFeatureDef) : M Ident :=
  anchor <- read (get_entity fuel anchor_id) ;;
  let qualified_name' :=
    qualify (qualified_name (row_of anchor)) (anchor_feature_name definition) in
  transaction conn (
    existing <- find_existing qualified_name' AnchorFeature
                  (same_anchor_feature definition) ;;
    match existing with
    | Some x => ret x
    | None =>
        source_id' <- read (fun _ => attributes_source_id anchor) ;;
        id' <- uuid4 ;;
        insert_entity
          {| entity_id := id';
             entity_type := AnchorFeature;
             qualified_name := qualified_name';
             attributes :=
               AnchorFeatureAttributes (anchor_feature_name definition)
                 (anchor_feature_type definition)
                 (anchor_feature_transformation definition)
                 (anchor_feature_key definition) |} ;;;
        (* Add "Contains/BelongsTo" relations between anchor feature and project *)
        _create_edge project_id id' Contains ;;;
        _create_edge id' project_id BelongsTo ;;;
        (* Add "Contains/BelongsTo" relations between anchor feature and anchor *)
        _create_edge anchor_id id' Contains ;;;
        _create_edge id' anchor_id BelongsTo ;;;
        (* Add "Consumes/Produces" relations between anchor feature and
           datasource used by anchor *)
        _create_edge id' source_id' Consumes ;;;
        _create_edge source_id' id' Produces ;;;
        ret id'
    end).

(** [select ... where entity_id in %s and entity_type = %s], guarded by
    [if definition.input_..._features:] and followed by the length check. *)
Definition select_inputs (ids : list Ident) (type : EntityType)
    : M (list EntityRow) :=
  match ids with
  | [] => ret []
  | _ :: _ =>
      r <- read (fun w =>
             Ok (filter (fun r => existsb (Ident_eqb (entity_id r)) ids
                                  && EntityType_eqb (entity_type r) type)
                        (entities w))) ;;
      if negb (Nat.eqb (List.length r) (List.length ids))
      then raise ValueError
      else ret r
  end.

(** [for r in r1 + r2:] of [create_project_derived_feature]. *)
Fixpoint link_inputs (id' : Ident) (rows : list EntityRow) : M unit :=
  match rows with
  | [] => ret tt
  | r :: rest =>
      let input_feature_id := entity_id r in
      _create_edge id' input_feature_id Consumes ;;;
      _create_edge input_feature_id id' Produces ;;;
      link_inputs id' rest
  end.

Definition create_project_derived_feature (fuel : nat) (project_id : Ident)
    (definition : DerivedFeatureDef) : M Ident :=
  project <- read (get_entity fuel project_id) ;;
  let qualified_name' :=
    qualify (qualified_name (row_of project)) (derived_feature_name definition) in
  transaction conn (
    existing <- find_existing qualified_name' DerivedFeature
                  (same_derived_feature definition) ;;
    match existing with
    | Some x => ret x
    | None =>
        r1 <- select_inputs (input_anchor_features definition) AnchorFeature ;;
        r2 <- select_inputs (input_derived_features definition) DerivedFeature ;;
        let refs :=
          map (fun r => {| ref_id := entity_id r; ref_type := entity_type r;
                           ref_qualified_name := qualified_name r |})
              (r1 ++ r2) in
        id' <- uuid4 ;;
        insert_entity
          {| entity_id := id';
             entity_type := DerivedFeature;
             qualified_name := qualified_name';
             attributes :=
               DerivedFeatureAttributes (derived_feature_name definition)
                 (derived_feature_type definition)
                 (derived_feature_transformation definition)
                 (derived_feature_key definition) refs |} ;;;
        (* Add "Contains/BelongsTo" relations between derived feature and project *)
        _create_edge project_id id' Contains ;;;
        _create_edge id' project_id BelongsTo ;;;
        link_inputs id' (r1 ++ r2) ;;;
        ret id'
    end).

(** [DbRegistry.__init__]: under SQLAlchemy the tables are created and
    [_init_project] creates the project ["global"]. *)
Definition _init_project : M unit :=
  create_project {| project_name := "global" |} ;;; ret tt.

Definition DbRegistry_init : M unit :=
  if is_sqlalchemy_supported conn then _init_project else ret tt.

End Registry.

(* ================================================================== *)
(** * api: the request handlers of the registry *)
(* ================================================================== *)

(** What a request handler raises: an exception of the registry, which it
    lets through, or an [HTTPException] of its own. *)
Inductive Raised : Type :=
| Registry (e : Exc)
| HTTPException (status_code : nat).

Inductive Response (A : Type) : Type :=
| Returns (a : A)
| Raises (r : Raised).
Arguments Returns {A} a.
Arguments Raises {A} r.

(** A request handler: it runs against the store of the registry. *)
Definition Handler (A : Type) : Type := World -> Response A * World.

Definition handler_ret {A} (a : A) : Handler A := fun w => (Returns a, w).
Definition handler_raise {A} (r : Raised) : Handler A := fun w => (Raises r, w).
Definition handler_bind {A B} (c : Handler A) (k : A -> Handler B) : Handler B :=
  fun w => match c w with
           | (Returns a, w') => k a w'
           | (Raises r, w') => (Raises r, w')
           end.
(** A call of a method of [registry]. *)
Definition registry_call {A} (c : M A) : Handler A :=
  fun w => match c w with
           | (Ok a, w') => (Returns a, w')
           | (Raise e, w') => (Raises (Registry e), w')
           end.

Notation "x <~ c ;; k" := (handler_bind c (fun x => k))
  (at level 61, c at next level, right associativity).
Notation "c ;;~ k" := (handler_bind c (fun _ => k))
  (at level 61, right associativity).

(** [get_application] of [api/__init__.py]: the status code of the
    response, for the exceptions that have a handler ([ConflictError],
    [ValueError], [TypeError], [KeyError], [IndexError]) and for an
    [HTTPException], which carries its own.  [None]: the application
    registers no handler for the exception. *)
Definition exception_handler (r : Raised) : option nat :=
  match r with
  | HTTPException status_code => Some status_code
  | Registry ConflictError => Some 409
  | Registry ValueError => Some 400
  | Registry TypeError => Some 400
  | Registry KeyError => Some 404
  | Registry IndexError => Some 404
  | Registry _ => None
  end.

Module Api.

Section Handlers.

Variable conn : DbConnection.
Variable fuel : nat.

(** [delete_entity] of [api/v1/entities.py]: 412 is
    [HTTPStatus.PRECONDITION_FAILED]. *)
Definition delete_entity (entity : Ident) : Handler unit :=
  entity_id' <~ registry_call (read (get_entity_id entity)) ;;
  downstream_entities <~
    registry_call (read (get_dependent_entities fuel entity_id')) ;;
  (if Nat.ltb 0 (List.length downstream_entities)
   then
     registry_call (delete_empty_entities conn fuel downstream_entities) ;;~
     remaining <~
       registry_call (read (get_dependent_entities fuel entity_id')) ;;
     if Nat.ltb 0 (List.length remaining)
     then handler_raise (HTTPException 412)
     else handler_ret tt
   else handler_ret tt) ;;~
  registry_call (delete_entity conn entity_id').

(** The handlers of the POST routes ([api/v1/projects.py],
    [datasources.py], [features.py]); each returns the [guid] of its
    response.  The definition is the value of the class of
    [models/base.py] that the handler builds from the body of the
    request. *)
Definition new_project (definition : ProjectDef) : Handler Ident :=
  registry_call (create_project conn definition).

Definition new_project_datasource (project : Ident) (definition : SourceDef)
    : Handler Ident :=
  project_id <~ registry_call (read (get_entity_id project)) ;;
  registry_call (create_project_datasource conn fuel project_id definition).

Definition new_project_anchor (project : Ident) (definition : AnchorDef)
    : Handler Ident :=
  project_id <~ registry_call (read (get_entity_id project)) ;;
  registry_call (create_project_anchor conn fuel project_id definition).

Definition new_project_anchor_feature (project anchor : Ident)
    (definition : AnchorFeatureDef) : Handler Ident :=
  project_id <~ registry_call (read (get_entity_id project)) ;;
  anchor_id <~ registry_call (read (get_entity_id anchor)) ;;
  registry_call
    (create_project_anchor_feature conn fuel project_id anchor_id definition).

Definition new_project_derived_feature (project : Ident)
    (definition : DerivedFeatureDef) : Handler Ident :=
  project_id <~ registry_call (read (get_entity_id project)) ;;
  registry_call (create_project_derived_feature conn fuel project_id definition).

(** A request to one of the POST routes. *)
Inductive Post : Type :=
| PostProjects (definition : ProjectDef)
| PostDatasources (project : Ident) (definition : SourceDef)
| PostAnchors (project : Ident) (definition : AnchorDef)
| PostAnchorFeatures (project anchor : Ident) (definition : AnchorFeatureDef)
| PostDerivedfeatures (project : Ident) (definition : DerivedFeatureDef).

Definition post (request : Post) : Handler Ident :=
  match request with
  | PostProjects d => new_project d
  | PostDatasources p d => new_project_datasource p d
  | PostAnchors p d => new_project_anchor p d
  | PostAnchorFeatures p a d => new_project_anchor_feature p a d
  | PostDerivedfeatures p d => new_project_derived_feature p d
  end.

End Handlers.

End Api.

(* ================================================================== *)
(** * access_control: the project-creation gate *)
(* ================================================================== *)

(** Modelled from the spec: [rgm.SUPER_ADMIN_SCOPE] of the access-control
    models (absent from the sources), the reserved global-scope name. *)
Definition SUPER_ADMIN_SCOPE : string := "global".

(** [str.casefold] and [str.lower], on ASCII text. *)
Definition lower_ascii (c : ascii) : ascii :=
  let n := nat_of_ascii c in
  if Nat.leb 65 n && Nat.leb n 90 then ascii_of_nat (n + 32) else c.

Fixpoint casefold (s : string) : string :=
  match s with
  | EmptyString => EmptyString
  | String c s' => String (lower_ascii c) (casefold s')
  end.

(** [orm.UserRole], with the columns that [init_userrole] reads and
    [init_project_admin] writes. *)
Record UserRole : Type := {
  role_project_name : string;
  role_user_name : string;
  role_name : string;
  delete_reason : option string
}.

(** The access-control service and the registry behind it. *)
Record Service : Type := {
  userroles : list UserRole;
  registry : World
}.

(** [init_project_admin]; ["admin"] stands for [rgm.RoleType.ADMIN.value]. *)
Definition init_project_admin (creator_name project_name' : string)
    (roles : list UserRole) : list UserRole :=
  roles ++ [{| role_project_name := casefold project_name';
               role_user_name := casefold creator_name;
               role_name := "admin";
               delete_reason := None |}].

(** [DbRBAC.init_userrole]. *)
Definition init_userrole (creator_name project_name' : string)
    (roles : list UserRole) : Result (list UserRole) :=
  (* project name cannot be `global` *)
  if String.eqb (casefold project_name') (casefold SUPER_ADMIN_SCOPE)
  then Raise BadRequest
  else
    let rows :=
      filter (fun u => match delete_reason u with None => true | Some _ => false end
                       && String.eqb (role_project_name u) (casefold project_name'))
             roles in
    match rows with
    | _ :: _ => Ok roles
    | [] => Ok (init_project_admin creator_name project_name' roles)
    end.

(** [new_project] of [rbac/api/v1/registry.py]: the gate, then the request
    is forwarded to [new_project] of the registry API, which calls
    [create_project]. *)
Definition new_project (conn : DbConnection) (requestor : string)
    (definition : ProjectDef) (s : Service) : Result Ident * Service :=
  match init_userrole requestor (project_name definition) (userroles s) with
  | Raise e => (Raise e, s)
  | Ok roles =>
      let (res, w) := create_project conn definition (registry s) in
      (res, {| userroles := roles; registry := w |})
  end.

(* ================================================================== *)
(** * Sequences of calls *)
(* ================================================================== *)

(** A call of one of the five creation functions. *)
Inductive Creation : Type :=
| CreateProject (definition : ProjectDef)
| CreateProjectDatasource (project_id : Ident) (definition : SourceDef)
| CreateProjectAnchor (project_id : Ident) (definition : AnchorDef)
| CreateProjectAnchorFeature (project_id anchor_id : Ident)
    (definition : AnchorFeatureDef)
| CreateProjectDerivedFeature (project_id : Ident)
    (definition : DerivedFeatureDef).

Definition create (conn : DbConnection) (fuel : nat) (c : Creation) : M Ident :=
  match c with
  | CreateProject d => create_project conn d
  | CreateProjectDatasource p d => create_project_datasource conn fuel p d
  | CreateProjectAnchor p d => create_project_anchor conn fuel p d
  | CreateProjectAnchorFeature p a d => create_project_anchor_feature conn fuel p a d
  | CreateProjectDerivedFeature p d => create_project_derived_feature conn fuel p d
  end.

(** The entity type a creation function creates. *)
Definition created_type (c : Creation) : EntityType :=
  match c with
  | CreateProject _ => Project
  | CreateProjectDatasource _ _ => Source
  | CreateProjectAnchor _ _ => Anchor
  | CreateProjectAnchorFeature _ _ _ => AnchorFeature
  | CreateProjectDerivedFeature _ _ => DerivedFeature
  end.

(** The comparison a creation function makes between the stored attributes
    and its definition. *)
Definition compared (c : Creation) : Attributes -> Result bool :=
  match c with
  | CreateProject d => same_project d
  | CreateProjectDatasource _ d => same_source d
  | CreateProjectAnchor _ d => same_anchor d
  | CreateProjectAnchorFeature _ _ d => same_anchor_feature d
  | CreateProjectDerivedFeature _ d => same_derived_feature d
  end.

(** The qualified name a creation function computes before it opens its
    transaction. *)
Definition computed_qualified_name (fuel : nat) (c : Creation) (w : World)
    : Result string :=
  match c with
  | CreateProject d => Ok (project_name d)
  | CreateProjectDatasource p d =>
      let? project := get_entity fuel p w in
      Ok (qualify (qualified_name (row_of project)) (source_name d))
  | CreateProjectAnchor p d =>
      let? project := get_entity fuel p w in
      Ok (qualify (qualified_name (row_of project)) (anchor_name d))
  | CreateProjectAnchorFeature _ a d =>
      let? anchor := get_entity fuel a w in
      Ok (qualify (qualified_name (row_of anchor)) (anchor_feature_name d))
  | CreateProjectDerivedFeature p d =>
      let? project := get_entity fuel p w in
      Ok (qualify (qualified_name (row_of project)) (derived_feature_name d))
  end.

(** A call of the registry that writes, with the fuel of its reads. *)
Inductive Call : Type :=
| CallCreate (fuel : nat) (c : Creation)
| CallDeleteEntity (entity_id' : Ident)
| CallDeleteEmptyEntities (fuel : nat) (entities' : list Entity).

Definition call (conn : DbConnection) (c : Call) (w : World) : World :=
  match c with
  | CallCreate fuel c => snd (create conn fuel c w)
  | CallDeleteEntity x => snd (delete_entity conn x w)
  | CallDeleteEmptyEntities fuel l => snd (delete_empty_entities conn fuel l w)
  end.

(** The store after the registry was initialised and a sequence of calls
    was made, each under its own fault plan of the driver. *)
Fixpoint run (conn : DbConnection) (calls : list (Call * option nat))
    (w : World) : World :=
  match calls with
  | [] => w
  | (c, fault) :: rest => run conn rest (call conn c (set_fail_in fault w))
  end.

Definition initial (conn : DbConnection) (fault : option nat) : World :=
  snd (DbRegistry_init conn (set_fail_in fault empty_world)).

Definition history (conn : DbConnection) (fault : option nat)
    (calls : list (Call * option nat)) : World :=
  run conn calls (initial conn fault).

Definition creations (calls : list (nat * Creation * option nat))
    : list (Call * option nat) :=
  map (fun c => (CallCreate (fst (fst c)) (snd (fst c)), snd c)) calls.

(* ================================================================== *)
(** * Properties: the vocabulary of the theorems *)
(* ================================================================== *)

(** [wp c Q w]: run from [w], the computation [c] ends with a result and a
    world that satisfy [Q]. *)
Definition wp {A} (c : M A) (Q : Result A -> World -> Prop) (w : World) : Prop :=
  Q (fst (c w)) (snd (c w)).

(** How two worlds compare across a computation: what every write of the
    registry guarantees. *)
Definition same_tables (w w' : World) : Prop :=
  entities w' = entities w /\ edges w' = edges w.

(** [effect c R]: whatever [c] returns or raises, the world it leaves is
    related by [R] to the world it started from. *)
Definition effect {A} (c : M A) (R : World -> World -> Prop) : Prop :=
  forall w, R w (snd (c w)).

Definition bump (w : World) : World :=
  {| entities := entities w; edges := edges w;
     next_uuid := S (next_uuid w); fail_in := fail_in w |}.

Definition restore (w w' : World) : World :=
  set_edges (edges w) (set_entities (entities w) w').

(** Relations that compose along a computation and cannot tell the moves
    of the driver, of the identifier supply and of a rollback. *)
Class Stable (R : World -> World -> Prop) : Prop := {
  stable_refl : forall w, R w w;
  stable_trans : forall a b c, R a b -> R b c -> R a c;
  stable_fault : forall w f, R w (set_fail_in f w);
  stable_bump : forall w, R w (bump w);
  stable_restore : forall w w', R w w' -> R w (restore w w')
}.

(** The entity table is untouched. *)
Definition keeps_entities (w w' : World) : Prop := entities w' = entities w.

(** The edge table is untouched. *)
Definition keeps_edges (w w' : World) : Prop := edges w' = edges w.

(** Rows were only removed from the entity table. *)
Definition filters_entities (w w' : World) : Prop :=
  exists p, entities w' = filter p (entities w).

(** Rows were only appended to the tables, and the identifier supply only
    moved forward. *)
Definition extends (w w' : World) : Prop :=
  (exists rows, entities w' = entities w ++ rows)
  /\ (exists es, edges w' = edges w ++ es)
  /\ next_uuid w <= next_uuid w'.

(** Two relations at once. *)
Definition both (R1 R2 : World -> World -> Prop) (w w' : World) : Prop :=
  R1 w w' /\ R2 w w'.

(** What a creation function does to the entity table: nothing, or it
    appends one row whose qualified name and identifier were not stored,
    whose type is the one the function creates and whose identifier is
    the first one drawn (in raw SQL, an anchor gets [builtin_id]). *)
Definition appended (conn : DbConnection) (ty : EntityType) (w w' : World)
    (row : EntityRow) : Prop :=
  entities w' = entities w ++ [row]
  /\ select_by_qualified_name (qualified_name row) w = []
  /\ ~ In (entity_id row) (map entity_id (entities w))
  /\ entity_type row = ty
  /\ (entity_id row = Uuid (next_uuid w)
      \/ (entity_id row = builtin_id /\ ty = Anchor
          /\ is_sqlalchemy_supported conn = false))
  /\ next_uuid w < next_uuid w'.

Definition footprint (conn : DbConnection) (ty : EntityType) (w w' : World)
    : Prop :=
  entities w' = entities w \/ exists row, appended conn ty w w' row.

(** No two stored entities, of whatever types, share a qualified name. *)
Definition uniqueness (w : World) : Prop :=
  forall i j e1 e2,
    nth_error (entities w) i = Some e1 ->
    nth_error (entities w) j = Some e2 ->
    i <> j ->
    qualified_name e1 <> qualified_name e2.

(** ** A scenario: project p1, sources s1 and s2, anchor a1 over s1 *)

Definition source_def (name : string) : SourceDef :=
  {| source_name := name; source_type := "hdfs"; source_options := "{}";
     source_preprocessing := "null"; source_event_timestamp_column := "ts";
     source_timestamp_format := "epoch" |}.

(** SQLite, with a numeric reading of text that takes every identifier
    for zero. *)
Definition sqlite : DbConnection := SQLiteConnection (fun _ => false).

(** Under SQLite the registry starts with the project "global"
    ([Uuid 0]); p1 is [Uuid 1], s1 is [Uuid 2], s2 is [Uuid 5]. *)
Definition sqlite_sources : World :=
  history sqlite None
    [ (CallCreate 2 (CreateProject {| project_name := "p1" |}), None);
      (CallCreate 2 (CreateProjectDatasource (Uuid 1) (source_def "s1")), None);
      (CallCreate 2 (CreateProjectDatasource (Uuid 1) (source_def "s2")), None) ].

(** In raw SQL the registry starts empty; p1 is [Uuid 0], s1 is [Uuid 1],
    s2 is [Uuid 4]. *)
Definition mssql_sources : World :=
  history MssqlConnection None
    [ (CallCreate 2 (CreateProject {| project_name := "p1" |}), None);
      (CallCreate 2 (CreateProjectDatasource (Uuid 0) (source_def "s1")), None);
      (CallCreate 2 (CreateProjectDatasource (Uuid 0) (source_def "s2")), None) ].

(** The scenario with the anchor a1 ([Uuid 8]) over s1. *)
Definition sqlite_anchor : World :=
  call sqlite
    (CallCreate 2 (CreateProjectAnchor (Uuid 1)
                     {| anchor_name := "a1"; source_id := Uuid 2 |}))
    sqlite_sources.

(** ** Traversals *)

(** The relation that [get_dependent_entities] follows from an entity of
    a given type. *)
Definition relation_of (ty : EntityType) : RelationshipType :=
  match ty with
  | Project | Anchor => Contains
  | Source | AnchorFeature | DerivedFeature => Produces
  end.

(** Some [R]-edge leaves [x], and every [R]-edge that leaves [x] goes to
    [y]. *)
Definition leads (w : World) (R : RelationshipType) (x y : Ident) : Prop :=
  (exists e, In e (edges w) /\ conn_type e = R /\ from_id e = x /\ to_id e = y)
  /\ (forall e, In e (edges w) -> conn_type e = R -> from_id e = x -> to_id e = y).

(** No [R]-edge leaves [x]. *)
Definition leaf (w : World) (R : RelationshipType) (x : Ident) : Prop :=
  forall e, In e (edges w) -> conn_type e = R -> from_id e <> x.

(** [leads] and [leaf], decided. *)
Definition leadsb (w : World) (R : RelationshipType) (x y : Ident) : bool :=
  existsb (fun e => RelationshipType_eqb (conn_type e) R
                    && Ident_eqb (from_id e) x && Ident_eqb (to_id e) y)
          (edges w)
  && forallb (fun e => negb (RelationshipType_eqb (conn_type e) R
                             && Ident_eqb (from_id e) x)
                       || Ident_eqb (to_id e) y)
             (edges w).

Definition leafb (w : World) (R : RelationshipType) (x : Ident) : bool :=
  forallb (fun e => negb (RelationshipType_eqb (conn_type e) R
                          && Ident_eqb (from_id e) x))
          (edges w).

Definition derived_def (name : string) (inputs : list Ident) : DerivedFeatureDef :=
  {| derived_feature_name := name; derived_feature_type := "float";
     derived_feature_transformation := "x + 1"; derived_feature_key := "id";
     input_anchor_features := []; input_derived_features := inputs |}.

(** Under SQLite: project p1 ([Uuid 1]) and the derived features d1
    ([Uuid 2]), d2 over d1 ([Uuid 5]), d3 over d2 ([Uuid 10]) and d4 over d3
    ([Uuid 15]); the Produces edges form the chain d1 -> d2 -> d3 -> d4. *)
Definition sqlite_chain : World :=
  history sqlite None
    [ (CallCreate 2 (CreateProject {| project_name := "p1" |}), None);
      (CallCreate 2 (CreateProjectDerivedFeature (Uuid 1) (derived_def "d1" [])), None);
      (CallCreate 2 (CreateProjectDerivedFeature (Uuid 1)
                       (derived_def "d2" [Uuid 2])), None);
      (CallCreate 2 (CreateProjectDerivedFeature (Uuid 1)
                       (derived_def "d3" [Uuid 5])), None);
      (CallCreate 2 (CreateProjectDerivedFeature (Uuid 1)
                       (derived_def "d4" [Uuid 10])), None) ].

Definition derived_row (x : UUID) (name : string) (inputs : list EntityRef)
    : EntityRow :=
  {| entity_id := Uuid x; qualified_name := qualify "p1" name;
     entity_type := DerivedFeature;
     attributes := DerivedFeatureAttributes name "float" "x + 1" "id" inputs |}.

Definition derived_ref (x : UUID) (name : string) : EntityRef :=
  {| ref_id := Uuid x; ref_type := DerivedFeature;
     ref_qualified_name := qualify "p1" name |}.

Definition d1_row : EntityRow := derived_row 2 "d1" [].
Definition d2_row : EntityRow := derived_row 5 "d2" [derived_ref 2 "d1"].
Definition d3_row : EntityRow := derived_row 10 "d3" [derived_ref 5 "d2"].
Definition d4_row : EntityRow := derived_row 15 "d4" [derived_ref 10 "d3"].

(** Rows were only removed, from either table. *)
Definition shrinks (w w' : World) : Prop :=
  (exists p, entities w' = filter p (entities w))
  /\ (exists q, edges w' = filter q (edges w)).

(** Rows whose identifier is not in [S] stay. *)
Definition keeps_outside (S : list Ident) (w w' : World) : Prop :=
  forall row, In row (entities w) -> ~ In (entity_id row) S ->
              In row (entities w').







(** The dependents of the project p1 in the scenario: s1, s2 and the
    anchor a1, which has no feature. *)
Definition p1_dependents : list Entity :=
  match get_dependent_entities 4 (Uuid 1) sqlite_anchor with
  | Ok l => l
  | Raise _ => []
  end.

(** ** Lineage *)

(** A well-formed Consumes edge from [x] to [y]: the consumer was drawn
    after the entity it consumes, and that entity is stored and is not an
    anchor. *)
Definition consumes_ok (w : World) (x y : Ident) : Prop :=
  exists a b,
    x = Uuid a /\ y = Uuid b /\ b < a /\ a < next_uuid w
    /\ exists r, In r (entities w) /\ entity_id r = Uuid b
                 /\ entity_type r <> Anchor.

(** What every store reached by creations satisfies. *)
Record lineage_inv (w : World) : Prop := {
  inv_key : NoDup (map entity_id (entities w));
  inv_id : forall r, In r (entities w) ->
    (exists u, entity_id r = Uuid u /\ u < next_uuid w)
    \/ (entity_id r = builtin_id /\ entity_type r = Anchor);
  inv_consumes : forall e, In e (edges w) -> conn_type e = Consumes ->
    consumes_ok w (from_id e) (to_id e);
  inv_produces : forall e, In e (edges w) -> conn_type e = Produces ->
    exists e', In e' (edges w) /\ conn_type e' = Consumes
               /\ from_id e' = to_id e /\ to_id e' = from_id e
}.

(** What the writes that follow the insertion of the entity [x] do, [ys]
    being the entities that [x] consumes. *)
Definition linking (x : Ident) (ys : list Ident) (w w' : World) : Prop :=
  keeps_entities w w' /\ extends w w'
  /\ (lineage_inv w -> (forall y, In y ys -> consumes_ok w x y) ->
      lineage_inv w').

(** An identifier that can be resolved by [get_entities]: a UUID, and if
    an anchor is stored under it, a Consumes edge leaves it. *)
Definition resolvable (w : World) (z : Ident) : Prop :=
  (exists u, z = Uuid u)
  /\ forall r, In r (entities w) -> entity_id r = z -> entity_type r = Anchor ->
       exists e, In e (edges w) /\ from_id e = z /\ conn_type e = Consumes.

(** Under SQLite: project p1 ([Uuid 1]), source s1 ([Uuid 2]) and the
    anchor a1 over s1 ([Uuid 5]); the Produces edge from s1 to a1 is
    [Uuid 9]. *)
Definition lineage_calls : list (nat * Creation * option nat) :=
  [ (2, CreateProject {| project_name := "p1" |}, None);
    (2, CreateProjectDatasource (Uuid 1) (source_def "s1"), None);
    (2, CreateProjectAnchor (Uuid 1)
          {| anchor_name := "a1"; source_id := Uuid 2 |}, None) ].

(** ** Failures, repeated calls, ownership, traversal *)

(** A computation that raises nothing but the errors of the driver. *)
Definition raises_only_DbError {A} (c : M A) : Prop :=
  forall w e, fst (c w) = Raise e -> e = DbError.

(** A computation that returns nothing but [x]. *)
Definition returns_only {A} (x : A) (c : M A) : Prop :=
  forall w a, fst (c w) = Ok a -> a = x.

(** What a creation call that returned [x] from the store [w] found when
    it inserted nothing: one row [r0] under the qualified name [qn] it
    computed, with the type it creates, attributes that compare equal to
    its definition, and [x] as its identifier. *)
Definition stored_as (fuel : nat) (c : Creation) (x : Ident) (w : World)
    (qn : string) (r0 : EntityRow) : Prop :=
  computed_qualified_name fuel c w = Ok qn
  /\ select_by_qualified_name qn w = [r0]
  /\ entity_type r0 = created_type c
  /\ compared c (attributes r0) = Ok true
  /\ entity_id r0 = x.

(** What a creation call that returned [x] from the store [w] did when it
    did not find the qualified name: it appended [row], under the
    qualified name it computed and an identifier that no row had, with
    the type it creates, attributes that
    compare equal to its definition and the identifier [x] that it drew
    (in raw SQL, an anchor gets [builtin_id]), and it appended edges. *)
Definition inserted (conn : DbConnection) (fuel : nat) (c : Creation)
    (x : Ident) (w w' : World) (row : EntityRow) : Prop :=
  computed_qualified_name fuel c w = Ok (qualified_name row)
  /\ select_by_qualified_name (qualified_name row) w = []
  /\ ~ In (entity_id row) (map entity_id (entities w))
  /\ entities w' = entities w ++ [row]
  /\ entity_type row = created_type c
  /\ compared c (attributes row) = Ok true
  /\ x = Uuid (next_uuid w)
  /\ (entity_id row = x
      \/ (entity_id row = builtin_id /\ created_type c = Anchor
          /\ is_sqlalchemy_supported conn = false))
  /\ extends w w'.

(** The triple that the guard of [_create_edge] looks for. *)
Definition connection (e : EdgeRow) : Ident * Ident * RelationshipType :=
  (from_id e, to_id e, conn_type e).

(** No two edges have the same triple. *)
Definition unique_connections (es : list EdgeRow) : Prop :=
  NoDup (map connection es).

(** Every BelongsTo edge has its inverse Contains edge. *)
Definition owned (es : list EdgeRow) : Prop :=
  forall e, In e es -> conn_type e = BelongsTo ->
    exists e', In e' es /\ conn_type e' = Contains
               /\ from_id e' = to_id e /\ to_id e' = from_id e.

(** A property of the edge table that holds after when it held before. *)
Definition preserves (Q : list EdgeRow -> Prop) (w w' : World) : Prop :=
  Q (edges w) -> Q (edges w').

(** [y] is reached from [x] along stored edges of the relation [R]. *)
Inductive reachable (w : World) (R : RelationshipType) : Ident -> Ident -> Prop :=
| reachable_here x : reachable w R x x
| reachable_next x e y :
    In e (edges w) -> conn_type e = R -> from_id e = x ->
    reachable w R (to_id e) y -> reachable w R x y.

(** A set of identifiers that the relation [R] does not leave: from each
    of them an [R]-edge goes to one of them (the nodes of a cycle, for
    one). *)
Definition closed_under (w : World) (R : RelationshipType) (C : list Ident)
    : Prop :=
  forall y, In y C ->
    exists e, In e (edges w) /\ conn_type e = R /\ from_id e = y
              /\ In (to_id e) C.

(** The identifiers [ids] are distinct and each is the identifier of a
    stored entity of the type [ty]. *)
Definition inputs_stored (w : World) (ty : EntityType) (ids : list Ident)
    : Prop :=
  NoDup ids
  /\ forall x, In x ids ->
       exists r, In r (entities w) /\ entity_id r = x /\ entity_type r = ty.

(** The store after [k] calls of [func], one after the other. *)
Fixpoint after_calls {A} (k : nat) (func : M A) (w : World) : World :=
  match k with
  | 0 => w
  | S k' => after_calls k' func (snd (func w))
  end.

(* ================================================================== *)
(** * Basic facts *)
(* ================================================================== *)

Lemma Ident_eqb_eq (a b : Ident) : Ident_eqb a b = true <-> a = b.
Proof.
  destruct a as [u|s], b as [v|t]; simpl.
  - rewrite Nat.eqb_eq. split; congruence.
  - split; discriminate.
  - split; discriminate.
  - rewrite String.eqb_eq. split; congruence.
Qed.

Lemma Ident_eqb_refl (a : Ident) : Ident_eqb a a = true.
Proof. now apply Ident_eqb_eq. Qed.

Lemma Ident_eqb_neq (a b : Ident) : Ident_eqb a b = false <-> a <> b.
Proof.
  rewrite <- Ident_eqb_eq. destruct (Ident_eqb a b); split; congruence.
Qed.

Lemma Ident_eqb_sym (a b : Ident) : Ident_eqb a b = Ident_eqb b a.
Proof.
  destruct (Ident_eqb b a) eqn:E.
  - apply Ident_eqb_eq in E. subst. apply Ident_eqb_refl.
  - apply Ident_eqb_neq. apply Ident_eqb_neq in E. congruence.
Qed.

Lemma EntityType_eqb_eq (a b : EntityType) : EntityType_eqb a b = true <-> a = b.
Proof. destruct a, b; simpl; split; congruence. Qed.

Lemma EntityType_eqb_neq (a b : EntityType) : EntityType_eqb a b = false <-> a <> b.
Proof. destruct a, b; simpl; split; congruence. Qed.

Lemma RelationshipType_eqb_eq (a b : RelationshipType) :
  RelationshipType_eqb a b = true <-> a = b.
Proof. destruct a, b; simpl; split; congruence. Qed.

Lemma RelationshipType_eqb_neq (a b : RelationshipType) :
  RelationshipType_eqb a b = false <-> a <> b.
Proof. destruct a, b; simpl; split; congruence. Qed.

Lemma existsb_Ident (x : Ident) (l : list Ident) :
  existsb (Ident_eqb x) l = true <-> In x l.
Proof.
  rewrite existsb_exists. split.
  - intros [y [Hy E]]. apply Ident_eqb_eq in E. now subst.
  - intros H. exists x. split; [assumption | apply Ident_eqb_refl].
Qed.

Lemma world_eta (w : World) :
  {| entities := entities w; edges := edges w;
     next_uuid := next_uuid w; fail_in := fail_in w |} = w.
Proof. now destruct w. Qed.

(** ** Weakest preconditions for [M] *)

Lemma wp_ret {A} (a : A) Q w : Q (Ok a) w -> wp (ret a) Q w.
Proof. exact (fun H => H). Qed.

Lemma wp_raise {A} (e : Exc) (Q : Result A -> World -> Prop) w :
  Q (Raise e) w -> wp (raise e) Q w.
Proof. exact (fun H => H). Qed.

Lemma wp_read {A} (q : World -> Result A) Q w : Q (q w) w -> wp (read q) Q w.
Proof. exact (fun H => H). Qed.

Lemma wp_bind {A B} (c : M A) (k : A -> M B) Q w :
  wp c (fun r w' => match r with
                    | Ok a => wp (k a) Q w'
                    | Raise e => Q (Raise e) w'
                    end) w ->
  wp (bind c k) Q w.
Proof.
  unfold wp, bind. destruct (c w) as [[a|e] w']; simpl; auto.
Qed.

Lemma wp_mono {A} (c : M A) (Q Q' : Result A -> World -> Prop) w :
  wp c Q w -> (forall r w', Q r w' -> Q' r w') -> wp c Q' w.
Proof. unfold wp. auto. Qed.

Lemma wp_transaction {A} conn (body : M A) Q w :
  wp body (fun r w' =>
             match r with
             | Ok a => Q (Ok a) w'
             | Raise e =>
                 Q (Raise e)
                   (if rolls_back conn
                    then set_edges (edges w) (set_entities (entities w) w')
                    else w')
             end) w ->
  wp (transaction conn body) Q w.
Proof.
  unfold wp, transaction. destruct (body w) as [[a|e] w']; simpl; auto.
Qed.

Lemma wp_uuid4 Q w :
  Q (Ok (Uuid (next_uuid w)))
    {| entities := entities w; edges := edges w;
       next_uuid := S (next_uuid w); fail_in := fail_in w |} ->
  wp uuid4 Q w.
Proof. exact (fun H => H). Qed.

Lemma wp_driver Q w :
  (forall f, Q (Ok tt) (set_fail_in f w)) ->
  (forall f, Q (Raise DbError) (set_fail_in f w)) ->
  wp driver Q w.
Proof.
  intros Hok Hraise. unfold wp, driver.
  destruct (fail_in w) as [[|n]|] eqn:E; simpl; auto.
  specialize (Hok (fail_in w)). unfold set_fail_in in Hok.
  now rewrite world_eta in Hok.
Qed.

(** ** Effects: relations between the world before and after *)

Section Effects.

Context (R : World -> World -> Prop) `{Stable R}.

Lemma effect_ret {A} (a : A) : effect (ret a) R.
Proof. intros w. apply stable_refl. Qed.

Lemma effect_raise {A} (e : Exc) : effect (@raise A e) R.
Proof. intros w. apply stable_refl. Qed.

Lemma effect_read {A} (q : World -> Result A) : effect (read q) R.
Proof. intros w. apply stable_refl. Qed.

Lemma effect_uuid4 : effect uuid4 R.
Proof. intros w. apply stable_bump. Qed.

Lemma effect_driver : effect driver R.
Proof.
  intros w. unfold driver. destruct (fail_in w) as [[|n]|]; simpl.
  - apply stable_fault.
  - apply stable_fault.
  - apply stable_refl.
Qed.

Lemma effect_bind {A B} (c : M A) (k : A -> M B) :
  effect c R -> (forall a, effect (k a) R) -> effect (bind c k) R.
Proof.
  intros Hc Hk w. unfold bind. specialize (Hc w).
  destruct (c w) as [[a|e] w']; simpl in *.
  - eapply stable_trans; [exact Hc | apply Hk].
  - exact Hc.
Qed.

Lemma effect_transaction {A} conn (body : M A) :
  effect body R -> effect (transaction conn body) R.
Proof.
  intros Hb w. unfold transaction. specialize (Hb w).
  destruct (body w) as [[a|e] w']; simpl in *; [assumption|].
  destruct (rolls_back conn); [now apply stable_restore | assumption].
Qed.

Lemma effect_if {A} (b : bool) (c1 c2 : M A) :
  effect c1 R -> effect c2 R -> effect (if b then c1 else c2) R.
Proof. destruct b; auto. Qed.

Lemma wp_effect {A} (c : M A) (Q : Result A -> World -> Prop) w :
  effect c R -> (forall r w', R w w' -> Q r w') -> wp c Q w.
Proof. intros Hc HQ. apply HQ, Hc. Qed.

End Effects.

Lemma filter_true {A} (l : list A) : filter (fun _ => true) l = l.
Proof. induction l; simpl; congruence. Qed.

Lemma filter_filter {A} (p q : A -> bool) (l : list A) :
  filter p (filter q l) = filter (fun x => q x && p x) l.
Proof.
  induction l as [|x l IH]; simpl; [reflexivity|].
  destruct (q x); simpl; [destruct (p x)|]; simpl; congruence.
Qed.

#[export] Instance keeps_entities_stable : Stable keeps_entities.
Proof.
  split; unfold keeps_entities; simpl; try reflexivity; try congruence.
Qed.

#[export] Instance keeps_edges_stable : Stable keeps_edges.
Proof.
  split; unfold keeps_edges; simpl; try reflexivity; try congruence.
Qed.

#[export] Instance filters_entities_stable : Stable filters_entities.
Proof.
  split; unfold filters_entities; simpl.
  - intros w. exists (fun _ => true). now rewrite filter_true.
  - intros a b c [p Hp] [q Hq]. rewrite Hq, Hp, filter_filter. eauto.
  - intros w f. exists (fun _ => true). now rewrite filter_true.
  - intros w. exists (fun _ => true). now rewrite filter_true.
  - intros w w' _. exists (fun _ => true). now rewrite filter_true.
Qed.

#[export] Instance extends_stable : Stable extends.
Proof.
  split; unfold extends; simpl.
  - intros w. repeat split; try (exists []; now rewrite app_nil_r); lia.
  - intros a b c [[r1 H1] [[e1 H2] H3]] [[r2 H4] [[e2 H5] H6]].
    repeat split.
    + exists (r1 ++ r2). now rewrite H4, H1, app_assoc.
    + exists (e1 ++ e2). now rewrite H5, H2, app_assoc.
    + lia.
  - intros w f. repeat split; try (exists []; now rewrite app_nil_r); lia.
  - intros w. repeat split; try (exists []; now rewrite app_nil_r); lia.
  - intros w w' [_ [_ H3]].
    repeat split; try (exists []; now rewrite app_nil_r); assumption.
Qed.

(** One step through the structure of a computation. *)
Ltac effect_step :=
  match goal with
  | |- effect (bind _ _) _ => apply effect_bind; [exact _ | | intros ?]
  | |- effect (ret _) _ => apply effect_ret; exact _
  | |- effect (raise _) _ => apply effect_raise; exact _
  | |- effect (read _) _ => apply effect_read; exact _
  | |- effect uuid4 _ => apply effect_uuid4; exact _
  | |- effect driver _ => apply effect_driver; exact _
  | |- effect (transaction _ _) _ => apply effect_transaction; [exact _ |]
  | |- effect (if ?b then _ else _) _ => destruct b
  | |- effect (match ?x with _ => _ end) _ => destruct x
  end.

Ltac effect_auto := repeat (effect_step || assumption).

Lemma insert_entity_keeps_edges row : effect (insert_entity row) keeps_edges.
Proof.
  unfold insert_entity. effect_auto.
  intros w. destruct (existsb _ _); reflexivity.
Qed.

Lemma insert_entity_extends row : effect (insert_entity row) extends.
Proof.
  unfold insert_entity. effect_auto.
  intros w. destruct (existsb _ _); simpl.
  - apply stable_refl.
  - repeat split; simpl; eauto. exists []. now rewrite app_nil_r.
Qed.

Lemma insert_edge_keeps_entities row : effect (insert_edge row) keeps_entities.
Proof.
  unfold insert_edge. effect_auto.
  intros w. destruct (existsb _ _); reflexivity.
Qed.

Lemma insert_edge_extends row : effect (insert_edge row) extends.
Proof.
  unfold insert_edge. effect_auto.
  intros w. destruct (existsb _ _); simpl.
  - apply stable_refl.
  - repeat split; simpl; eauto. exists []. now rewrite app_nil_r.
Qed.

Lemma insert_edge_if_not_exists_keeps_entities row :
  effect (insert_edge_if_not_exists row) keeps_entities.
Proof.
  unfold insert_edge_if_not_exists. effect_auto.
  intros w. destruct (existsb _ _); [reflexivity|].
  destruct (existsb _ _); reflexivity.
Qed.

Lemma insert_edge_if_not_exists_extends row :
  effect (insert_edge_if_not_exists row) extends.
Proof.
  unfold insert_edge_if_not_exists. effect_auto.
  intros w. destruct (existsb _ _); [apply stable_refl|].
  destruct (existsb _ _); simpl; [apply stable_refl|].
  repeat split; simpl; eauto. exists []. now rewrite app_nil_r.
Qed.

Lemma delete_edges_keeps_entities p : effect (delete_edges p) keeps_entities.
Proof. unfold delete_edges. effect_auto. intros w. reflexivity. Qed.

Lemma delete_entities_keeps_edges x : effect (delete_entities x) keeps_edges.
Proof. unfold delete_entities. effect_auto. intros w. reflexivity. Qed.

Lemma delete_entities_filters x : effect (delete_entities x) filters_entities.
Proof.
  unfold delete_entities. effect_auto. intros w. simpl. now eexists.
Qed.

Lemma keeps_filters {A} (c : M A) :
  effect c keeps_entities -> effect c filters_entities.
Proof.
  intros H w. exists (fun _ => true). rewrite filter_true. apply H.
Qed.

Lemma create_edge_keeps_entities conn a b t :
  effect (_create_edge conn a b t) keeps_entities.
Proof.
  unfold _create_edge. effect_auto.
  - apply insert_edge_keeps_entities.
  - apply insert_edge_if_not_exists_keeps_entities.
Qed.

Lemma create_edge_extends conn a b t : effect (_create_edge conn a b t) extends.
Proof.
  unfold _create_edge. effect_auto.
  - apply insert_edge_extends.
  - apply insert_edge_if_not_exists_extends.
Qed.

Lemma link_inputs_keeps_entities conn x rows :
  effect (link_inputs conn x rows) keeps_entities.
Proof.
  induction rows as [|r rows IH]; simpl; effect_auto;
    apply create_edge_keeps_entities.
Qed.

Lemma link_inputs_extends conn x rows : effect (link_inputs conn x rows) extends.
Proof.
  induction rows as [|r rows IH]; simpl; effect_auto; apply create_edge_extends.
Qed.

Lemma find_existing_keeps R `{Stable R} qn ty same :
  effect (find_existing qn ty same) R.
Proof. unfold find_existing. effect_auto. Qed.

Lemma select_inputs_keeps R `{Stable R} ids ty : effect (select_inputs ids ty) R.
Proof. unfold select_inputs. effect_auto. Qed.

Lemma delete_all_entity_edges_keeps_entities conn x :
  effect (_delete_all_entity_edges conn x) keeps_entities.
Proof.
  unfold _delete_all_entity_edges. effect_auto;
    apply delete_edges_keeps_entities.
Qed.

Lemma delete_entity_filters conn x : effect (delete_entity conn x) filters_entities.
Proof.
  unfold delete_entity, _delete_entity. effect_auto.
  - apply keeps_filters, delete_all_entity_edges_keeps_entities.
  - apply delete_entities_filters.
Qed.

Lemma delete_empty_filters conn ty ct fuel l :
  effect (delete_empty conn ty ct fuel l) filters_entities.
Proof.
  induction l as [|e l IH]; simpl; unfold delete_if_empty; effect_auto;
    apply delete_entity_filters.
Qed.

Lemma delete_empty_entities_filters conn fuel l :
  effect (delete_empty_entities conn fuel l) filters_entities.
Proof.
  unfold delete_empty_entities. effect_auto; apply delete_empty_filters.
Qed.

Lemma create_extends conn fuel c : effect (create conn fuel c) extends.
Proof.
  destruct c; simpl;
    unfold create_project, create_project_datasource, create_project_anchor,
      create_project_anchor_feature, create_project_derived_feature;
    effect_auto;
    first [ apply find_existing_keeps; exact _
          | apply select_inputs_keeps; exact _
          | apply insert_entity_extends
          | apply create_edge_extends
          | apply link_inputs_extends ].
Qed.

(** ** What the statements guarantee *)

Lemma find_existing_world qn ty same w : snd (find_existing qn ty same w) = w.
Proof.
  unfold find_existing, bind, read, ret, raise. simpl.
  destruct (select_by_qualified_name qn w) as [|r0 [|r1 rest]]; simpl; auto.
  destruct (negb _); simpl; auto.
  destruct (same _) as [[|]|]; simpl; auto.
  destruct (_to_uuid _); reflexivity.
Qed.

Lemma find_existing_None qn ty same w :
  fst (find_existing qn ty same w) = Ok None ->
  select_by_qualified_name qn w = [].
Proof.
  unfold find_existing, bind, read, ret, raise. simpl.
  destruct (select_by_qualified_name qn w) as [|r0 [|r1 rest]]; simpl;
    auto; try discriminate.
  destruct (negb _); simpl; try discriminate.
  destruct (same _) as [[|]|]; simpl; try discriminate.
  destruct (_to_uuid _); discriminate.
Qed.

Lemma wp_find_existing qn ty same (Q : Result (option Ident) -> World -> Prop) w :
  (forall r, fst (find_existing qn ty same w) = r -> Q r w) ->
  wp (find_existing qn ty same) Q w.
Proof.
  intros H. unfold wp. rewrite find_existing_world. now apply H.
Qed.

Lemma existsb_entity_id x (l : list EntityRow) :
  existsb (fun r => Ident_eqb (entity_id r) x) l = false ->
  ~ In x (map entity_id l).
Proof.
  intros E HI. apply in_map_iff in HI. destruct HI as [r [Hr Hin]].
  assert (existsb (fun r => Ident_eqb (entity_id r) x) l = true).
  { apply existsb_exists. exists r. split; [assumption|].
    now apply Ident_eqb_eq. }
  congruence.
Qed.

Lemma wp_insert_entity row (Q : Result unit -> World -> Prop) w :
  (forall f, Q (Raise DbError) (set_fail_in f w)) ->
  (forall f, ~ In (entity_id row) (map entity_id (entities w)) ->
             Q (Ok tt) (set_entities (entities w ++ [row]) (set_fail_in f w))) ->
  wp (insert_entity row) Q w.
Proof.
  intros Hraise Hok. unfold insert_entity. apply wp_bind, wp_driver.
  - intros f. unfold wp. simpl.
    destruct (existsb _ _) eqn:E; simpl.
    + apply Hraise.
    + apply Hok. now apply existsb_entity_id.
  - intros f. apply Hraise.
Qed.

Lemma wp_transaction_closed {A} conn (body : M A) (P : World -> Prop) w :
  (forall w', P w' -> P (restore w w')) ->
  wp body (fun _ w' => P w') w ->
  wp (transaction conn body) (fun _ w' => P w') w.
Proof.
  intros Hclosed Hbody. apply wp_transaction.
  eapply wp_mono; [exact Hbody|]. intros [a|e] w' HP; simpl; [assumption|].
  destruct (rolls_back conn); [apply Hclosed|]; assumption.
Qed.

Lemma effect_both {A} (c : M A) R1 R2 :
  effect c R1 -> effect c R2 -> effect c (both R1 R2).
Proof. intros H1 H2 w. split; auto. Qed.

Lemma footprint_restore conn ty w w' :
  footprint conn ty w w' -> footprint conn ty w (restore w w').
Proof. intros _. now left. Qed.

(** The part of a creation function that follows the lookup of the
    qualified name: draw the identifier, insert the row, then run [tail],
    which writes edges only. *)
Lemma wp_insert_tail {A} conn ty (w0 w : World) (row_id : Ident -> Ident)
    (mk : Ident -> EntityRow) (tail : Ident -> M A) :
  entities w = entities w0 -> next_uuid w = next_uuid w0 ->
  (forall x, entity_id (mk x) = row_id x) ->
  (forall x, entity_type (mk x) = ty) ->
  (forall x, select_by_qualified_name (qualified_name (mk x)) w0 = []) ->
  (row_id (Uuid (next_uuid w0)) = Uuid (next_uuid w0)
   \/ (row_id (Uuid (next_uuid w0)) = builtin_id /\ ty = Anchor
       /\ is_sqlalchemy_supported conn = false)) ->
  (forall x, effect (tail x) keeps_entities) ->
  (forall x, effect (tail x) extends) ->
  wp (x <- uuid4 ;; insert_entity (mk x) ;;; tail x)
     (fun _ w' => footprint conn ty w0 w') w.
Proof.
  intros He Hn Hid Hty Hfresh Hrow Hk Hx.
  apply wp_bind, wp_uuid4. apply wp_bind, wp_insert_entity.
  - intros f. left. exact He.
  - intros f Hnew. simpl in Hnew. rewrite He, Hid, Hn in Hnew.
    eapply wp_effect with (R := both keeps_entities extends).
    + apply effect_both; auto.
    + intros r w' [Hkeep [_ [_ Hnext]]]. right.
      exists (mk (Uuid (next_uuid w))). unfold appended.
      rewrite Hkeep. simpl in *. rewrite He, Hid, Hty, Hn.
      repeat split; auto. lia.
Qed.

Lemma select_inputs_world conn_ids ty w : snd (select_inputs conn_ids ty w) = w.
Proof.
  unfold select_inputs, bind, read, ret, raise.
  destruct conn_ids; simpl; [reflexivity|].
  destruct (negb _); reflexivity.
Qed.

Lemma wp_select_inputs ids ty (Q : Result (list EntityRow) -> World -> Prop) w :
  (forall r, fst (select_inputs ids ty w) = r -> Q r w) ->
  wp (select_inputs ids ty) Q w.
Proof.
  intros H. unfold wp. rewrite select_inputs_world. now apply H.
Qed.

Ltac tail_effects :=
  intros; effect_auto;
  first [ apply create_edge_keeps_entities
        | apply create_edge_extends
        | apply link_inputs_keeps_entities
        | apply link_inputs_extends ].

Lemma create_footprint conn fuel c w :
  footprint conn (created_type c) w (snd (create conn fuel c w)).
Proof.
  change (wp (create conn fuel c)
            (fun _ w' => footprint conn (created_type c) w w') w).
  destruct c as [d|p d|p d|p a d|p d]; simpl;
    unfold create_project, create_project_datasource, create_project_anchor,
      create_project_anchor_feature, create_project_derived_feature.
  - apply wp_transaction_closed; [apply footprint_restore|].
    apply wp_bind, wp_find_existing. intros [[x|]|e] Hr; [now left| |now left].
    apply find_existing_None in Hr.
    eapply (wp_insert_tail conn Project w w (fun x => x)); auto; tail_effects.
  - apply wp_bind, wp_read. destruct (get_entity fuel p w); [|now left].
    apply wp_transaction_closed; [apply footprint_restore|].
    apply wp_bind, wp_find_existing. intros [[x|]|e] Hr; [now left| |now left].
    apply find_existing_None in Hr.
    eapply (wp_insert_tail conn Source w w (fun x => x)); auto; tail_effects.
  - apply wp_bind, wp_read. destruct (get_entity fuel p w); [|now left].
    apply wp_transaction_closed; [apply footprint_restore|].
    apply wp_bind, wp_find_existing. intros [[x|]|e] Hr; [now left| |now left].
    apply find_existing_None in Hr.
    apply wp_bind, wp_read. destruct (filter _ _) as [|r0 rs]; [now left|].
    eapply (wp_insert_tail conn Anchor w w
              (fun x => if is_sqlalchemy_supported conn then x else builtin_id));
      auto; try tail_effects.
    destruct (is_sqlalchemy_supported conn); auto.
  - apply wp_bind, wp_read. destruct (get_entity fuel a w); [|now left].
    apply wp_transaction_closed; [apply footprint_restore|].
    apply wp_bind, wp_find_existing. intros [[x|]|e] Hr; [now left| |now left].
    apply find_existing_None in Hr.
    apply wp_bind, wp_read. destruct (attributes_source_id _); [|now left].
    eapply (wp_insert_tail conn AnchorFeature w w (fun x => x)); auto;
      tail_effects.
  - apply wp_bind, wp_read. destruct (get_entity fuel p w); [|now left].
    apply wp_transaction_closed; [apply footprint_restore|].
    apply wp_bind, wp_find_existing. intros [[x|]|e] Hr; [now left| |now left].
    apply find_existing_None in Hr.
    apply wp_bind, wp_select_inputs. intros [r1|e] _; [|now left].
    apply wp_bind, wp_select_inputs. intros [r2|e] _; [|now left].
    eapply (wp_insert_tail conn DerivedFeature w w (fun x => x)); auto;
      tail_effects.
Qed.

(* ================================================================== *)
(** * C1: qualified names are unique *)
(* ================================================================== *)

Lemma uniqueness_NoDup w :
  uniqueness w <-> NoDup (map qualified_name (entities w)).
Proof.
  unfold uniqueness. rewrite NoDup_nth_error. split.
  - intros H i j Hi E.
    destruct (Nat.eq_dec i j) as [|Hne]; [assumption|exfalso].
    rewrite length_map in Hi. apply nth_error_Some in Hi.
    destruct (nth_error (entities w) i) as [e1|] eqn:E1; [|congruence].
    rewrite !nth_error_map, E1 in E. simpl in E.
    destruct (nth_error (entities w) j) as [e2|] eqn:E2; [|discriminate].
    simpl in E. apply (H i j e1 e2); congruence.
  - intros H i j e1 e2 E1 E2 Hne Hq. apply Hne, H.
    + rewrite length_map. apply nth_error_Some. congruence.
    + rewrite !nth_error_map, E1, E2. simpl. congruence.
Qed.

Lemma select_by_qualified_name_nil qn w :
  select_by_qualified_name qn w = [] ->
  ~ In qn (map qualified_name (entities w)).
Proof.
  unfold select_by_qualified_name. intros E HI.
  apply in_map_iff in HI. destruct HI as [r [Hr Hin]].
  assert (In r (filter (fun r => String.eqb (qualified_name r) qn) (entities w))).
  { apply filter_In. split; [assumption|]. now apply String.eqb_eq. }
  rewrite E in H. contradiction.
Qed.

Lemma NoDup_snoc {A} (l : list A) (x : A) :
  NoDup l -> ~ In x l -> NoDup (l ++ [x]).
Proof.
  intros Hl Hx. apply NoDup_app; [assumption | repeat constructor; auto |].
  intros a Ha [<-|[]]. contradiction.
Qed.

Lemma NoDup_map_filter {K V} (keep : V -> bool) (key : V -> K) (rows : list V) :
  NoDup (map key rows) -> NoDup (map key (filter keep rows)).
Proof.
  induction rows as [|x l IH]; simpl; intros H; [constructor|].
  inversion H as [|? ? Hx Hl]; subst.
  destruct (keep x); simpl; auto. constructor; auto.
  intros HI. apply Hx. apply in_map_iff in HI. destruct HI as [y [Hy Hin]].
  apply filter_In in Hin. apply in_map_iff. exists y. tauto.
Qed.

Lemma footprint_uniqueness conn ty w w' :
  footprint conn ty w w' -> uniqueness w -> uniqueness w'.
Proof.
  rewrite !uniqueness_NoDup.
  intros [E|[row [E [Hfresh _]]]] H; rewrite E; [assumption|].
  rewrite map_app. simpl. apply NoDup_snoc; [assumption|].
  now apply select_by_qualified_name_nil.
Qed.

Lemma filters_uniqueness w w' :
  filters_entities w w' -> uniqueness w -> uniqueness w'.
Proof.
  rewrite !uniqueness_NoDup. intros [p E] H. rewrite E.
  now apply NoDup_map_filter.
Qed.

Lemma create_uniqueness conn fuel c w :
  uniqueness w -> uniqueness (snd (create conn fuel c w)).
Proof. apply footprint_uniqueness with conn (created_type c), create_footprint. Qed.

Lemma call_uniqueness conn c w : uniqueness w -> uniqueness (call conn c w).
Proof.
  destruct c as [fuel c|x|fuel l]; simpl.
  - apply create_uniqueness.
  - apply filters_uniqueness, delete_entity_filters.
  - apply filters_uniqueness, delete_empty_entities_filters.
Qed.

Lemma run_uniqueness conn calls w :
  uniqueness w -> uniqueness (run conn calls w).
Proof.
  revert w. induction calls as [|[c f] calls IH]; simpl; intros w H; auto.
  apply IH, call_uniqueness. exact H.
Qed.

Lemma empty_uniqueness f : uniqueness (set_fail_in f empty_world).
Proof. intros [|i] j e1 e2 E; discriminate. Qed.

Lemma initial_uniqueness conn f : uniqueness (initial conn f).
Proof.
  unfold initial, DbRegistry_init, _init_project.
  destruct (is_sqlalchemy_supported conn); [|apply empty_uniqueness].
  unfold bind.
  pose proof (create_uniqueness conn 0 (CreateProject {| project_name := "global" |})
                _ (empty_uniqueness f)) as H.
  simpl in H. destruct (create_project _ _ _) as [[x|e] w']; exact H.
Qed.

(** C1.  Qualified-name uniqueness holds in the store that the registry
    starts from and after every sequence of calls that write (creations and
    deletions, whatever the driver does), and each of the five creation
    functions preserves it from any store. *)
Theorem qualified_name_uniqueness :
  (forall conn fault calls, uniqueness (history conn fault calls))
  /\ (forall conn fuel c w,
        uniqueness w -> uniqueness (snd (create conn fuel c w))).
Proof.
  split.
  - intros conn fault calls. apply run_uniqueness, initial_uniqueness.
  - intros conn fuel c w. apply create_uniqueness.
Qed.

(* ================================================================== *)
(** * C2: creating the same entity twice *)
(* ================================================================== *)

(** C2.  In raw SQL, [create_project_anchor] stores the anchor under
    [str(id)], the text of Python's builtin, while it returns the
    identifier it drew.  Called a second time with the same definition, it
    finds the row and raises [ValueError] from [_to_uuid] instead of
    returning that identifier.  Under SQLAlchemy the same two calls return
    the same identifier and the second leaves the store as it was. *)
Theorem create_anchor_twice_raw_sql :
  let d := {| anchor_name := "a1"; source_id := Uuid 1 |} in
  let first := create_project_anchor MssqlConnection 2 (Uuid 0) d mssql_sources in
  let second := create_project_anchor MssqlConnection 2 (Uuid 0) d (snd first) in
  fst first = Ok (Uuid 7)
  /\ map entity_id (select_by_qualified_name "p1__a1" (snd first)) = [builtin_id]
  /\ fst second = Raise ValueError
  /\ (let d' := {| anchor_name := "a1"; source_id := Uuid 2 |} in
      let first' := create_project_anchor sqlite 2 (Uuid 1) d' sqlite_sources in
      let second' := create_project_anchor sqlite 2 (Uuid 1) d' (snd first') in
      fst first' = Ok (Uuid 8) /\ second' = (Ok (Uuid 8), snd first')).
Proof. vm_compute. repeat split. Qed.

(* ================================================================== *)
(** * C4: what a failure leaves behind *)
(* ================================================================== *)

(** C4.  When the driver fails on the second write of
    [create_project_datasource] (the first edge), the call raises but the
    entity row it had inserted stays in the store, with none of its edges:
    under SQLAlchemy because the writes do not go through the session that
    the transaction rolls back, in raw SQL because the connection of the
    transaction is in autocommit mode.  In the same way [delete_entity],
    failing on its second write, has already removed the edges of the
    entity in raw SQL. *)
Theorem failed_call_leaves_partial_writes :
  (let w := set_fail_in (Some 1) sqlite_sources in
   let r := create_project_datasource sqlite 2 (Uuid 1) (source_def "s3") w in
   fst r = Raise DbError
   /\ map qualified_name (entities (snd r))
      = map qualified_name (entities w) ++ ["p1__s3"]
   /\ edges (snd r) = edges w)
  /\ (let w := set_fail_in (Some 1) mssql_sources in
      let r := create_project_datasource MssqlConnection 2 (Uuid 0)
                 (source_def "s3") w in
      fst r = Raise DbError
      /\ map qualified_name (entities (snd r))
         = map qualified_name (entities w) ++ ["p1__s3"]
      /\ edges (snd r) = edges w)
  /\ (let w := set_fail_in (Some 1) mssql_sources in
      let r := delete_entity MssqlConnection (Uuid 1) w in
      fst r = Raise DbError
      /\ entities (snd r) = entities w
      /\ List.length (edges w) = 4 /\ List.length (edges (snd r)) = 2).
Proof. vm_compute. repeat split. Qed.

(** With autocommit off, the rollback of the raw SQL transaction restores
    both tables: the connection that [transaction] opens is the one that
    does not get the flag. *)
Lemma transaction_rolls_back {A} conn (body : M A) w e :
  rolls_back conn = true ->
  fst (body w) = Raise e ->
  fst (transaction conn body w) = Raise e
  /\ entities (snd (transaction conn body w)) = entities w
  /\ edges (snd (transaction conn body w)) = edges w.
Proof.
  intros Hr Hb. unfold transaction. destruct (body w) as [[a|e'] w'];
    simpl in *; [discriminate|]. rewrite Hr. simpl. auto.
Qed.

(* ================================================================== *)
(** * C5: creating the same edge twice *)
(* ================================================================== *)

(** C5.  Under SQLAlchemy [_create_edge] is a plain insert: creating the
    same (from, to, type) edge twice in an empty store leaves two rows
    with that triple. *)
Theorem create_edge_twice_orm truth a b t :
  let conn := SQLiteConnection truth in
  let w := snd ((_create_edge conn a b t ;;; _create_edge conn a b t) empty_world) in
  edges w = [ {| edge_id := Uuid 0; from_id := a; to_id := b; conn_type := t |};
              {| edge_id := Uuid 1; from_id := a; to_id := b; conn_type := t |} ].
Proof. reflexivity. Qed.

(** In raw SQL the insert is guarded: an edge that is stored is not
    inserted again. *)
Lemma create_edge_raw_sql_skips a b t w :
  existsb (same_connection {| edge_id := Uuid (next_uuid w); from_id := a;
                              to_id := b; conn_type := t |}) (edges w) = true ->
  edges (snd (_create_edge MssqlConnection a b t w)) = edges w.
Proof.
  intros E.
  change (wp (_create_edge MssqlConnection a b t)
            (fun _ w' => edges w' = edges w) w).
  unfold _create_edge. apply wp_bind, wp_uuid4.
  cbn [is_sqlalchemy_supported MssqlConnection].
  unfold insert_edge_if_not_exists. apply wp_bind, wp_driver; intros f.
  - unfold wp. cbn [set_fail_in edges]. now rewrite E.
  - reflexivity.
Qed.

(* ================================================================== *)
(** * C6: deleting an entity *)
(* ================================================================== *)

(** C6.  Under SQLite, deleting the source s1 ([Uuid 2]) of the scenario
    returns, the entity is gone ([get_entity] raises [KeyError]), but both
    edges between p1 and s1 are still stored: the criterion that
    [_delete_all_entity_edges] sends is [(from_id = x OR to_id) = x], which
    no row satisfies. *)
Theorem delete_entity_orm_keeps_edges :
  let r := delete_entity sqlite (Uuid 2) sqlite_sources in
  fst r = Ok tt
  /\ get_entity 2 (Uuid 2) (snd r) = Raise KeyError
  /\ edges (snd r) = edges sqlite_sources
  /\ filter (sql_edge_criterion (Uuid 2)) (edges (snd r))
     = [ {| edge_id := Uuid 3; from_id := Uuid 1; to_id := Uuid 2;
            conn_type := Contains |};
         {| edge_id := Uuid 4; from_id := Uuid 2; to_id := Uuid 1;
            conn_type := BelongsTo |} ].
Proof. vm_compute. repeat split. Qed.

Lemma filter_none {A} (p : A -> bool) (l : list A) :
  (forall x, In x l -> p x = false) -> filter p l = [].
Proof.
  induction l as [|x l IH]; simpl; intros H; [reflexivity|].
  rewrite (H x) by auto. apply IH. auto.
Qed.

Lemma wp_delete_edges p (Q : Result unit -> World -> Prop) w :
  (forall f, Q (Raise DbError) (set_fail_in f w)) ->
  (forall f, Q (Ok tt)
               (set_edges (filter (fun e => negb (p e)) (edges w))
                          (set_fail_in f w))) ->
  wp (delete_edges p) Q w.
Proof.
  intros Hraise Hok. unfold delete_edges. apply wp_bind, wp_driver; auto.
Qed.

Lemma wp_delete_entities x (Q : Result unit -> World -> Prop) w :
  (forall f, Q (Raise DbError) (set_fail_in f w)) ->
  (forall f, Q (Ok tt)
               (set_entities
                  (filter (fun r => negb (Ident_eqb (entity_id r) x)) (entities w))
                  (set_fail_in f w))) ->
  wp (delete_entities x) Q w.
Proof.
  intros Hraise Hok. unfold delete_entities. apply wp_bind, wp_driver; auto.
Qed.

Lemma select_by_entity_id_deleted x (l : list EntityRow) w :
  entities w = filter (fun r => negb (Ident_eqb (entity_id r) x)) l ->
  select_by_entity_id x w = [].
Proof.
  intros E. unfold select_by_entity_id. rewrite E, filter_filter.
  apply filter_none. intros r _.
  destruct (Ident_eqb (entity_id r) x); reflexivity.
Qed.

(** In raw SQL the criterion is the intended one: when [delete_entity]
    returns, no stored edge has the entity at either end and no row has its
    identifier. *)
Lemma delete_entity_raw_sql x w w' :
  delete_entity MssqlConnection (Uuid x) w = (Ok tt, w') ->
  (forall e, In e (edges w') -> from_id e <> Uuid x /\ to_id e <> Uuid x)
  /\ (forall fuel, get_entity (S fuel) (Uuid x) w' = Raise KeyError).
Proof.
  intros E.
  assert (wp (delete_entity MssqlConnection (Uuid x))
            (fun r w' =>
               r = Ok tt ->
               (forall e, In e (edges w') ->
                          from_id e <> Uuid x /\ to_id e <> Uuid x)
               /\ select_by_entity_id (Uuid x) w' = []) w) as H.
  { unfold delete_entity, _delete_all_entity_edges, _delete_entity.
    cbn [is_sqlalchemy_supported MssqlConnection].
    apply wp_bind, wp_read. cbn [get_entity_id].
    apply wp_transaction, wp_bind, wp_delete_edges; intros f;
      [destruct (rolls_back _); discriminate|].
    apply wp_delete_entities; intros f';
      [destruct (rolls_back _); discriminate|].
    intros _. split.
    - cbn. intros e He. apply filter_In in He. destruct He as [_ He].
      unfold sql_edge_criterion in He. apply negb_true_iff, orb_false_iff in He.
      destruct He as [H1 H2]. apply Ident_eqb_neq in H1, H2. auto.
    - eapply select_by_entity_id_deleted. reflexivity. }
  unfold wp in H. rewrite E in H. destruct (H eq_refl) as [H1 H2].
  split; [exact H1|]. intros fuel. cbn. unfold _get_entity. cbn.
  cbn in H2. now rewrite H2.
Qed.

(* ================================================================== *)
(** * C3: creating under a qualified name that is taken *)
(* ================================================================== *)

(** C3, as stated, fails: the anchor a1 is stored with s1 as its source;
    creating an anchor a1 over s2 in the same project does not raise
    [ConflictError] but returns the identifier of the stored anchor, and
    the store keeps s1 as the source. *)
Lemma create_anchor_other_source_no_conflict :
  let d := {| anchor_name := "a1"; source_id := Uuid 5 |} in
  create_project_anchor sqlite 2 (Uuid 1) d sqlite_anchor
    = (Ok (Uuid 8), sqlite_anchor)
  /\ map attributes (select_by_qualified_name "p1__a1" sqlite_anchor)
     = [AnchorAttributes "a1"
          {| ref_id := Uuid 2; ref_type := Source;
             ref_qualified_name := "p1__s1" |}].
Proof. vm_compute. split; reflexivity. Qed.

Lemma find_existing_conflict qn ty same w r0 :
  select_by_qualified_name qn w = [r0] ->
  entity_type r0 <> ty \/ same (attributes r0) = Ok false ->
  find_existing qn ty same w = (Raise ConflictError, w).
Proof.
  intros E H. unfold find_existing, bind, read, raise. cbn. rewrite E.
  destruct (EntityType_eqb (entity_type r0) ty) eqn:Et; cbn; [|reflexivity].
  destruct H as [H|H].
  - apply EntityType_eqb_eq in Et. contradiction.
  - now rewrite H.
Qed.

Lemma transaction_conflict {A} conn qn ty same (k : option Ident -> M A) w r0 :
  select_by_qualified_name qn w = [r0] ->
  entity_type r0 <> ty \/ same (attributes r0) = Ok false ->
  transaction conn (bind (find_existing qn ty same) k) w
    = (Raise ConflictError, w).
Proof.
  intros E H. unfold transaction, bind.
  rewrite (find_existing_conflict _ _ _ _ _ E H).
  destruct (rolls_back conn); [|reflexivity].
  unfold set_edges, set_entities. cbn. now rewrite world_eta.
Qed.

Lemma bind_read {A B} (q : World -> Result A) (k : A -> M B) w :
  bind (read q) k w
  = match q w with
    | Ok a => k a w
    | Raise e => (Raise e, w)
    end.
Proof. unfold bind, read. destruct (q w); reflexivity. Qed.

(** C3, amended.  When exactly one entity is stored under the computed
    qualified name, and its type is not the type being created or it
    differs from the definition in a field that the creation function
    compares ([compared]), the call raises [ConflictError] and leaves the
    store as it was. *)
Theorem conflicting_creation conn fuel c w qn r0 :
  computed_qualified_name fuel c w = Ok qn ->
  select_by_qualified_name qn w = [r0] ->
  entity_type r0 <> created_type c \/ compared c (attributes r0) = Ok false ->
  create conn fuel c w = (Raise ConflictError, w).
Proof.
  intros Hqn Hsel Hdiff.
  destruct c as [d|p d|p d|p a d|p d];
    cbn [create computed_qualified_name created_type compared] in *;
    unfold create_project, create_project_datasource, create_project_anchor,
      create_project_anchor_feature, create_project_derived_feature.
  - inversion Hqn; subst. now apply transaction_conflict with r0.
  - rewrite bind_read.
    destruct (get_entity fuel p w); [|discriminate]. inversion Hqn; subst.
    now apply transaction_conflict with r0.
  - rewrite bind_read.
    destruct (get_entity fuel p w); [|discriminate]. inversion Hqn; subst.
    now apply transaction_conflict with r0.
  - rewrite bind_read.
    destruct (get_entity fuel a w); [|discriminate]. inversion Hqn; subst.
    now apply transaction_conflict with r0.
  - rewrite bind_read.
    destruct (get_entity fuel p w); [|discriminate]. inversion Hqn; subst.
    now apply transaction_conflict with r0.
Qed.

Lemma conflicting_creation_witness :
  create sqlite 2
    (CreateProjectDatasource (Uuid 1)
       {| source_name := "s1"; source_type := "jdbc"; source_options := "{}";
          source_preprocessing := "null"; source_event_timestamp_column := "ts";
          source_timestamp_format := "epoch" |})
    sqlite_anchor
  = (Raise ConflictError, sqlite_anchor).
Proof.
  apply (conflicting_creation sqlite 2 _ sqlite_anchor "p1__s1"
           {| entity_id := Uuid 2; qualified_name := "p1__s1";
              entity_type := Source;
              attributes := SourceAttributes "s1" "hdfs" "{}" "null" "ts" "epoch" |}).
  - reflexivity.
  - reflexivity.
  - right. reflexivity.
Defined.

(* ================================================================== *)
(** * C8: the reserved project name *)
(* ================================================================== *)

(** C8, as stated, fails: [create_project] has no check of the name.  In
    raw SQL, on an empty store, it creates the project ["global"]; under
    SQLite, where the registry created that project when it started, it
    returns its identifier. *)
Lemma create_project_global_is_accepted :
  create_project MssqlConnection {| project_name := "global" |} empty_world
    = (Ok (Uuid 0),
       {| entities := [ {| entity_id := Uuid 0; qualified_name := "global";
                           entity_type := Project;
                           attributes := ProjectAttributes "global" |} ];
          edges := []; next_uuid := 1; fail_in := None |})
  /\ create_project sqlite {| project_name := "global" |} (initial sqlite None)
     = (Ok (Uuid 0), initial sqlite None).
Proof. vm_compute. split; reflexivity. Qed.

(** C8, amended.  [new_project] of the access-control API refuses a
    project whose name case-folds to the reserved name with [BadRequest],
    before the registry is called: neither the user roles nor the store of
    the registry change. *)
Theorem reserved_project_name conn requestor definition s :
  casefold (project_name definition) = casefold SUPER_ADMIN_SCOPE ->
  new_project conn requestor definition s = (Raise BadRequest, s).
Proof.
  intros E. unfold new_project, init_userrole. rewrite E, String.eqb_refl.
  reflexivity.
Qed.

Lemma reserved_project_name_witness :
  new_project sqlite "alice" {| project_name := "Global" |}
    {| userroles := []; registry := initial sqlite None |}
  = (Raise BadRequest, {| userroles := []; registry := initial sqlite None |}).
Proof. apply reserved_project_name. reflexivity. Defined.

(* ================================================================== *)
(** * Facts about reading *)
(* ================================================================== *)

Lemma rbind_Ok {A B} (r : Result A) (k : A -> Result B) (b : B) :
  rbind r k = Ok b -> exists a, r = Ok a /\ k a = Ok b.
Proof. destruct r as [a|e]; simpl; [eauto | discriminate]. Qed.

Lemma fill_row g row w e : _fill_entity g row w = Ok e -> row_of e = row.
Proof.
  unfold _fill_entity. destruct (entity_type row);
    repeat match goal with
           | |- rbind ?r _ = Ok _ -> _ =>
               let H := fresh in
               intros H; apply rbind_Ok in H; destruct H as [? [_ H]]; revert H
           | |- match ?l with [] => _ | _ :: _ => _ end = Ok _ -> _ =>
               destruct l; [discriminate|]
           end;
    intros H; inversion H; reflexivity.
Qed.

Lemma fill_mono (g g' : Ident -> World -> Result Entity) row w e :
  (forall x e', g x w = Ok e' -> g' x w = Ok e') ->
  _fill_entity g row w = Ok e -> _fill_entity g' row w = Ok e.
Proof.
  intros Hg. unfold _fill_entity. destruct (entity_type row); auto.
  destruct (get_neighbors (entity_id row) Contains w); simpl; auto.
  destruct (get_neighbors (entity_id row) Consumes w) as [[|first rest]|];
    simpl; auto.
  destruct (g (to_id first) w) eqn:E; simpl; [|discriminate].
  now rewrite (Hg _ _ E).
Qed.

Lemma get_entity_fuel_S fuel x w e :
  get_entity fuel x w = Ok e -> get_entity (S fuel) x w = Ok e.
Proof.
  revert x e. induction fuel as [|fuel IH]; intros x e; [discriminate|].
  intros H. change (get_entity (S (S fuel)) x w)
    with (let? row := _get_entity x w in
          _fill_entity (get_entity (S fuel)) row w).
  simpl in H. destruct (_get_entity x w) as [row|]; simpl in *; [|discriminate].
  eapply fill_mono; [|exact H]. intros y e'. apply IH.
Qed.

Lemma get_entity_row fuel x w e :
  get_entity fuel (Uuid x) w = Ok e ->
  In (row_of e) (entities w) /\ id e = Uuid x
  /\ _fill_entity (get_entity fuel) (row_of e) w = Ok e.
Proof.
  destruct fuel as [|fuel]; [discriminate|]. intros H.
  pose proof H as H'. simpl in H. unfold _get_entity in H. simpl in H.
  destruct (select_by_entity_id (Uuid x) w) as [|row rest] eqn:E; [discriminate|].
  simpl in H. pose proof (fill_row _ _ _ _ H) as Hrow. subst row.
  assert (In (row_of e) (select_by_entity_id (Uuid x) w)) as Hin
      by (rewrite E; now left).
  apply filter_In in Hin. destruct Hin as [Hin Hid]. apply Ident_eqb_eq in Hid.
  repeat split; auto.
  eapply fill_mono; [|exact H]. intros y e'. apply get_entity_fuel_S.
Qed.

Lemma map_result_In {A B} (f : A -> Result B) (l : list A) (l' : list B) :
  map_result f l = Ok l' ->
  forall y, In y l' <-> exists x, In x l /\ f x = Ok y.
Proof.
  revert l'. induction l as [|x l IH]; simpl; intros l' H.
  - inversion H. simpl. intros y. split; [tauto | intros [? [[] _]]].
  - destruct (f x) as [y0|] eqn:E; simpl in H; [|discriminate].
    destruct (map_result f l) as [ys|]; simpl in H; [|discriminate].
    inversion H; subst. intros y. simpl. rewrite (IH ys eq_refl y). split.
    + intros [<-|[x' [Hx' Hf]]]; eauto.
    + intros [x' [[<-|Hx'] Hf]]; [left; congruence | right; eauto].
Qed.

Lemma map_result_map {A B C} (f : A -> Result B) (g : B -> C) (h : A -> C)
    (l : list A) (l' : list B) :
  (forall x y, f x = Ok y -> g y = h x) ->
  map_result f l = Ok l' -> map g l' = map h l.
Proof.
  intros Hgh. revert l'. induction l as [|x l IH]; simpl; intros l' H.
  - now inversion H.
  - destruct (f x) as [y0|] eqn:E; simpl in H; [|discriminate].
    destruct (map_result f l) as [ys|]; simpl in H; [|discriminate].
    inversion H; subst. simpl. now rewrite (Hgh _ _ E), (IH ys).
Qed.

Lemma map_result_Ok {A B} (f : A -> Result B) (l : list A) :
  (forall x, In x l -> exists y, f x = Ok y) ->
  exists l', map_result f l = Ok l'.
Proof.
  induction l as [|x l IH]; simpl; intros H; [eauto|].
  destruct (H x) as [y Hy]; [now left|]. rewrite Hy. simpl.
  destruct IH as [ys Hys]; [auto|]. rewrite Hys. simpl. eauto.
Qed.

Lemma NoDup_map_eq {A B} (f : A -> B) (l : list A) (x y : A) :
  NoDup (map f l) -> In x l -> In y l -> f x = f y -> x = y.
Proof.
  induction l as [|z l IH]; simpl; [tauto|].
  intros H Hx Hy E. inversion H as [|? ? Hz Hl]; subst.
  destruct Hx as [<-|Hx], Hy as [<-|Hy]; auto.
  - exfalso. apply Hz. rewrite E. now apply in_map.
  - exfalso. apply Hz. rewrite <- E. now apply in_map.
Qed.

(* ================================================================== *)
(** * C7: the closure computed by the traversal *)
(* ================================================================== *)

Lemma get_dependent_entities_bfs fuel x0 x w entity :
  get_entity_id x0 w = Ok x ->
  get_entity fuel x w = Ok entity ->
  get_dependent_entities fuel x0 w
  = let? r := _bfs fuel x (relation_of (entity_type (row_of entity))) w in
    Ok (filter (fun e => negb (Ident_eqb (id e) x)) (fst r)).
Proof.
  intros Hx He. unfold get_dependent_entities. rewrite Hx. simpl.
  rewrite He. simpl.
  destruct (entity_type (row_of entity)); simpl;
    destruct (_bfs fuel x _ w); reflexivity.
Qed.

Lemma bfs_step_In ids R w e :
  In e (_bfs_step ids R w)
  <-> In e (edges w) /\ conn_type e = R /\ In (from_id e) ids.
Proof.
  unfold _bfs_step. rewrite filter_In, andb_true_iff,
    RelationshipType_eqb_eq, existsb_Ident. tauto.
Qed.

Lemma bfs_step_leads w R x y frontier :
  leads w R x y -> frontier <> [] -> (forall z, In z frontier -> z = x) ->
  _bfs_step frontier R w <> []
  /\ forall e, In e (_bfs_step frontier R w) ->
               In e (edges w) /\ conn_type e = R /\ from_id e = x /\ to_id e = y.
Proof.
  intros [[e0 [Hin [Hc [Hf Ht]]]] Hall] Hne Hfr. split.
  - assert (In e0 (_bfs_step frontier R w)) as H.
    { apply bfs_step_In. repeat split; auto.
      destruct frontier as [|z rest]; [contradiction|].
      rewrite Hf, <- (Hfr z); now left. }
    intros E. rewrite E in H. contradiction.
  - intros e He. apply bfs_step_In in He. destruct He as [He [Hc' Hf']].
    apply Hfr in Hf'. auto.
Qed.

Lemma bfs_step_leaf w R x frontier :
  leaf w R x -> (forall z, In z frontier -> z = x) -> _bfs_step frontier R w = [].
Proof.
  intros Hleaf Hfr. destruct (_bfs_step frontier R w) as [|e rest] eqn:E;
    [reflexivity|exfalso].
  assert (In e (_bfs_step frontier R w)) as H by (rewrite E; now left).
  apply bfs_step_In in H. destruct H as [He [Hc Hf]].
  apply Hfr in Hf. now apply (Hleaf e).
Qed.

Lemma leads_unique w R x y y' : leads w R x y -> leads w R x y' -> y = y'.
Proof.
  intros [[e [Hin [Hc [Hf Ht]]]] _] [_ Hall]. rewrite <- Ht. now apply Hall.
Qed.

Lemma leads_not_leaf w R x y : leads w R x y -> leaf w R x -> False.
Proof.
  intros [[e [Hin [Hc [Hf Ht]]]] _] Hleaf. now apply (Hleaf e).
Qed.

Lemma chain_distinct w R a b c d :
  leads w R a b -> leads w R b c -> leads w R c d -> leaf w R d ->
  a <> b /\ a <> c /\ a <> d /\ b <> c /\ b <> d /\ c <> d.
Proof.
  intros Hab Hbc Hcd Hd.
  assert (c <> d) as Ncd
      by (intros E; subst; eapply leads_not_leaf; [exact Hcd | exact Hd]).
  assert (b <> d) as Nbd
      by (intros E; subst; eapply leads_not_leaf; [exact Hbc | exact Hd]).
  assert (a <> d) as Nad
      by (intros E; subst; eapply leads_not_leaf; [exact Hab | exact Hd]).
  assert (b <> c) as Nbc.
  { intros E; subst. apply Ncd. eapply leads_unique; [exact Hbc | exact Hcd]. }
  assert (a <> c) as Nac.
  { intros E; subst. apply Nbd. eapply leads_unique; [exact Hab | exact Hcd]. }
  assert (a <> b) as Nab.
  { intros E; subst. apply Nbc. eapply leads_unique; [exact Hab | exact Hbc]. }
  auto 10.
Qed.

(** One hop of the loop of [_bfs] along an edge of the chain. *)
Lemma bfs_loop_hop fuel frontier w R x y :
  leads w R x y -> frontier <> [] -> (forall z, In z frontier -> z = x) ->
  let step := _bfs_step frontier R w in
  bfs_loop (S fuel) frontier R w
  = match bfs_loop fuel (map to_id step) R w with
    | Some connections => Some (step ++ connections)
    | None => None
    end
  /\ map to_id step <> []
  /\ (forall z, In z (map to_id step) -> z = y).
Proof.
  intros Hl Hne Hfr step.
  destruct (bfs_step_leads w R x y frontier Hl Hne Hfr) as [Hs Hall].
  split; [|split].
  - destruct frontier; [contradiction | reflexivity].
  - fold step in Hs. destruct step; [contradiction | discriminate].
  - intros z Hz. apply in_map_iff in Hz. destruct Hz as [e [<- He]].
    now apply Hall.
Qed.

Lemma bfs_loop_leaf fuel frontier w R x :
  leaf w R x -> (forall z, In z frontier -> z = x) ->
  bfs_loop (S fuel) frontier R w = Some [].
Proof.
  intros Hl Hfr. destruct frontier as [|z rest]; [reflexivity|].
  cbn [bfs_loop]. rewrite (bfs_step_leaf w R x); auto.
  simpl. now destruct fuel.
Qed.

Lemma chain_connections fuel w R a b c d :
  4 <= fuel ->
  leads w R a b -> leads w R b c -> leads w R c d -> leaf w R d ->
  exists connections,
    bfs_loop fuel [a] R w = Some connections
    /\ forall x, In x (a :: flat_map (fun r => [from_id r; to_id r]) connections)
                 <-> x = a \/ x = b \/ x = c \/ x = d.
Proof.
  intros Hfuel Hab Hbc Hcd Hd.
  destruct fuel as [|[|[|[|fuel]]]]; try lia.
  assert ([a] <> []) as Hne by discriminate.
  assert (forall z, In z [a] -> z = a) as Hfr by (intros z [<-|[]]; reflexivity).
  destruct (bfs_loop_hop (S (S (S fuel))) [a] w R a b Hab Hne Hfr)
    as [E1 [N1 F1]].
  destruct (bfs_loop_hop (S (S fuel)) _ w R b c Hbc N1 F1) as [E2 [N2 F2]].
  destruct (bfs_loop_hop (S fuel) _ w R c d Hcd N2 F2) as [E3 [N3 F3]].
  pose proof (bfs_loop_leaf fuel _ w R d Hd F3) as E4.
  cbv zeta in *.
  destruct (bfs_step_leads w R a b [a] Hab Hne Hfr) as [S1 A1].
  destruct (bfs_step_leads w R b c _ Hbc N1 F1) as [S2 A2].
  destruct (bfs_step_leads w R c d _ Hcd N2 F2) as [S3 A3].
  set (s1 := _bfs_step [a] R w) in *.
  set (s2 := _bfs_step (map to_id s1) R w) in *.
  set (s3 := _bfs_step (map to_id s2) R w) in *.
  rewrite E4 in E3. rewrite E3 in E2. rewrite E2 in E1.
  eexists. split; [exact E1|].
  intros x. simpl. rewrite !flat_map_app, !in_app_iff, !in_flat_map. simpl.
  split.
  - intros [<-|[[e [He Hx]]|[[e [He Hx]]|[[e [He Hx]]|[e [[] _]]]]]]; auto.
    + destruct (A1 e He) as [_ [_ [Hf Ht]]]. intuition congruence.
    + destruct (A2 e He) as [_ [_ [Hf Ht]]]. intuition congruence.
    + destruct (A3 e He) as [_ [_ [Hf Ht]]]. intuition congruence.
  - intros [-> | [-> | [-> | ->]]]; auto.
    + right. left. destruct s1 as [|e ?]; [contradiction|]. exists e.
      destruct (A1 e) as [_ [_ [Hf Ht]]]; [now left|]. simpl. auto.
    + right. right. left. destruct s2 as [|e ?]; [contradiction|]. exists e.
      destruct (A2 e) as [_ [_ [Hf Ht]]]; [now left|]. simpl. auto.
    + right. right. right. left.
      destruct s3 as [|e ?]; [contradiction|]. exists e.
      destruct (A3 e) as [_ [_ [Hf Ht]]]; [now left|]. simpl. auto.
Qed.

Lemma stored_entity_fill fuel w x ex row :
  NoDup (map entity_id (entities w)) ->
  get_entity fuel (Uuid x) w = Ok ex ->
  In row (entities w) -> entity_id row = Uuid x ->
  _fill_entity (get_entity fuel) row w = Ok ex.
Proof.
  intros Hkey Hex Hrow Hid.
  destruct (get_entity_row _ _ _ _ Hex) as [Hin [Hidx Hfill]].
  assert (row = row_of ex) as ->; [|exact Hfill].
  eapply NoDup_map_eq; eauto. unfold id in Hidx. congruence.
Qed.

Lemma dependents_exclude_start fuel x0 x w l :
  get_dependent_entities fuel x0 w = Ok l ->
  get_entity_id x0 w = Ok x ->
  forall e, In e l -> id e <> x.
Proof.
  unfold get_dependent_entities. intros H Hx. rewrite Hx in H. simpl in H.
  repeat (apply rbind_Ok in H; destruct H as [? [_ H]]).
  inversion H; subst. intros e He. apply filter_In in He.
  destruct He as [_ He]. apply negb_true_iff in He. now apply Ident_eqb_neq.
Qed.

(** C7.  When the edges of the relation [R] that [get_dependent_entities]
    follows from the stored entity A form a chain A -> B -> C -> D with no
    other [R]-edge leaving these nodes, and B, C and D are stored, the
    call returns, given fuel for the four steps of the loop, the entities
    B, C and D and no other; and whatever the store, what
    [get_dependent_entities] returns never contains the start entity. *)
Theorem bfs_closure :
  (forall fuel w a b c d ea eb ec ed,
      4 <= fuel ->
      NoDup (map entity_id (entities w)) ->
      get_entity fuel (Uuid a) w = Ok ea ->
      get_entity fuel (Uuid b) w = Ok eb ->
      get_entity fuel (Uuid c) w = Ok ec ->
      get_entity fuel (Uuid d) w = Ok ed ->
      let R := relation_of (entity_type (row_of ea)) in
      leads w R (Uuid a) (Uuid b) ->
      leads w R (Uuid b) (Uuid c) ->
      leads w R (Uuid c) (Uuid d) ->
      leaf w R (Uuid d) ->
      exists l,
        get_dependent_entities fuel (Uuid a) w = Ok l
        /\ Permutation l [eb; ec; ed])
  /\ (forall fuel x0 x w l,
        get_dependent_entities fuel x0 w = Ok l ->
        get_entity_id x0 w = Ok x ->
        ~ In x (map id l)).
Proof.
  split.
  - intros fuel w a b c d ea eb ec ed Hfuel Hkey Ha Hb Hc Hd R Hab Hbc Hcd Hleaf.
    destruct (chain_connections fuel w R _ _ _ _ Hfuel Hab Hbc Hcd Hleaf)
      as [connections [Hloop Hids]].
    destruct (chain_distinct w R _ _ _ _ Hab Hbc Hcd Hleaf)
      as [Nab [Nac [Nad [Nbc [Nbd Ncd]]]]].
    rewrite (get_dependent_entities_bfs fuel (Uuid a) (Uuid a) w ea eq_refl Ha).
    fold R. unfold _bfs. rewrite Hloop.
    set (ids := Uuid a :: flat_map (fun r => [from_id r; to_id r]) connections)
      in *.
    unfold get_entities.
    assert (forall row, In row (_get_entities ids w) ->
              (entity_id row = Uuid a /\ _fill_entity (get_entity fuel) row w = Ok ea)
              \/ (entity_id row = Uuid b /\ _fill_entity (get_entity fuel) row w = Ok eb)
              \/ (entity_id row = Uuid c /\ _fill_entity (get_entity fuel) row w = Ok ec)
              \/ (entity_id row = Uuid d /\ _fill_entity (get_entity fuel) row w = Ok ed))
      as Hrows.
    { intros row Hrow. apply filter_In in Hrow. destruct Hrow as [Hin Hmem].
      apply existsb_Ident, Hids in Hmem.
      destruct Hmem as [E|[E|[E|E]]];
        [left | right; left | right; right; left | right; right; right];
        (split; [exact E | eapply stored_entity_fill; eauto]). }
    destruct (map_result_Ok (fun e => _fill_entity (get_entity fuel) e w)
                (_get_entities ids w)) as [l' Hl'].
    { intros row Hrow. destruct (Hrows row Hrow) as [[_ H]|[[_ H]|[[_ H]|[_ H]]]];
        eauto. }
    rewrite Hl'. simpl. eexists. split; [reflexivity|].
    pose proof (map_result_In _ _ _ Hl') as Hin.
    destruct (get_entity_row _ _ _ _ Ha) as [Ra [Ia Fa]].
    destruct (get_entity_row _ _ _ _ Hb) as [Rb [Ib Fb]].
    destruct (get_entity_row _ _ _ _ Hc) as [Rc [Ic Fc]].
    destruct (get_entity_row _ _ _ _ Hd) as [Rd [Id Fd]].
    assert (forall ex x, In (row_of ex) (entities w) -> id ex = x ->
              In x ids -> In (row_of ex) (_get_entities ids w)) as Hstored.
    { intros ex x Hr Hi Hx. apply filter_In. split; [exact Hr|].
      apply existsb_Ident. unfold id in Hi. now rewrite Hi. }
    apply NoDup_Permutation.
    + apply NoDup_filter. apply (NoDup_map_inv id).
      rewrite (map_result_map _ id entity_id _ _
                 (fun x y H => f_equal entity_id (fill_row _ _ _ _ H)) Hl').
      now apply NoDup_map_filter.
    + repeat constructor; simpl; intuition congruence.
    + intros e. rewrite filter_In, Hin, negb_true_iff, Ident_eqb_neq. simpl.
      split.
      * intros [[row [Hrow Hfill]] Hne].
        destruct (Hrows row Hrow) as [[E H]|[[E H]|[[E H]|[E H]]]];
          rewrite H in Hfill; inversion Hfill; subst; auto.
      * intros [<-|[<-|[<-|[]]]]; (split; [eexists; split; [|eassumption]|]).
        -- apply (Hstored eb (Uuid b)); auto. apply Hids. auto.
        -- congruence.
        -- apply (Hstored ec (Uuid c)); auto. apply Hids. auto.
        -- congruence.
        -- apply (Hstored ed (Uuid d)); auto. apply Hids. auto.
        -- congruence.
  - intros fuel x0 x w l H Hx HI. apply in_map_iff in HI.
    destruct HI as [e [He HI]].
    now apply (dependents_exclude_start _ _ _ _ _ H Hx e).
Qed.

Lemma leadsb_leads w R x y : leadsb w R x y = true -> leads w R x y.
Proof.
  unfold leadsb, leads. rewrite andb_true_iff, existsb_exists, forallb_forall.
  intros [[e [He H]] Hall]. split.
  - exists e. rewrite !andb_true_iff in H. destruct H as [[H1 H2] H3].
    apply RelationshipType_eqb_eq in H1. apply Ident_eqb_eq in H2, H3. auto.
  - intros e' He' Hc Hf. specialize (Hall e' He').
    apply orb_true_iff in Hall. destruct Hall as [Hall|Hall].
    + apply negb_true_iff, andb_false_iff in Hall. destruct Hall as [Hall|Hall].
      * apply RelationshipType_eqb_neq in Hall. contradiction.
      * apply Ident_eqb_neq in Hall. contradiction.
    + now apply Ident_eqb_eq.
Qed.

Lemma leafb_leaf w R x : leafb w R x = true -> leaf w R x.
Proof.
  unfold leafb, leaf. rewrite forallb_forall. intros Hall e He Hc Hf.
  specialize (Hall e He). apply negb_true_iff, andb_false_iff in Hall.
  destruct Hall as [Hall|Hall].
  - apply RelationshipType_eqb_neq in Hall. contradiction.
  - apply Ident_eqb_neq in Hall. contradiction.
Qed.

Lemma bfs_closure_witness :
  exists l,
    get_dependent_entities 4 (Uuid 2) sqlite_chain = Ok l
    /\ Permutation l [ mkEntity d2_row [] [] [d1_row] None;
                       mkEntity d3_row [] [] [d2_row] None;
                       mkEntity d4_row [] [] [d3_row] None ].
Proof.
  apply (proj1 bfs_closure 4 sqlite_chain 2 5 10 15
           (mkEntity d1_row [] [] [] None)).
  - lia.
  - vm_compute. repeat constructor; simpl; intuition discriminate.
  - reflexivity.
  - reflexivity.
  - reflexivity.
  - reflexivity.
  - apply leadsb_leads. reflexivity.
  - apply leadsb_leads. reflexivity.
  - apply leadsb_leads. reflexivity.
  - apply leafb_leaf. reflexivity.
Defined.

(* ================================================================== *)
(** * C10: the cleanup of empty anchors and sources *)
(* ================================================================== *)

Lemma same_tables_shrinks w w' : same_tables w w' -> shrinks w w'.
Proof.
  intros [He Hd]. split; exists (fun _ => true); now rewrite filter_true.
Qed.

#[export] Instance shrinks_stable : Stable shrinks.
Proof.
  split.
  - intros w. now apply same_tables_shrinks.
  - intros a b c [[p Hp] [q Hq]] [[p' Hp'] [q' Hq']]. split.
    + rewrite Hp', Hp, filter_filter. eauto.
    + rewrite Hq', Hq, filter_filter. eauto.
  - intros w f. now apply same_tables_shrinks.
  - intros w. now apply same_tables_shrinks.
  - intros w w' _. now apply same_tables_shrinks.
Qed.





Lemma delete_edges_shrinks p : effect (delete_edges p) shrinks.
Proof.
  unfold delete_edges. effect_auto. intros w. split; simpl.
  - exists (fun _ => true). now rewrite filter_true.
  - eauto.
Qed.

Lemma delete_entities_shrinks x : effect (delete_entities x) shrinks.
Proof.
  unfold delete_entities. effect_auto. intros w. split; simpl.
  - eauto.
  - exists (fun _ => true). now rewrite filter_true.
Qed.

Lemma delete_all_entity_edges_shrinks conn x :
  effect (_delete_all_entity_edges conn x) shrinks.
Proof.
  unfold _delete_all_entity_edges. effect_auto; apply delete_edges_shrinks.
Qed.

Lemma delete_entity_shrinks conn x : effect (delete_entity conn x) shrinks.
Proof.
  unfold delete_entity, _delete_entity. effect_auto.
  - apply delete_all_entity_edges_shrinks.
  - apply delete_entities_shrinks.
Qed.

Lemma delete_if_empty_shrinks conn ty ct fuel e :
  effect (delete_if_empty conn ty ct fuel e) shrinks.
Proof. unfold delete_if_empty. effect_auto. apply delete_entity_shrinks. Qed.

Lemma delete_empty_shrinks conn ty ct fuel l :
  effect (delete_empty conn ty ct fuel l) shrinks.
Proof.
  induction l as [|e l IH]; simpl; effect_auto. apply delete_if_empty_shrinks.
Qed.

(** When [delete_entity] returns, no row has the identifier. *)
Lemma delete_entity_deletes conn x w w' :
  delete_entity conn (Uuid x) w = (Ok tt, w') ->
  select_by_entity_id (Uuid x) w' = [].
Proof.
  intros E.
  assert (wp (delete_entity conn (Uuid x))
            (fun r w' => r = Ok tt -> select_by_entity_id (Uuid x) w' = []) w)
    as H.
  { unfold delete_entity, _delete_entity.
    apply wp_bind, wp_read. cbn [get_entity_id].
    apply wp_transaction, wp_bind.
    eapply wp_effect with (R := keeps_entities);
      [apply delete_all_entity_edges_keeps_entities |].
    intros [[]|e] w1 Hkeep.
    - apply wp_delete_entities; intros f;
        [destruct (rolls_back _); discriminate|].
      intros _. eapply select_by_entity_id_deleted. reflexivity.
    - destruct (rolls_back _); discriminate. }
  unfold wp in H. rewrite E in H. now apply H.
Qed.


Lemma bfs_inv fuel x R w E c :
  _bfs fuel x R w = Ok (E, c) ->
  bfs_loop fuel [x] R w = Some c
  /\ get_entities fuel (x :: flat_map (fun r => [from_id r; to_id r]) c) w = Ok E.
Proof.
  unfold _bfs. destruct (bfs_loop fuel [x] R w) as [c'|]; [|discriminate].
  intros H. apply rbind_Ok in H. destruct H as [E' [HE H]].
  inversion H; subst. auto.
Qed.

Lemma get_entities_rows fuel ids w E :
  get_entities fuel ids w = Ok E -> map row_of E = _get_entities ids w.
Proof.
  unfold get_entities. intros H.
  rewrite (map_result_map _ row_of (fun r => r) _ _
             (fun x y Hf => fill_row _ _ _ _ Hf) H).
  apply map_id.
Qed.



(** The rows that a traversal resolves: those whose identifier is the
    start or an end of an edge it found. *)
Lemma bfs_rows fuel x R w E c :
  _bfs fuel x R w = Ok (E, c) ->
  map row_of E
  = _get_entities (x :: flat_map (fun r => [from_id r; to_id r]) c) w
  /\ bfs_loop fuel [x] R w = Some c.
Proof.
  intros H. apply bfs_inv in H. destruct H as [Hc HE].
  split; [now apply (get_entities_rows fuel) | exact Hc].
Qed.






#[export] Instance keeps_outside_stable S : Stable (keeps_outside S).
Proof. split; unfold keeps_outside; simpl; auto. Qed.

Lemma keeps_entities_outside {A} (c : M A) S :
  effect c keeps_entities -> effect c (keeps_outside S).
Proof. intros H w row Hrow _. now rewrite (H w). Qed.

Lemma delete_entities_keeps_outside y S :
  In y S -> effect (delete_entities y) (keeps_outside S).
Proof.
  intros HS. unfold delete_entities. effect_auto.
  intros w row Hrow Hout. simpl.
  apply filter_In. split; [assumption|]. apply negb_true_iff, Ident_eqb_neq.
  intros E. apply Hout. now rewrite E.
Qed.

Lemma delete_entity_keeps_outside conn x S :
  In (Uuid x) S -> effect (delete_entity conn (Uuid x)) (keeps_outside S).
Proof.
  intros HS w.
  change (wp (delete_entity conn (Uuid x)) (fun _ w' => keeps_outside S w w') w).
  unfold delete_entity, _delete_entity. apply wp_bind, wp_read.
  cbn [get_entity_id].
  eapply wp_effect with (R := keeps_outside S); [|auto].
  effect_auto.
  - apply keeps_entities_outside, delete_all_entity_edges_keeps_entities.
  - now apply delete_entities_keeps_outside.
Qed.

Lemma delete_empty_keeps_outside conn ty ct fuel es S :
  (forall e, In e es -> exists u, id e = Uuid u /\ In (Uuid u) S) ->
  effect (delete_empty conn ty ct fuel es) (keeps_outside S).
Proof.
  induction es as [|e es IH]; intros Hes; simpl.
  - effect_auto.
  - destruct (Hes e) as [u [Hu HS]]; [now left|].
    apply effect_bind; [exact _ | | intros _; apply IH; auto with datatypes].
    unfold delete_if_empty. rewrite Hu. effect_auto.
    now apply delete_entity_keeps_outside.
Qed.



(* ================================================================== *)
(** * C9: lineage *)
(* ================================================================== *)

Lemma consumes_ok_mono w w' x y :
  incl (entities w) (entities w') -> next_uuid w <= next_uuid w' ->
  consumes_ok w x y -> consumes_ok w' x y.
Proof.
  intros He Hn [a [b [Hx [Hy [Hlt [Ha [r [Hr [Hid Hty]]]]]]]]].
  exists a, b. repeat split; auto; [lia|]. exists r. auto.
Qed.

Lemma lineage_inv_mono w w' :
  lineage_inv w -> entities w' = entities w -> edges w' = edges w ->
  next_uuid w <= next_uuid w' -> lineage_inv w'.
Proof.
  intros [Hk Hi Hc Hp] He Hd Hn. split; rewrite ?He, ?Hd; auto.
  - intros r Hr. destruct (Hi r Hr) as [[u [Hu Hlt]]|H]; [left|right; auto].
    exists u. split; [auto|lia].
  - intros e Hin Hct. apply consumes_ok_mono with w; auto.
    rewrite He. apply incl_refl.
Qed.

Lemma lineage_inv_add_edge w w' e :
  lineage_inv w -> entities w' = entities w -> edges w' = edges w ++ [e] ->
  next_uuid w <= next_uuid w' ->
  (conn_type e = Consumes -> consumes_ok w (from_id e) (to_id e)) ->
  (conn_type e = Produces ->
   exists e', In e' (edges w) /\ conn_type e' = Consumes
              /\ from_id e' = to_id e /\ to_id e' = from_id e) ->
  lineage_inv w'.
Proof.
  intros [Hk Hi Hc Hp] He Hd Hn Hce Hpe.
  assert (incl (entities w) (entities w')) as Hincl
      by (rewrite He; apply incl_refl).
  split; rewrite ?He, ?Hd; auto.
  - intros r Hr. destruct (Hi r Hr) as [[u [Hu Hlt]]|H]; [left|right; auto].
    exists u. split; [auto|lia].
  - intros e0 Hin Hct. apply in_app_iff in Hin.
    apply consumes_ok_mono with w; auto.
    destruct Hin as [Hin|[<-|[]]]; auto.
  - intros e0 Hin Hct. apply in_app_iff in Hin.
    destruct Hin as [Hin|[<-|[]]].
    + destruct (Hp e0 Hin Hct) as [e' [Hin' H]]. exists e'.
      split; [apply in_app_iff; auto | exact H].
    + destruct (Hpe Hct) as [e' [Hin' H]]. exists e'.
      split; [apply in_app_iff; auto | exact H].
Qed.

#[export] Instance linking_stable x ys : Stable (linking x ys).
Proof.
  split.
  - intros w. split; [apply stable_refl | split; [apply stable_refl | auto]].
  - intros a b c [K1 [E1 I1]] [K2 [E2 I2]]. split; [|split].
    + now apply stable_trans with b.
    + now apply stable_trans with b.
    + intros Ha Hys. apply I2; [auto|].
      intros y Hy. apply consumes_ok_mono with a; auto.
      * rewrite K1. apply incl_refl.
      * apply E1.
  - intros w f. split; [apply stable_fault | split; [apply stable_fault|]].
    intros Hw _. now apply lineage_inv_mono with w.
  - intros w. split; [apply stable_bump | split; [apply stable_bump|]].
    intros Hw _. apply lineage_inv_mono with w; simpl; auto.
  - intros w w' [K [E I]].
    split; [now apply stable_restore | split; [now apply stable_restore|]].
    intros Hw _. apply lineage_inv_mono with w; simpl; auto. apply E.
Qed.

(** What [_create_edge] leaves: the edge table as it was (and then, if it
    returned, an edge with that triple was stored), or one more edge with
    that triple. *)
Lemma create_edge_cases conn a b t w :
  let r := fst (_create_edge conn a b t w) in
  let w' := snd (_create_edge conn a b t w) in
  entities w' = entities w /\ next_uuid w' = S (next_uuid w)
  /\ ((edges w' = edges w
       /\ (r = Ok tt ->
           exists e, In e (edges w) /\ from_id e = a /\ to_id e = b
                     /\ conn_type e = t))
      \/ (r = Ok tt
          /\ edges w' = edges w ++ [ {| edge_id := Uuid (next_uuid w);
                                        from_id := a; to_id := b;
                                        conn_type := t |} ])).
Proof.
  change (wp (_create_edge conn a b t)
            (fun r w' =>
               entities w' = entities w /\ next_uuid w' = S (next_uuid w)
               /\ ((edges w' = edges w
                    /\ (r = Ok tt ->
                        exists e, In e (edges w) /\ from_id e = a /\ to_id e = b
                                  /\ conn_type e = t))
                   \/ (r = Ok tt
                       /\ edges w' = edges w ++ [ {| edge_id := Uuid (next_uuid w);
                                                     from_id := a; to_id := b;
                                                     conn_type := t |} ]))) w).
  unfold _create_edge. apply wp_bind, wp_uuid4.
  destruct (is_sqlalchemy_supported conn).
  - unfold insert_edge. apply wp_bind, wp_driver; intros f.
    + unfold wp. cbn [set_fail_in edges].
      match goal with |- context [if ?c then _ else _] => destruct c end;
        (split; [reflexivity | split; [reflexivity|]]).
      * left. split; [reflexivity|discriminate].
      * right. split; reflexivity.
    + split; [reflexivity | split; [reflexivity|]].
      left. split; [reflexivity|discriminate].
  - unfold insert_edge_if_not_exists. apply wp_bind, wp_driver; intros f.
    + unfold wp. cbn [set_fail_in edges].
      match goal with |- context [if ?c then _ else _] => destruct c eqn:Ex end.
      * split; [reflexivity | split; [reflexivity|]].
        left. split; [reflexivity|]. intros _.
        apply existsb_exists in Ex. destruct Ex as [e [He Hs]].
        unfold same_connection in Hs. cbn in Hs.
        rewrite !andb_true_iff in Hs. destruct Hs as [[H1 H2] H3].
        apply Ident_eqb_eq in H1, H2. apply RelationshipType_eqb_eq in H3.
        exists e. auto.
      * match goal with |- context [if ?c then _ else _] => destruct c end;
          (split; [reflexivity | split; [reflexivity|]]).
        -- left. split; [reflexivity|discriminate].
        -- right. split; reflexivity.
    + split; [reflexivity | split; [reflexivity|]].
      left. split; [reflexivity|discriminate].
Qed.

Lemma create_edge_neutral conn a b t x ys :
  t = Contains \/ t = BelongsTo ->
  effect (_create_edge conn a b t) (linking x ys).
Proof.
  intros Ht w. destruct (create_edge_cases conn a b t w) as [He [Hn Hd]].
  split; [exact He | split; [apply create_edge_extends|]].
  intros Hw _. destruct Hd as [[Hd _]|[_ Hd]].
  - apply lineage_inv_mono with w; auto. lia.
  - apply (lineage_inv_add_edge w _ _ Hw He Hd); [lia | |];
      cbn; intros E; destruct Ht; congruence.
Qed.

Lemma consume_step conn x y ys w :
  In y ys ->
  linking x ys w (snd (_create_edge conn x y Consumes w))
  /\ (fst (_create_edge conn x y Consumes w) = Ok tt ->
      exists e, In e (edges (snd (_create_edge conn x y Consumes w)))
                /\ from_id e = x /\ to_id e = y /\ conn_type e = Consumes).
Proof.
  intros Hy. destruct (create_edge_cases conn x y Consumes w) as [He [Hn Hd]].
  split.
  - split; [exact He | split; [apply create_edge_extends|]].
    intros Hw Hok. destruct Hd as [[Hd _]|[_ Hd]].
    + apply lineage_inv_mono with w; auto. lia.
    + apply (lineage_inv_add_edge w _ _ Hw He Hd);
        [lia | cbn; intros _; auto | cbn; discriminate].
  - intros Hr. destruct Hd as [[Hd Hex]|[_ Hd]].
    + destruct (Hex Hr) as [e [Hin H]]. exists e. rewrite Hd. auto.
    + eexists. rewrite Hd. split; [apply in_app_iff; right; now left|].
      cbn. auto.
Qed.

Lemma produce_step conn x y ys w :
  (exists e, In e (edges w) /\ from_id e = x /\ to_id e = y
             /\ conn_type e = Consumes) ->
  linking x ys w (snd (_create_edge conn y x Produces w)).
Proof.
  intros [e0 [Hin [Hf [Ht Hc]]]].
  destruct (create_edge_cases conn y x Produces w) as [He [Hn Hd]].
  split; [exact He | split; [apply create_edge_extends|]].
  intros Hw _. destruct Hd as [[Hd _]|[_ Hd]].
  - apply lineage_inv_mono with w; auto. lia.
  - apply (lineage_inv_add_edge w _ _ Hw He Hd);
      [lia | cbn; discriminate | cbn; intros _; exists e0; auto].
Qed.

(** The pair of edges that records that [x] consumes [y], followed by the
    rest of the writes. *)
Lemma link_pair {A} conn x y ys (rest : M A) :
  In y ys -> effect rest (linking x ys) ->
  effect (_create_edge conn x y Consumes ;;;
          _create_edge conn y x Produces ;;; rest) (linking x ys).
Proof.
  intros Hy Hrest w. destruct (consume_step conn x y ys w Hy) as [L1 Hex].
  unfold bind at 1.
  destruct (_create_edge conn x y Consumes w) as [[[]|e1] w1]; simpl in *;
    [|exact L1].
  pose proof (produce_step conn x y ys w1 (Hex eq_refl)) as L2.
  unfold bind.
  destruct (_create_edge conn y x Produces w1) as [[[]|e2] w2]; simpl in *.
  - apply stable_trans with w1; [exact L1|].
    apply stable_trans with w2; [exact L2 | apply Hrest].
  - now apply stable_trans with w1.
Qed.

Lemma link_inputs_linking conn x ys rows :
  incl (map entity_id rows) ys ->
  effect (link_inputs conn x rows) (linking x ys).
Proof.
  induction rows as [|r rows IH]; intros Hys; simpl.
  - apply effect_ret. exact _.
  - apply link_pair.
    + apply Hys. now left.
    + apply IH. intros y Hy. apply Hys. now right.
Qed.

Lemma get_neighbors_In x R w l e :
  get_neighbors x R w = Ok l -> In e l -> In e (edges w) /\ conn_type e = R.
Proof.
  unfold get_neighbors. intros H He. apply rbind_Ok in H.
  destruct H as [x' [_ H]]. inversion H; subst. apply filter_In in He.
  destruct He as [Hin Hb]. apply andb_true_iff in Hb.
  split; [exact Hin|]. now apply RelationshipType_eqb_eq.
Qed.

(** The source of a filled anchor is the end of a Consumes edge. *)
Lemma filled_source g row w e s :
  _fill_entity g row w = Ok e -> source_of e = Some s ->
  exists first, In first (edges w) /\ conn_type first = Consumes
                /\ g (to_id first) w = Ok s.
Proof.
  unfold _fill_entity. destruct (entity_type row);
    try (intros H; repeat (apply rbind_Ok in H; destruct H as [? [_ H]]);
         inversion H; subst; discriminate).
  intros H Hs. apply rbind_Ok in H. destruct H as [conn [_ H]].
  apply rbind_Ok in H. destruct H as [consumed [Hc H]].
  destruct consumed as [|first rest]; [discriminate|].
  apply rbind_Ok in H. destruct H as [s' [Hg H]]. inversion H; subst.
  simpl in Hs. inversion Hs; subst.
  destruct (get_neighbors_In _ _ _ _ first Hc) as [Hin Hct]; [now left|].
  eauto.
Qed.

Lemma anchor_source_stored fuel a w anchor y :
  lineage_inv w ->
  get_entity fuel a w = Ok anchor ->
  attributes_source_id anchor = Ok y ->
  exists r, In r (entities w) /\ entity_id r = y /\ entity_type r <> Anchor.
Proof.
  intros Hw Ha Hy. unfold attributes_source_id in Hy.
  destruct (source_of anchor) as [s|] eqn:Es; [|discriminate].
  inversion Hy; subst. destruct fuel as [|fuel]; [discriminate|].
  simpl in Ha. apply rbind_Ok in Ha. destruct Ha as [row [_ Hfill]].
  destruct (filled_source _ _ _ _ _ Hfill Es) as [first [Hin [Hct Hs]]].
  destruct (inv_consumes w Hw first Hin Hct)
    as [a' [b [_ [Hto [_ [_ [r [Hr [Hid Hty]]]]]]]]].
  rewrite Hto in Hs. destruct (get_entity_row _ _ _ _ Hs) as [_ [Hids _]].
  exists r. rewrite Hids. auto.
Qed.

Lemma select_inputs_rows ids ty w rows :
  fst (select_inputs ids ty w) = Ok rows ->
  forall r, In r rows -> In r (entities w) /\ entity_type r = ty.
Proof.
  unfold select_inputs. destruct ids as [|i ids]; cbn.
  - intros H. inversion H. intros r [].
  - unfold bind, read. cbn. destruct (negb _); cbn; [discriminate|].
    intros H. inversion H; subst. intros r Hr. apply filter_In in Hr.
    destruct Hr as [Hin Hb]. apply andb_true_iff in Hb.
    split; [exact Hin|]. now apply EntityType_eqb_eq.
Qed.

(** The insertion of the new entity and the writes that follow it, from
    a store that satisfies the invariant. *)
Lemma wp_insert_tail_inv {A} w (row_id : Ident -> Ident)
    (mk : Ident -> EntityRow) (tail : Ident -> M A) ys :
  lineage_inv w ->
  (forall x, entity_id (mk x) = row_id x) ->
  (row_id (Uuid (next_uuid w)) = Uuid (next_uuid w)
   \/ (row_id (Uuid (next_uuid w)) = builtin_id
       /\ forall x, entity_type (mk x) = Anchor)) ->
  (forall y, In y ys ->
     exists r, In r (entities w) /\ entity_id r = y /\ entity_type r <> Anchor) ->
  (forall x, effect (tail x) (linking x ys)) ->
  wp (x <- uuid4 ;; insert_entity (mk x) ;;; tail x)
     (fun _ w' => lineage_inv w' /\ next_uuid w <= next_uuid w') w.
Proof.
  intros Hw Hid Hrow Hys Htail.
  apply wp_bind, wp_uuid4. apply wp_bind, wp_insert_entity.
  - intros f. split; [|simpl; lia].
    apply lineage_inv_mono with w; simpl; auto.
  - intros f Hnew. simpl in Hnew. rewrite Hid in Hnew.
    set (x := Uuid (next_uuid w)) in *.
    set (w1 := set_entities _ _).
    assert (lineage_inv w1) as Hw1.
    { destruct Hw as [Hk Hi Hc Hp]. split; simpl.
      - rewrite map_app. simpl. rewrite Hid. now apply NoDup_snoc.
      - intros r Hr. apply in_app_iff in Hr. destruct Hr as [Hr|[<-|[]]].
        + destruct (Hi r Hr) as [[u [Hu Hlt]]|H]; [left|right; auto].
          exists u. split; [auto|lia].
        + rewrite Hid. destruct Hrow as [Hrow|[Hrow Hty]].
          * left. exists (next_uuid w). split; [exact Hrow|lia].
          * right. split; [exact Hrow | apply Hty].
      - intros e He Hct. apply consumes_ok_mono with w; auto.
        + simpl. apply incl_appl, incl_refl.
        + simpl. lia.
      - exact Hp. }
    assert (forall y, In y ys -> consumes_ok w1 x y) as Hok.
    { intros y Hy. destruct (Hys y Hy) as [r [Hr [Hidr Hty]]].
      destruct (inv_id w Hw r Hr) as [[u [Hu Hlt]]|[_ H]]; [|contradiction].
      exists (next_uuid w), u. unfold w1. simpl.
      repeat split; auto; try congruence.
      exists r. split; [apply in_app_iff; auto|]. split; congruence. }
    eapply wp_effect with (R := linking x ys); [apply Htail|].
    intros r w' [_ [[_ [_ Hn]] Hinv]]. split; [now apply Hinv|].
    simpl in Hn. lia.
Qed.

Ltac linking_tail :=
  intros;
  repeat first
    [ apply link_pair; [auto with datatypes|]
    | apply effect_ret; exact _
    | apply create_edge_neutral; auto
    | apply link_inputs_linking; apply incl_refl
    | apply effect_bind; [exact _ | | intros ?] ].

Lemma create_lineage_inv conn fuel c w :
  lineage_inv w -> lineage_inv (snd (create conn fuel c w)).
Proof.
  intros Hw.
  assert (lineage_inv w /\ next_uuid w <= next_uuid w) as Hstay by auto.
  assert (forall w', lineage_inv w' /\ next_uuid w <= next_uuid w' ->
            lineage_inv (restore w w') /\ next_uuid w <= next_uuid (restore w w'))
    as Hclosed.
  { intros w' [_ Hn]. split; [|exact Hn].
    apply lineage_inv_mono with w; auto. }
  cut (wp (create conn fuel c)
         (fun _ w' => lineage_inv w' /\ next_uuid w <= next_uuid w') w);
    [intros H; apply H|].
  destruct c as [d|p d|p d|p a d|p d]; simpl;
    unfold create_project, create_project_datasource, create_project_anchor,
      create_project_anchor_feature, create_project_derived_feature.
  - apply wp_transaction_closed; [exact Hclosed|].
    apply wp_bind, wp_find_existing. intros [[x|]|e] Hr; try exact Hstay.
    eapply (wp_insert_tail_inv w (fun x => x) _ _ []); auto;
      [intros y [] | linking_tail].
  - apply wp_bind, wp_read. destruct (get_entity fuel p w); [|exact Hstay].
    apply wp_transaction_closed; [exact Hclosed|].
    apply wp_bind, wp_find_existing. intros [[x|]|e] Hr; try exact Hstay.
    eapply (wp_insert_tail_inv w (fun x => x) _ _ []); auto;
      [intros y [] | linking_tail].
  - apply wp_bind, wp_read. destruct (get_entity fuel p w); [|exact Hstay].
    apply wp_transaction_closed; [exact Hclosed|].
    apply wp_bind, wp_find_existing. intros [[x|]|e] Hr; try exact Hstay.
    apply wp_bind, wp_read.
    destruct (filter _ _) as [|r0 rs] eqn:Er; [exact Hstay|].
    assert (In r0 (r0 :: rs)) as Hr0 by now left.
    rewrite <- Er in Hr0. apply filter_In in Hr0. destruct Hr0 as [Hin Hb].
    apply andb_true_iff in Hb. destruct Hb as [Hb1 Hb2].
    apply Ident_eqb_eq in Hb1. apply EntityType_eqb_eq in Hb2.
    eapply (wp_insert_tail_inv w
              (fun x => if is_sqlalchemy_supported conn then x else builtin_id)
              _ _ [source_id d]); auto.
    + destruct (is_sqlalchemy_supported conn); auto.
    + intros y [<-|[]]. exists r0. repeat split; auto. congruence.
    + linking_tail.
  - apply wp_bind, wp_read.
    destruct (get_entity fuel a w) as [anchor|] eqn:Ea; [|exact Hstay].
    apply wp_transaction_closed; [exact Hclosed|].
    apply wp_bind, wp_find_existing. intros [[x|]|e] Hr; try exact Hstay.
    apply wp_bind, wp_read.
    destruct (attributes_source_id anchor) as [y|] eqn:Ey; [|exact Hstay].
    eapply (wp_insert_tail_inv w (fun x => x) _ _ [y]); auto.
    + intros y' [<-|[]]. eapply anchor_source_stored; eauto.
    + linking_tail.
  - apply wp_bind, wp_read. destruct (get_entity fuel p w); [|exact Hstay].
    apply wp_transaction_closed; [exact Hclosed|].
    apply wp_bind, wp_find_existing. intros [[x|]|e] Hr; try exact Hstay.
    apply wp_bind, wp_select_inputs. intros [r1|e] H1; [|exact Hstay].
    apply wp_bind, wp_select_inputs. intros [r2|e] H2; [|exact Hstay].
    eapply (wp_insert_tail_inv w (fun x => x) _ _
              (map entity_id (r1 ++ r2))); auto.
    + intros y Hy. apply in_map_iff in Hy. destruct Hy as [r [<- Hr']].
      exists r. apply in_app_iff in Hr'. destruct Hr' as [Hr'|Hr'].
      * destruct (select_inputs_rows _ _ _ _ H1 r Hr') as [Hin Hty].
        repeat split; auto. congruence.
      * destruct (select_inputs_rows _ _ _ _ H2 r Hr') as [Hin Hty].
        repeat split; auto. congruence.
    + linking_tail.
Qed.

Lemma empty_lineage_inv f : lineage_inv (set_fail_in f empty_world).
Proof.
  split; simpl.
  - constructor.
  - intros r [].
  - intros e [].
  - intros e [].
Qed.

Lemma initial_lineage_inv conn f : lineage_inv (initial conn f).
Proof.
  unfold initial, DbRegistry_init, _init_project.
  destruct (is_sqlalchemy_supported conn); [|apply empty_lineage_inv].
  unfold bind.
  pose proof (create_lineage_inv conn 0
                (CreateProject {| project_name := "global" |})
                _ (empty_lineage_inv f)) as H.
  simpl in H. destruct (create_project _ _ _) as [[x|e] w']; exact H.
Qed.

Lemma run_creations_inv conn calls w :
  lineage_inv w -> lineage_inv (run conn (creations calls) w).
Proof.
  revert w. induction calls as [|[[fuel c] f] calls IH]; simpl; intros w H; auto.
  apply IH, create_lineage_inv. now apply lineage_inv_mono with w.
Qed.

Lemma consumes_ends_resolvable w e :
  lineage_inv w -> In e (edges w) -> conn_type e = Consumes ->
  resolvable w (from_id e) /\ resolvable w (to_id e).
Proof.
  intros Hw He Hct.
  destruct (inv_consumes w Hw e He Hct)
    as [a [b [Hf [Ht [_ [_ [r [Hr [Hid Hty]]]]]]]]].
  split; split; eauto.
  intros r' Hr' Hid' Hty'. exfalso. apply Hty.
  rewrite (NoDup_map_eq entity_id (entities w) r r'); auto;
    [apply (inv_key w Hw) | congruence].
Qed.

Lemma produces_ends_resolvable w e :
  lineage_inv w -> In e (edges w) -> conn_type e = Produces ->
  resolvable w (from_id e) /\ resolvable w (to_id e).
Proof.
  intros Hw He Hct.
  destruct (inv_produces w Hw e He Hct) as [e' [He' [Hct' [Hf Ht]]]].
  destruct (consumes_ends_resolvable w e' Hw He' Hct') as [H1 H2].
  rewrite <- Hf, <- Ht. auto.
Qed.

Lemma bfs_loop_edges fuel R w : forall frontier c,
  bfs_loop fuel frontier R w = Some c ->
  forall e, In e c -> In e (edges w) /\ conn_type e = R.
Proof.
  induction fuel as [|fuel IH]; intros [|z frontier] c H e He;
    simpl in H; try discriminate; try (inversion H; subst; destruct He).
  destruct (bfs_loop fuel _ R w) as [r|] eqn:Er; [|discriminate].
  inversion H; subst. apply in_app_iff in He. destruct He as [He|He].
  - apply bfs_step_In in He. tauto.
  - eapply IH; eauto.
Qed.

Lemma bfs_loop_first fuel R w z frontier c :
  bfs_loop fuel (z :: frontier) R w = Some c ->
  incl (_bfs_step (z :: frontier) R w) c.
Proof.
  destruct fuel as [|fuel]; simpl; [discriminate|].
  destruct (bfs_loop fuel _ R w) as [r|]; [|discriminate].
  intros H. inversion H. apply incl_appl, incl_refl.
Qed.

(** Along Consumes the identifiers decrease. *)
Lemma bfs_consumes_terminates w :
  lineage_inv w ->
  forall fuel m frontier,
    m < fuel ->
    (forall z, In z frontier -> exists b, z = Uuid b /\ b <= m) ->
    exists c, bfs_loop fuel frontier Consumes w = Some c.
Proof.
  intros Hw. induction fuel as [|fuel IH]; intros m frontier Hm Hfr; [lia|].
  destruct frontier as [|z0 rest]; [simpl; eauto|].
  cbn [bfs_loop]. set (step := _bfs_step (z0 :: rest) Consumes w).
  assert (forall z, In z (map to_id step) ->
            exists b, z = Uuid b /\ S b <= m) as Hnext.
  { intros z Hz. apply in_map_iff in Hz. destruct Hz as [e [<- He]].
    apply bfs_step_In in He. destruct He as [He [Hct Hf]].
    destruct (inv_consumes w Hw e He Hct) as [a [b [Ha [Hb [Hlt _]]]]].
    destruct (Hfr _ Hf) as [a' [Ha' Hle]]. exists b. split; [exact Hb|].
    assert (a = a') by congruence. lia. }
  destruct m as [|m].
  - destruct (map to_id step) as [|z ?] eqn:E.
    + destruct fuel; simpl; rewrite app_nil_r; eauto.
    + destruct (Hnext z) as [b [_ Hb]]; [now left | lia].
  - destruct (IH m (map to_id step)) as [c Hc]; [lia | |].
    + intros z Hz. destruct (Hnext z Hz) as [b [Hb Hle]]. exists b.
      split; [exact Hb | lia].
    + rewrite Hc. eauto.
Qed.

(** Along Produces they increase, below the identifier supply. *)
Lemma bfs_produces_terminates w :
  lineage_inv w ->
  forall fuel d frontier,
    d < fuel ->
    (forall z, In z frontier -> exists b, z = Uuid b /\ next_uuid w <= b + d) ->
    exists c, bfs_loop fuel frontier Produces w = Some c.
Proof.
  intros Hw. induction fuel as [|fuel IH]; intros d frontier Hd Hfr; [lia|].
  destruct frontier as [|z0 rest]; [simpl; eauto|].
  cbn [bfs_loop]. set (step := _bfs_step (z0 :: rest) Produces w).
  assert (forall z, In z (map to_id step) ->
            exists a, z = Uuid a /\ 1 <= d /\ next_uuid w <= a + (d - 1))
    as Hnext.
  { intros z Hz. apply in_map_iff in Hz. destruct Hz as [e [<- He]].
    apply bfs_step_In in He. destruct He as [He [Hct Hf]].
    destruct (inv_produces w Hw e He Hct) as [e' [He' [Hct' [Hf' Ht']]]].
    destruct (inv_consumes w Hw e' He' Hct') as [a [b [Ha [Hb [Hlt [Hn _]]]]]].
    destruct (Hfr _ Hf) as [b' [Hb' Hle]]. exists a.
    assert (b = b') by congruence. subst b'.
    split; [congruence | lia]. }
  destruct d as [|d].
  - destruct (map to_id step) as [|z ?] eqn:E.
    + destruct fuel; simpl; rewrite app_nil_r; eauto.
    + destruct (Hnext z) as [a [_ [H1 _]]]; [now left | lia].
  - destruct (IH d (map to_id step)) as [c Hc]; [lia | |].
    + intros z Hz. destruct (Hnext z Hz) as [a [Ha [_ Hle]]]. exists a.
      split; [exact Ha | simpl in Hle; lia].
    + rewrite Hc. eauto.
Qed.

Lemma fill_non_anchor g r w u :
  entity_id r = Uuid u -> entity_type r <> Anchor ->
  exists e, _fill_entity g r w = Ok e.
Proof.
  intros Hid Hty. unfold _fill_entity, get_neighbors. rewrite Hid. cbn.
  destruct (entity_type r); eauto. contradiction.
Qed.

Lemma get_entity_stored w r b fuel :
  lineage_inv w -> In r (entities w) -> entity_id r = Uuid b ->
  entity_type r <> Anchor ->
  exists e, get_entity (S fuel) (Uuid b) w = Ok e.
Proof.
  intros Hw Hr Hid Hty. cbn. unfold _get_entity. cbn.
  destruct (select_by_entity_id (Uuid b) w) as [|r' rest] eqn:E.
  - assert (In r (select_by_entity_id (Uuid b) w)) as Hin.
    { apply filter_In. split; [exact Hr|]. now apply Ident_eqb_eq. }
    rewrite E in Hin. contradiction.
  - assert (In r' (select_by_entity_id (Uuid b) w)) as Hin
        by (rewrite E; now left).
    apply filter_In in Hin. destruct Hin as [Hin Hb]. apply Ident_eqb_eq in Hb.
    assert (r = r') as <-.
    { apply (NoDup_map_eq entity_id (entities w)); auto;
        [apply (inv_key w Hw) | congruence]. }
    cbn. now apply fill_non_anchor with b.
Qed.

Lemma fill_resolvable w r fuel :
  lineage_inv w -> In r (entities w) -> resolvable w (entity_id r) ->
  exists e, _fill_entity (get_entity (S fuel)) r w = Ok e.
Proof.
  intros Hw Hr [[u Hu] Hanchor].
  destruct (EntityType_eqb (entity_type r) Anchor) eqn:Ety.
  - apply EntityType_eqb_eq in Ety.
    destruct (Hanchor r Hr eq_refl Ety) as [e0 [He0 [Hf0 Hct0]]].
    unfold _fill_entity, get_neighbors. rewrite Ety, Hu.
    cbn [get_entity_id rbind].
    destruct (filter _ (edges w)) as [|first rest] eqn:E.
    + assert (In e0 (filter (fun e => Ident_eqb (from_id e) (Uuid u)
                                      && RelationshipType_eqb (conn_type e) Consumes)
                            (edges w))) as Hin.
      { apply filter_In. split; [exact He0|]. apply andb_true_iff. split.
        - apply Ident_eqb_eq. congruence.
        - now apply RelationshipType_eqb_eq. }
      rewrite E in Hin. contradiction.
    + assert (In first (first :: rest)) as Hin by now left.
      rewrite <- E in Hin. apply filter_In in Hin. destruct Hin as [Hin Hb].
      apply andb_true_iff in Hb. destruct Hb as [_ Hb].
      apply RelationshipType_eqb_eq in Hb.
      destruct (inv_consumes w Hw first Hin Hb)
        as [a [b [_ [Hto [_ [_ [rb [Hrb [Hidb Htyb]]]]]]]]].
      destruct (get_entity_stored w rb b fuel Hw Hrb Hidb Htyb) as [s Hs].
      rewrite Hto, Hs. cbn [rbind]. eauto.
  - apply EntityType_eqb_neq in Ety. now apply fill_non_anchor with u.
Qed.

Lemma get_entities_resolvable w fuel ids :
  lineage_inv w -> (forall z, In z ids -> resolvable w z) ->
  exists E, get_entities (S fuel) ids w = Ok E.
Proof.
  intros Hw Hids. unfold get_entities. apply map_result_Ok.
  intros r Hr. apply filter_In in Hr. destruct Hr as [Hr Hmem].
  apply existsb_Ident in Hmem. apply fill_resolvable; auto.
Qed.

Lemma lineage_bfs w R y fuel c :
  lineage_inv w -> R = Consumes \/ R = Produces -> resolvable w y ->
  bfs_loop (S fuel) [y] R w = Some c ->
  exists E, _bfs (S fuel) y R w = Ok (E, c).
Proof.
  intros Hw HR Hy Hc. unfold _bfs. rewrite Hc.
  destruct (get_entities_resolvable w fuel
              (y :: flat_map (fun r => [from_id r; to_id r]) c) Hw) as [E HE].
  - intros z [<-|Hz]; [exact Hy|]. apply in_flat_map in Hz.
    destruct Hz as [e [He Hz]].
    destruct (bfs_loop_edges _ _ _ _ _ Hc e He) as [Hin Hct].
    assert (resolvable w (from_id e) /\ resolvable w (to_id e)) as [H1 H2].
    { destruct HR; subst R;
        [now apply consumes_ends_resolvable | now apply produces_ends_resolvable]. }
    destruct Hz as [<-|[<-|[]]]; assumption.
  - rewrite HE. cbn. eauto.
Qed.

(** In a store that satisfies the invariant, [get_lineage] of the end of
    a Produces edge returns, and its upstream part contains the start of
    the edge. *)
Lemma lineage_upstream w e fuel :
  lineage_inv w -> In e (edges w) -> conn_type e = Produces ->
  next_uuid w < fuel ->
  exists up down,
    _bfs fuel (to_id e) Consumes w = Ok up
    /\ _bfs fuel (to_id e) Produces w = Ok down
    /\ get_lineage fuel (to_id e) w
       = Ok (fst up ++ fst down, snd up ++ snd down)
    /\ In (from_id e) (map id (fst up)).
Proof.
  intros Hw He Hct Hfuel.
  destruct (inv_produces w Hw e He Hct) as [e' [He' [Hct' [Hf' Ht']]]].
  destruct (inv_consumes w Hw e' He' Hct')
    as [a [b [Ha [Hb [Hlt [Hn [rb [Hrb [Hidb Htyb]]]]]]]]].
  destruct (consumes_ends_resolvable w e' Hw He' Hct') as [Ry _].
  rewrite Hf' in Ry, Ha. rewrite Ha in *.
  destruct fuel as [|fuel]; [lia|].
  destruct (bfs_consumes_terminates w Hw (S fuel) a [Uuid a]) as [cu Hcu];
    [lia | intros z [<-|[]]; eauto |].
  destruct (bfs_produces_terminates w Hw (S fuel) (next_uuid w) [Uuid a])
    as [cd Hcd]; [lia | intros z [<-|[]]; exists a; split; [auto|lia] |].
  destruct (lineage_bfs w Consumes (Uuid a) fuel cu Hw (or_introl eq_refl) Ry Hcu)
    as [Eu Hu].
  destruct (lineage_bfs w Produces (Uuid a) fuel cd Hw (or_intror eq_refl) Ry Hcd)
    as [Ed Hd].
  exists (Eu, cu), (Ed, cd). split; [exact Hu|]. split; [exact Hd|]. split.
  - unfold get_lineage. cbn [get_entity_id rbind]. rewrite Hu, Hd. reflexivity.
  - cbn [fst]. destruct (bfs_rows _ _ _ _ _ _ Hu) as [Hrows _].
    assert (In rb (map row_of Eu)) as Hin.
    { rewrite Hrows. apply filter_In. split; [exact Hrb|].
      apply existsb_Ident. right. apply in_flat_map. exists e'. split.
      - apply (bfs_loop_first _ _ _ _ _ _ Hcu). apply bfs_step_In.
        repeat split; auto. rewrite Hf'. now left.
      - rewrite Hidb, <- Hb. simpl. auto. }
    apply in_map_iff in Hin. destruct Hin as [x [Hx Hin]].
    apply in_map_iff. exists x. split; [|exact Hin].
    unfold id. rewrite Hx, Hidb, <- Hb. exact Ht'.
Qed.

(** C9.  After the registry was initialised and any sequence of creation
    calls was made (in either execution mode, whatever the driver did),
    every stored Produces edge from X to Y has its inverse Consumes edge
    from Y to X stored, and [get_lineage] of Y returns, given fuel above
    the number of identifiers drawn, a result whose upstream part contains
    X. *)
Theorem lineage_symmetry conn fault calls e :
  let w := history conn fault (creations calls) in
  In e (edges w) -> conn_type e = Produces ->
  (exists e', In e' (edges w) /\ conn_type e' = Consumes
              /\ from_id e' = to_id e /\ to_id e' = from_id e)
  /\ forall fuel, next_uuid w < fuel ->
       exists up down,
         _bfs fuel (to_id e) Consumes w = Ok up
         /\ _bfs fuel (to_id e) Produces w = Ok down
         /\ get_lineage fuel (to_id e) w
            = Ok (fst up ++ fst down, snd up ++ snd down)
         /\ In (from_id e) (map id (fst up)).
Proof.
  intros w He Hct.
  assert (lineage_inv w) as Hw
      by (apply run_creations_inv, initial_lineage_inv).
  split.
  - now apply (inv_produces w Hw).
  - intros fuel Hfuel. now apply lineage_upstream.
Qed.

Lemma lineage_symmetry_witness :
  let w := history sqlite None (creations lineage_calls) in
  exists up down,
    _bfs 11 (Uuid 5) Consumes w = Ok up
    /\ _bfs 11 (Uuid 5) Produces w = Ok down
    /\ get_lineage 11 (Uuid 5) w = Ok (fst up ++ fst down, snd up ++ snd down)
    /\ In (Uuid 2) (map id (fst up)).
Proof.
  apply (proj2 (lineage_symmetry sqlite None lineage_calls
                  {| edge_id := Uuid 9; from_id := Uuid 2; to_id := Uuid 5;
                     conn_type := Produces |}
                  ltac:(vm_compute; do 5 right; left; reflexivity)
                  eq_refl) 11).
  vm_compute. lia.
Defined.

Lemma qualified_name_uniqueness_witness :
  uniqueness
    (snd (create sqlite 2 (CreateProject {| project_name := "p2" |})
            sqlite_sources)).
Proof.
  apply (proj2 qualified_name_uniqueness).
  apply uniqueness_NoDup. vm_compute.
  repeat constructor; simpl; intuition discriminate.
Defined.

(* ================================================================== *)
(** * Failures that are not the driver's *)
(* ================================================================== *)

Lemma raises_only_DbError_ret {A} (a : A) : raises_only_DbError (ret a).
Proof. intros w e H. discriminate. Qed.

Lemma raises_only_DbError_bind {A B} (c : M A) (k : A -> M B) :
  raises_only_DbError c -> (forall a, raises_only_DbError (k a)) ->
  raises_only_DbError (bind c k).
Proof.
  intros Hc Hk w e. unfold bind. specialize (Hc w).
  destruct (c w) as [[a|e'] w']; simpl in *.
  - apply Hk.
  - intros H. inversion H; subst. now apply Hc.
Qed.

Lemma raises_only_DbError_uuid4 : raises_only_DbError uuid4.
Proof. intros w e H. discriminate. Qed.

Lemma raises_only_DbError_driver : raises_only_DbError driver.
Proof.
  intros w e. unfold driver. destruct (fail_in w) as [[|n]|]; simpl;
    intros H; inversion H; reflexivity.
Qed.

Lemma raises_only_DbError_if {A} (b : bool) (a : A) (w1 w2 : World) e :
  fst (if b then (Raise DbError, w1) else (Ok a, w2)) = Raise e -> e = DbError.
Proof. destruct b; simpl; intros H; inversion H; reflexivity. Qed.

Lemma raises_only_DbError_insert_entity row :
  raises_only_DbError (insert_entity row).
Proof.
  unfold insert_entity.
  apply raises_only_DbError_bind; [apply raises_only_DbError_driver|].
  intros _ w e. apply raises_only_DbError_if.
Qed.

Lemma raises_only_DbError_insert_edge row : raises_only_DbError (insert_edge row).
Proof.
  unfold insert_edge.
  apply raises_only_DbError_bind; [apply raises_only_DbError_driver|].
  intros _ w e. apply raises_only_DbError_if.
Qed.

Lemma raises_only_DbError_insert_edge_if_not_exists row :
  raises_only_DbError (insert_edge_if_not_exists row).
Proof.
  unfold insert_edge_if_not_exists.
  apply raises_only_DbError_bind; [apply raises_only_DbError_driver|].
  intros _ w e. destruct (existsb (same_connection row) (edges w));
    [discriminate | apply raises_only_DbError_if].
Qed.

Lemma raises_only_DbError_create_edge conn a b t :
  raises_only_DbError (_create_edge conn a b t).
Proof.
  unfold _create_edge.
  apply raises_only_DbError_bind; [apply raises_only_DbError_uuid4|].
  intros x. destruct (is_sqlalchemy_supported conn);
    [apply raises_only_DbError_insert_edge
    | apply raises_only_DbError_insert_edge_if_not_exists].
Qed.

Lemma raises_only_DbError_link_inputs conn x rows :
  raises_only_DbError (link_inputs conn x rows).
Proof.
  induction rows as [|r rows IH]; simpl.
  - apply raises_only_DbError_ret.
  - repeat (apply raises_only_DbError_bind;
            [apply raises_only_DbError_create_edge | intros _]).
    exact IH.
Qed.

(** The writes of a creation function raise nothing but [DbError]. *)
Ltac only_DbError :=
  repeat first
    [ apply raises_only_DbError_ret
    | apply raises_only_DbError_uuid4
    | apply raises_only_DbError_insert_entity
    | apply raises_only_DbError_create_edge
    | apply raises_only_DbError_link_inputs
    | apply raises_only_DbError_bind; [|intros ?] ].

Lemma wp_raises_only_DbError {A} (c : M A) (w0 w : World) :
  raises_only_DbError c ->
  wp c (fun r w' => forall e, r = Raise e -> e <> DbError -> w' = w0) w.
Proof.
  intros H. unfold wp. intros e Hr Hne. exfalso. apply Hne.
  now apply (H w).
Qed.

Lemma restore_same (w : World) : restore w w = w.
Proof. now destruct w. Qed.

Lemma wp_transaction_unchanged {A} conn (body : M A) w :
  wp body (fun r w' => forall e, r = Raise e -> e <> DbError -> w' = w) w ->
  wp (transaction conn body)
     (fun r w' => forall e, r = Raise e -> e <> DbError -> w' = w) w.
Proof.
  intros Hbody. apply wp_transaction. eapply wp_mono; [exact Hbody|].
  intros [a|e] w' H; simpl; [discriminate|].
  intros e' He Hne. rewrite (H e' He Hne).
  destruct (rolls_back conn); [apply restore_same | reflexivity].
Qed.

Ltac stays := unfold wp; simpl; intros; reflexivity.

Lemma create_failure_unchanged conn fuel c w :
  wp (create conn fuel c)
     (fun r w' => forall e, r = Raise e -> e <> DbError -> w' = w) w.
Proof.
  destruct c as [d|p d|p d|p a d|p d]; simpl;
    unfold create_project, create_project_datasource, create_project_anchor,
      create_project_anchor_feature, create_project_derived_feature.
  - apply wp_transaction_unchanged.
    apply wp_bind, wp_find_existing. intros [[x|]|e] Hr; try stays.
    apply wp_raises_only_DbError. only_DbError.
  - apply wp_bind, wp_read. destruct (get_entity fuel p w); [|stays].
    apply wp_transaction_unchanged.
    apply wp_bind, wp_find_existing. intros [[x|]|e] Hr; try stays.
    apply wp_raises_only_DbError. only_DbError.
  - apply wp_bind, wp_read. destruct (get_entity fuel p w); [|stays].
    apply wp_transaction_unchanged.
    apply wp_bind, wp_find_existing. intros [[x|]|e] Hr; try stays.
    apply wp_bind, wp_read. destruct (filter _ _) as [|r0 rs]; [stays|].
    apply wp_raises_only_DbError. only_DbError.
  - apply wp_bind, wp_read. destruct (get_entity fuel a w); [|stays].
    apply wp_transaction_unchanged.
    apply wp_bind, wp_find_existing. intros [[x|]|e] Hr; try stays.
    apply wp_bind, wp_read. destruct (attributes_source_id _); [|stays].
    apply wp_raises_only_DbError. only_DbError.
  - apply wp_bind, wp_read. destruct (get_entity fuel p w); [|stays].
    apply wp_transaction_unchanged.
    apply wp_bind, wp_find_existing. intros [[x|]|e] Hr; try stays.
    apply wp_bind, wp_select_inputs. intros [r1|e] _; [|stays].
    apply wp_bind, wp_select_inputs. intros [r2|e] _; [|stays].
    apply wp_raises_only_DbError. only_DbError.
Qed.

Lemma create_failure_stays conn fuel c w e w' :
  create conn fuel c w = (Raise e, w') -> e <> DbError -> w' = w.
Proof.
  intros H Hne. pose proof (create_failure_unchanged conn fuel c w) as Hwp.
  unfold wp in Hwp. rewrite H in Hwp. now apply (Hwp e).
Qed.

(** X1.  A creation call that fails with anything but an error of the driver
    (a missing parent, a conflict, a missing input, ...) has written
    nothing: the store, the identifier supply included, is the one it
    started from.  Only a failure of the driver can leave partial
    writes behind. *)
Theorem logical_failure_writes_nothing conn fuel c w e w' :
  create conn fuel c w = (Raise e, w') -> e <> DbError -> w' = w.
Proof. apply create_failure_stays. Qed.

Lemma logical_failure_writes_nothing_witness :
  snd (create sqlite 2
         (CreateProjectAnchor (Uuid 1)
            {| anchor_name := "a2"; source_id := Uuid 99 |})
         sqlite_sources)
  = sqlite_sources.
Proof.
  apply (logical_failure_writes_nothing sqlite 2
           (CreateProjectAnchor (Uuid 1)
              {| anchor_name := "a2"; source_id := Uuid 99 |})
           sqlite_sources ValueError).
  - vm_compute. reflexivity.
  - discriminate.
Defined.

Lemma registry_call_create conn fuel c w r w' status :
  registry_call (create conn fuel c) w = (Raises r, w') ->
  exception_handler r = Some status -> w' = w.
Proof.
  unfold registry_call. intros H Hs.
  destruct (create conn fuel c w) as [[x|e] w1] eqn:E; [discriminate|].
  inversion H; subst.
  apply (create_failure_stays conn fuel c w e w' E).
  intros ->. discriminate.
Qed.

Lemma handler_bind_read {A B} (q : World -> Result A) (k : A -> Handler B) w :
  handler_bind (registry_call (read q)) k w
  = match q w with
    | Ok a => k a w
    | Raise e => (Raises (Registry e), w)
    end.
Proof. unfold handler_bind, registry_call, read. destruct (q w); reflexivity. Qed.

(** X2.  A POST route that answers with the status code of one of the
    registered exception handlers (400, 404 or 409) has written nothing. *)
Theorem post_error_status_writes_nothing conn fuel request w r w' status :
  Api.post conn fuel request w = (Raises r, w') ->
  exception_handler r = Some status ->
  w' = w.
Proof.
  destruct request as [d|p d|p d|p a d|p d]; cbn [Api.post];
    unfold Api.new_project, Api.new_project_datasource, Api.new_project_anchor,
      Api.new_project_anchor_feature, Api.new_project_derived_feature;
    rewrite ?handler_bind_read.
  - apply (registry_call_create conn fuel (CreateProject d)).
  - destruct (get_entity_id p w) as [x|e]; [|intros H; now inversion H].
    apply (registry_call_create conn fuel (CreateProjectDatasource x d)).
  - destruct (get_entity_id p w) as [x|e]; [|intros H; now inversion H].
    apply (registry_call_create conn fuel (CreateProjectAnchor x d)).
  - destruct (get_entity_id p w) as [x|e]; [|intros H; now inversion H].
    rewrite handler_bind_read.
    destruct (get_entity_id a w) as [y|e]; [|intros H; now inversion H].
    apply (registry_call_create conn fuel (CreateProjectAnchorFeature x y d)).
  - destruct (get_entity_id p w) as [x|e]; [|intros H; now inversion H].
    apply (registry_call_create conn fuel (CreateProjectDerivedFeature x d)).
Qed.

Lemma post_error_status_writes_nothing_witness :
  snd (Api.post sqlite 2
         (Api.PostDatasources (Str "nowhere") (source_def "s1"))
         sqlite_sources)
  = sqlite_sources.
Proof.
  apply (post_error_status_writes_nothing sqlite 2
           (Api.PostDatasources (Str "nowhere") (source_def "s1"))
           sqlite_sources (Registry KeyError) _ 404).
  - vm_compute. reflexivity.
  - reflexivity.
Defined.

(* ================================================================== *)
(** * Creating again what is stored *)
(* ================================================================== *)

Lemma find_existing_match qn ty same w r0 u :
  select_by_qualified_name qn w = [r0] ->
  entity_type r0 = ty -> same (attributes r0) = Ok true ->
  entity_id r0 = Uuid u ->
  find_existing qn ty same w = (Ok (Some (Uuid u)), w).
Proof.
  intros E Hty Hsame Hid. unfold find_existing, bind, read, ret. cbn.
  rewrite E. apply EntityType_eqb_eq in Hty. rewrite Hty. cbn.
  rewrite Hsame, Hid. reflexivity.
Qed.

Lemma transaction_match conn qn ty same (k : option Ident -> M Ident) w r0 u :
  select_by_qualified_name qn w = [r0] ->
  entity_type r0 = ty -> same (attributes r0) = Ok true ->
  entity_id r0 = Uuid u ->
  k (Some (Uuid u)) = ret (Uuid u) ->
  transaction conn (bind (find_existing qn ty same) k) w = (Ok (Uuid u), w).
Proof.
  intros E Hty Hsame Hid Hk. unfold transaction, bind.
  rewrite (find_existing_match _ _ _ _ _ _ E Hty Hsame Hid), Hk. reflexivity.
Qed.

(** The path of a creation function that inserts nothing. *)
Lemma create_matching_row conn fuel c w qn r0 u :
  computed_qualified_name fuel c w = Ok qn ->
  select_by_qualified_name qn w = [r0] ->
  entity_type r0 = created_type c ->
  compared c (attributes r0) = Ok true ->
  entity_id r0 = Uuid u ->
  create conn fuel c w = (Ok (Uuid u), w).
Proof.
  intros Hqn Hsel Hty Hsame Hid.
  destruct c as [d|p d|p d|p a d|p d];
    cbn [create computed_qualified_name created_type compared] in *;
    unfold create_project, create_project_datasource, create_project_anchor,
      create_project_anchor_feature, create_project_derived_feature.
  - inversion Hqn; subst. now apply transaction_match with r0.
  - rewrite bind_read.
    destruct (get_entity fuel p w); [|discriminate]. inversion Hqn; subst.
    now apply transaction_match with r0.
  - rewrite bind_read.
    destruct (get_entity fuel p w); [|discriminate]. inversion Hqn; subst.
    now apply transaction_match with r0.
  - rewrite bind_read.
    destruct (get_entity fuel a w); [|discriminate]. inversion Hqn; subst.
    now apply transaction_match with r0.
  - rewrite bind_read.
    destruct (get_entity fuel p w); [|discriminate]. inversion Hqn; subst.
    now apply transaction_match with r0.
Qed.

(** X3.  When one entity is stored under the computed qualified name, with the
    type being created, a UUID as its identifier and attributes equal to
    the definition in the fields that the creation function compares, the
    call returns the stored identifier and leaves the store as it was,
    whatever the other fields of the definition are. *)
Theorem matching_creation_returns_stored conn fuel c w qn r0 u :
  computed_qualified_name fuel c w = Ok qn ->
  select_by_qualified_name qn w = [r0] ->
  entity_type r0 = created_type c ->
  compared c (attributes r0) = Ok true ->
  entity_id r0 = Uuid u ->
  create conn fuel c w = (Ok (Uuid u), w).
Proof. apply create_matching_row. Qed.

Lemma matching_creation_returns_stored_witness :
  create sqlite 2
    (CreateProjectAnchor (Uuid 1) {| anchor_name := "a1"; source_id := Uuid 5 |})
    sqlite_anchor
  = (Ok (Uuid 8), sqlite_anchor).
Proof.
  apply (matching_creation_returns_stored sqlite 2
           (CreateProjectAnchor (Uuid 1)
              {| anchor_name := "a1"; source_id := Uuid 5 |})
           sqlite_anchor "p1__a1"
           {| entity_id := Uuid 8; qualified_name := "p1__a1";
              entity_type := Anchor;
              attributes :=
                AnchorAttributes "a1"
                  {| ref_id := Uuid 2; ref_type := Source;
                     ref_qualified_name := "p1__s1" |} |} 8);
    reflexivity.
Defined.

Lemma returns_only_ret {A} (x : A) : returns_only x (ret x).
Proof. intros w a H. now inversion H. Qed.

Lemma returns_only_bind {A B} (x : B) (c : M A) (k : A -> M B) :
  (forall a, returns_only x (k a)) -> returns_only x (bind c k).
Proof.
  intros Hk w b. unfold bind. destruct (c w) as [[a|e] w']; simpl.
  - apply Hk.
  - discriminate.
Qed.

Ltac returns_it :=
  repeat first [ apply returns_only_ret
               | apply returns_only_bind; intros ? ].

(** The insertion of the new entity and the writes that follow it, when
    they all return. *)
Lemma wp_insert_tail_row (w : World) (mk : Ident -> EntityRow)
    (tail : Ident -> M Ident) :
  (forall x, effect (tail x) keeps_entities) ->
  (forall x, effect (tail x) extends) ->
  (forall x, returns_only x (tail x)) ->
  wp (x <- uuid4 ;; insert_entity (mk x) ;;; tail x)
     (fun r w' =>
        forall x, r = Ok x ->
          x = Uuid (next_uuid w)
          /\ ~ In (entity_id (mk x)) (map entity_id (entities w))
          /\ entities w' = entities w ++ [mk x]
          /\ extends w w') w.
Proof.
  intros Hk Hx Hr. apply wp_bind, wp_uuid4. apply wp_bind, wp_insert_entity.
  - intros f x. discriminate.
  - intros f Hnew. set (x0 := Uuid (next_uuid w)) in *.
    set (w1 := set_entities _ _).
    unfold wp. intros x Hres.
    pose proof (Hr x0 w1 x Hres) as ->.
    split; [reflexivity|]. split; [exact Hnew|]. split.
    + rewrite (Hk x0 w1). reflexivity.
    + apply stable_trans with w1; [|apply Hx].
      unfold w1. repeat split; simpl; eauto.
      exists []. now rewrite app_nil_r.
Qed.

Lemma wp_transaction_returns {A} conn (body : M A) (P : A -> World -> Prop) w :
  wp body (fun r w' => forall x, r = Ok x -> P x w') w ->
  wp (transaction conn body) (fun r w' => forall x, r = Ok x -> P x w') w.
Proof.
  intros H. apply wp_transaction. eapply wp_mono; [exact H|].
  intros [a|e] w' HP; simpl; [exact HP | discriminate].
Qed.

Ltac inserted_row Hsel :=
  eapply wp_mono;
    [ apply wp_insert_tail_row; [tail_effects | tail_effects | intros; returns_it]
    | let r := fresh "r" in
      let w' := fresh "w'" in
      let H := fresh "H" in
      let x := fresh "x" in
      let Hx := fresh "Hx" in
      let Hnew := fresh "Hnew" in
      intros r w' H x Hx; destruct (H x Hx) as [-> [Hnew [He Hext]]];
      right;
      match type of He with _ = _ ++ [?row] => exists row end;
      unfold inserted;
      split; [cbn; try reflexivity
             | split; [exact Hsel
             | split; [exact Hnew
             | split; [exact He
             | split; [reflexivity
             | split; [cbn; rewrite ?String.eqb_refl; reflexivity
             | split; [reflexivity
             | split; [try (now left) | exact Hext]]]]]]]] ].

Lemma find_existing_Some qn ty same w x :
  fst (find_existing qn ty same w) = Ok (Some x) ->
  exists r0, select_by_qualified_name qn w = [r0] /\ entity_type r0 = ty
             /\ same (attributes r0) = Ok true /\ entity_id r0 = x.
Proof.
  unfold find_existing, bind, read, ret, raise. simpl.
  destruct (select_by_qualified_name qn w) as [|r0 [|r1 rest]]; simpl;
    try discriminate.
  destruct (EntityType_eqb (entity_type r0) ty) eqn:Ety; simpl;
    try discriminate.
  destruct (same (attributes r0)) as [[|]|] eqn:Es; simpl; try discriminate.
  destruct (entity_id r0) as [u|t] eqn:Eid; simpl; try discriminate.
  intros H. inversion H; subst. exists r0.
  apply EntityType_eqb_eq in Ety. auto.
Qed.

Ltac stored_row Hr :=
  let r0 := fresh "r0" in
  let Hsel := fresh "Hsel" in
  let Hty := fresh "Hty" in
  let Hsame := fresh "Hsame" in
  let Hid := fresh "Hid" in
  let x0 := fresh "x0" in
  let Hx0 := fresh "Hx0" in
  apply find_existing_Some in Hr;
  destruct Hr as [r0 [Hsel [Hty [Hsame Hid]]]];
  unfold wp; simpl; intros x0 Hx0; inversion Hx0; subst; left;
  split; [reflexivity|]; eexists; exists r0; unfold stored_as;
  split; [cbn;
          try match goal with
              | H : get_entity _ _ _ = Ok _ |- _ => rewrite H
              end; reflexivity
         | auto ].

Lemma create_returned conn fuel c w x w' :
  create conn fuel c w = (Ok x, w') ->
  (w' = w /\ exists qn r0, stored_as fuel c x w qn r0)
  \/ exists row, inserted conn fuel c x w w' row.
Proof.
  intros Hrun.
  cut (wp (create conn fuel c)
         (fun r w' => forall x, r = Ok x ->
            (w' = w /\ exists qn r0, stored_as fuel c x w qn r0)
            \/ exists row, inserted conn fuel c x w w' row) w).
  { unfold wp. rewrite Hrun. intros H. now apply H. }
  clear Hrun.
  destruct c as [d|p d|p d|p a d|p d]; simpl;
    unfold create_project, create_project_datasource, create_project_anchor,
      create_project_anchor_feature, create_project_derived_feature.
  - apply wp_transaction_returns.
    apply wp_bind, wp_find_existing. intros [[y|]|e] Hr;
      [stored_row Hr | | unfold wp; simpl; discriminate].
    apply find_existing_None in Hr. inserted_row Hr.
  - apply wp_bind, wp_read.
    destruct (get_entity fuel p w) as [project|] eqn:Ep;
      [|unfold wp; simpl; discriminate].
    apply wp_transaction_returns.
    apply wp_bind, wp_find_existing. intros [[y|]|e] Hr;
      [stored_row Hr | | unfold wp; simpl; discriminate].
    apply find_existing_None in Hr. inserted_row Hr.
    now rewrite Ep.
  - apply wp_bind, wp_read.
    destruct (get_entity fuel p w) as [project|] eqn:Ep;
      [|unfold wp; simpl; discriminate].
    apply wp_transaction_returns.
    apply wp_bind, wp_find_existing. intros [[y|]|e] Hr;
      [stored_row Hr | | unfold wp; simpl; discriminate].
    apply find_existing_None in Hr.
    apply wp_bind, wp_read. destruct (filter _ _) as [|r0 rs];
      [unfold wp; simpl; discriminate|].
    inserted_row Hr.
    + now rewrite Ep.
    + cbn. destruct (is_sqlalchemy_supported conn); auto.
  - apply wp_bind, wp_read.
    destruct (get_entity fuel a w) as [anchor|] eqn:Ea;
      [|unfold wp; simpl; discriminate].
    apply wp_transaction_returns.
    apply wp_bind, wp_find_existing. intros [[y|]|e] Hr;
      [stored_row Hr | | unfold wp; simpl; discriminate].
    apply find_existing_None in Hr.
    apply wp_bind, wp_read. destruct (attributes_source_id _);
      [|unfold wp; simpl; discriminate].
    inserted_row Hr.
    now rewrite Ea.
  - apply wp_bind, wp_read.
    destruct (get_entity fuel p w) as [project|] eqn:Ep;
      [|unfold wp; simpl; discriminate].
    apply wp_transaction_returns.
    apply wp_bind, wp_find_existing. intros [[y|]|e] Hr;
      [stored_row Hr | | unfold wp; simpl; discriminate].
    apply find_existing_None in Hr.
    apply wp_bind, wp_select_inputs. intros [r1|e] _;
      [|unfold wp; simpl; discriminate].
    apply wp_bind, wp_select_inputs. intros [r2|e] _;
      [|unfold wp; simpl; discriminate].
    inserted_row Hr.
    now rewrite Ep.
Qed.

(** ** Reading from a store that was extended *)

Lemma filter_head_app {A} (p : A -> bool) (l l' : list A) (r : A) (rest : list A) :
  filter p l = r :: rest -> filter p (l ++ l') = r :: rest ++ filter p l'.
Proof. intros H. now rewrite filter_app, H. Qed.

Lemma get_entity_id_extends w w1 x y :
  extends w w1 -> get_entity_id x w = Ok y -> get_entity_id x w1 = Ok y.
Proof.
  intros [[rows Hrows] _]. destruct x as [u|s]; simpl; [auto|].
  unfold select_by_qualified_name. rewrite Hrows.
  destruct (filter _ (entities w)) as [|r rest] eqn:E; [discriminate|].
  intros H. now rewrite (filter_head_app _ _ _ _ _ E).
Qed.

Lemma _get_entity_extends w w1 x row :
  extends w w1 -> _get_entity x w = Ok row -> _get_entity x w1 = Ok row.
Proof.
  intros Hext H. unfold _get_entity in *. apply rbind_Ok in H.
  destruct H as [y [Hy H]]. rewrite (get_entity_id_extends _ _ _ _ Hext Hy).
  simpl. destruct Hext as [[rows Hrows] _].
  unfold select_by_entity_id in *. rewrite Hrows.
  destruct (filter _ (entities w)) as [|r rest] eqn:E; [discriminate|].
  now rewrite (filter_head_app _ _ _ _ _ E).
Qed.

Lemma get_neighbors_extends w w1 x R l :
  extends w w1 -> get_neighbors x R w = Ok l ->
  exists l', get_neighbors x R w1 = Ok (l ++ l').
Proof.
  intros Hext H. unfold get_neighbors in *. apply rbind_Ok in H.
  destruct H as [y [Hy H]]. rewrite (get_entity_id_extends _ _ _ _ Hext Hy).
  simpl. destruct Hext as [_ [[es Hes] _]]. rewrite Hes, filter_app.
  inversion H; subst. eauto.
Qed.

Lemma fill_extends (g g1 : Ident -> World -> Result Entity) row w w1 e :
  extends w w1 ->
  (forall y e', g y w = Ok e' -> exists e1, g1 y w1 = Ok e1) ->
  _fill_entity g row w = Ok e ->
  exists e1, _fill_entity g1 row w1 = Ok e1.
Proof.
  intros Hext Hg. unfold _fill_entity. destruct (entity_type row); eauto.
  - intros H. apply rbind_Ok in H. destruct H as [l [Hl _]].
    destruct (get_neighbors_extends _ _ _ _ _ Hext Hl) as [l' ->]. simpl. eauto.
  - intros H. apply rbind_Ok in H. destruct H as [l [Hl H]].
    destruct (get_neighbors_extends _ _ _ _ _ Hext Hl) as [l' ->]. simpl.
    apply rbind_Ok in H. destruct H as [consumed [Hc H]].
    destruct (get_neighbors_extends _ _ _ _ _ Hext Hc) as [c' ->]. simpl.
    destruct consumed as [|first rest]; [discriminate|]. simpl.
    apply rbind_Ok in H. destruct H as [s [Hs _]].
    destruct (Hg _ _ Hs) as [s1 ->]. simpl. eauto.
  - intros H. apply rbind_Ok in H. destruct H as [l [Hl _]].
    destruct (get_neighbors_extends _ _ _ _ _ Hext Hl) as [l' ->]. simpl. eauto.
Qed.

(** An entity that [get_entity] returned is returned, with the same row,
    after rows and edges were appended to the tables. *)
Lemma get_entity_extends w w1 fuel :
  extends w w1 ->
  forall x e, get_entity fuel x w = Ok e ->
              exists e1, get_entity fuel x w1 = Ok e1 /\ row_of e1 = row_of e.
Proof.
  intros Hext. induction fuel as [|fuel IH]; intros x e H; [discriminate|].
  simpl in H. apply rbind_Ok in H. destruct H as [row [Hrow Hfill]].
  simpl. rewrite (_get_entity_extends _ _ _ _ Hext Hrow). simpl.
  destruct (fill_extends (get_entity fuel) (get_entity fuel) row w w1 e Hext)
    as [e1 He1]; [|exact Hfill|].
  - intros y e' Hy. destruct (IH y e' Hy) as [e1 [He1 _]]. eauto.
  - exists e1. split; [exact He1|].
    now rewrite (fill_row _ _ _ _ He1), (fill_row _ _ _ _ Hfill).
Qed.

Lemma computed_qualified_name_extends w w1 fuel c qn :
  extends w w1 ->
  computed_qualified_name fuel c w = Ok qn ->
  computed_qualified_name fuel c w1 = Ok qn.
Proof.
  intros Hext. destruct c as [d|p d|p d|p a d|p d]; simpl; auto;
    intros H; apply rbind_Ok in H; destruct H as [e [He H]];
    destruct (get_entity_extends _ _ _ Hext _ _ He) as [e1 [-> Hrow]];
    simpl; now rewrite Hrow.
Qed.

(** X4.  Under SQLAlchemy, and in raw SQL for every entity but an anchor, a
    creation call that returned returns the same identifier when it is
    made again, and the second call leaves the store as the first one
    left it: no new row, no new edge, no identifier drawn. *)
Theorem creation_twice conn fuel c w x w1 :
  create conn fuel c w = (Ok x, w1) ->
  is_sqlalchemy_supported conn = true \/ created_type c <> Anchor ->
  create conn fuel c w1 = (Ok x, w1).
Proof.
  intros Hrun Hmode.
  destruct (create_returned _ _ _ _ _ _ Hrun)
    as [[-> _]|[row [Hqn [Hsel [_ [He [Hty [Hsame [Hx [Hid Hext]]]]]]]]]];
    [exact Hrun|].
  assert (entity_id row = x) as Hrow.
  { destruct Hid as [Hid|[_ [Ha Hraw]]]; [exact Hid|].
    destruct Hmode; congruence. }
  rewrite Hx in *.
  apply create_matching_row with (qualified_name row) row; auto.
  - now apply computed_qualified_name_extends with w.
  - unfold select_by_qualified_name in *. rewrite He, filter_app, Hsel.
    simpl. now rewrite String.eqb_refl.
Qed.

Lemma creation_twice_witness :
  let c := CreateProjectDatasource (Uuid 0) (source_def "s3") in
  let first := create MssqlConnection 2 c mssql_sources in
  create MssqlConnection 2 c (snd first) = (Ok (Uuid 7), snd first).
Proof.
  apply (creation_twice MssqlConnection 2
           (CreateProjectDatasource (Uuid 0) (source_def "s3"))
           mssql_sources (Uuid 7)).
  - vm_compute. reflexivity.
  - right. discriminate.
Defined.

(* ================================================================== *)
(** * Looking up what was created; the list of projects *)
(* ================================================================== *)

Lemma filter_key_singleton {A B} (eqb : B -> B -> bool) (key : A -> B)
    (rows : list A) (r : A) :
  (forall a b, eqb a b = true <-> a = b) ->
  NoDup (map key rows) -> In r rows ->
  filter (fun y => eqb (key y) (key r)) rows = [r].
Proof.
  intros Heqb. induction rows as [|a rows IH]; simpl; intros Hnd Hin; [easy|].
  inversion Hnd as [|? ? Ha Hrows]; subst. destruct Hin as [->|Hin].
  - rewrite (proj2 (Heqb _ _) eq_refl). f_equal. apply filter_none.
    intros y Hy. destruct (eqb (key y) (key r)) eqn:E; [|reflexivity].
    apply Heqb in E. exfalso. apply Ha. rewrite <- E. now apply in_map.
  - destruct (eqb (key a) (key r)) eqn:E; [|auto].
    apply Heqb in E. exfalso. apply Ha. rewrite E. now apply in_map.
Qed.

Lemma select_by_entity_id_key w r :
  NoDup (map entity_id (entities w)) -> In r (entities w) ->
  select_by_entity_id (entity_id r) w = [r].
Proof. apply filter_key_singleton, Ident_eqb_eq. Qed.

Lemma select_by_qualified_name_key w r :
  uniqueness w -> In r (entities w) ->
  select_by_qualified_name (qualified_name r) w = [r].
Proof.
  intros H. apply uniqueness_NoDup in H. revert H.
  apply filter_key_singleton, String.eqb_eq.
Qed.

Lemma selected_row qn w r rest :
  select_by_qualified_name qn w = r :: rest ->
  In r (entities w) /\ qualified_name r = qn.
Proof.
  intros E. assert (In r (select_by_qualified_name qn w)) as H
      by (rewrite E; now left).
  apply filter_In in H. destruct H as [H1 H2]. now apply String.eqb_eq in H2.
Qed.

(** The row that a creation call that returned leaves under the qualified
    name it computed. *)
Lemma create_stored_row conn fuel c w x w' qn :
  create conn fuel c w = (Ok x, w') ->
  computed_qualified_name fuel c w = Ok qn ->
  is_sqlalchemy_supported conn = true \/ created_type c <> Anchor ->
  exists row,
    select_by_qualified_name qn w' = [row]
    /\ entity_type row = created_type c
    /\ entity_id row = x
    /\ (NoDup (map entity_id (entities w)) -> select_by_entity_id x w' = [row]).
Proof.
  intros Hrun Hqn Hmode.
  destruct (create_returned _ _ _ _ _ _ Hrun)
    as [[-> [qn0 [r0 [Hqn0 [Hsel [Hty [_ Hid]]]]]]]
       |[row [Hqn0 [Hsel [Hnew [He [Hty [_ [Hx Hid]]]]]]]]].
  - assert (qn0 = qn) as -> by congruence.
    exists r0. repeat split; auto. intros Hkey. rewrite <- Hid.
    apply select_by_entity_id_key; [exact Hkey|].
    now apply (selected_row qn w r0 []).
  - assert (qualified_name row = qn) as Hname by congruence.
    assert (entity_id row = x) as Hrow.
    { destruct Hid as [[Hid|[_ [Ha Hraw]]] _]; [exact Hid|].
      destruct Hmode; congruence. }
    exists row. rewrite Hname in Hsel. split; [|split; [|split]]; auto.
    + unfold select_by_qualified_name in *. rewrite He, filter_app, Hsel.
      simpl. now rewrite <- Hname, String.eqb_refl.
    + intros _. unfold select_by_entity_id. rewrite He, filter_app.
      rewrite filter_none.
      * simpl. now rewrite Hrow, Ident_eqb_refl.
      * intros r Hr. apply Ident_eqb_neq. intros E. apply Hnew.
        rewrite Hrow, <- E. now apply in_map.
Qed.

Lemma get_projects_In w name :
  In name (get_projects w)
  <-> exists r, In r (entities w) /\ entity_type r = Project
                /\ qualified_name r = name.
Proof.
  unfold get_projects. rewrite in_map_iff. split.
  - intros [r [Hname Hr]]. apply filter_In in Hr. destruct Hr as [Hin Hty].
    apply EntityType_eqb_eq in Hty. eauto.
  - intros [r [Hin [Hty Hname]]]. exists r. split; [exact Hname|].
    apply filter_In. split; [exact Hin|]. now apply EntityType_eqb_eq.
Qed.

(** X5.  After a creation call that returned [x] (under SQLAlchemy, or for
    anything but an anchor in raw SQL), one row is stored under the
    qualified name that the call computed, with the identifier [x] and
    the type that was created, and a project is listed by [get_projects].
    When the qualified name is not the text of a UUID, [get_entity_id]
    resolves it to [x] and [_get_entity] reads that row back; when it is
    the text of a UUID, [get_entity_id] returns that UUID without looking
    the name up. *)
Theorem creation_round_trip uuid_of_text conn fuel c w x w' qn :
  create conn fuel c w = (Ok x, w') ->
  computed_qualified_name fuel c w = Ok qn ->
  is_sqlalchemy_supported conn = true \/ created_type c <> Anchor ->
  NoDup (map entity_id (entities w)) ->
  exists row,
    select_by_qualified_name qn w' = [row]
    /\ entity_id row = x /\ entity_type row = created_type c
    /\ (created_type c = Project -> In qn (get_projects w'))
    /\ (uuid_of_text qn = None ->
        get_entity_id (of_text uuid_of_text qn) w' = Ok x
        /\ _get_entity (of_text uuid_of_text qn) w' = Ok row)
    /\ (forall u, uuid_of_text qn = Some u ->
          get_entity_id (of_text uuid_of_text qn) w' = Ok (Uuid u)).
Proof.
  intros Hrun Hqn Hmode Hkey.
  destruct (create_stored_row _ _ _ _ _ _ _ Hrun Hqn Hmode)
    as [row [Hsel [Hty [Hid Hone]]]].
  specialize (Hone Hkey). exists row.
  split; [exact Hsel|]. split; [exact Hid|]. split; [exact Hty|].
  split; [|split].
  - intros Hp. apply get_projects_In. exists row.
    destruct (selected_row _ _ _ _ Hsel) as [Hin Hname].
    repeat split; auto. congruence.
  - intros Hname. unfold of_text. rewrite Hname.
    assert (get_entity_id (Str qn) w' = Ok x) as Hres.
    { simpl. now rewrite Hsel, Hid. }
    split; [exact Hres|].
    unfold _get_entity. rewrite Hres. simpl. now rewrite Hone.
  - intros u Hname. unfold of_text. now rewrite Hname.
Qed.

Lemma creation_round_trip_witness :
  let uuid_of_text :=
    fun s => if String.eqb s "00000000-0000-0000-0000-000000000007"
             then Some 7 else None in
  let w' := snd (create sqlite 2 (CreateProject {| project_name := "p2" |})
                   sqlite_sources) in
  exists row,
    select_by_qualified_name "p2" w' = [row]
    /\ entity_id row = Uuid 8 /\ entity_type row = Project
    /\ (Project = Project -> In "p2"%string (get_projects w'))
    /\ (uuid_of_text "p2"%string = None ->
        get_entity_id (of_text uuid_of_text "p2") w' = Ok (Uuid 8)
        /\ _get_entity (of_text uuid_of_text "p2") w' = Ok row)
    /\ (forall u, uuid_of_text "p2"%string = Some u ->
          get_entity_id (of_text uuid_of_text "p2") w' = Ok (Uuid u)).
Proof.
  apply (creation_round_trip
           (fun s => if String.eqb s "00000000-0000-0000-0000-000000000007"
                     then Some 7 else None)
           sqlite 2 (CreateProject {| project_name := "p2" |})
           sqlite_sources (Uuid 8)).
  - vm_compute. reflexivity.
  - reflexivity.
  - now left.
  - vm_compute. repeat constructor; simpl; intuition discriminate.
Defined.

Lemma footprint_key conn ty w w' :
  footprint conn ty w w' ->
  NoDup (map entity_id (entities w)) -> NoDup (map entity_id (entities w')).
Proof.
  intros [E|[row [E [_ [Hfresh _]]]]] H; rewrite E; [assumption|].
  rewrite map_app. simpl. now apply NoDup_snoc.
Qed.

Lemma filters_key w w' :
  filters_entities w w' ->
  NoDup (map entity_id (entities w)) -> NoDup (map entity_id (entities w')).
Proof. intros [p E] H. rewrite E. now apply NoDup_map_filter. Qed.

Lemma call_key conn c w :
  NoDup (map entity_id (entities w)) ->
  NoDup (map entity_id (entities (call conn c w))).
Proof.
  destruct c as [fuel c|x|fuel l]; simpl.
  - apply footprint_key with conn (created_type c), create_footprint.
  - apply filters_key, delete_entity_filters.
  - apply filters_key, delete_empty_entities_filters.
Qed.

Lemma run_key conn calls w :
  NoDup (map entity_id (entities w)) ->
  NoDup (map entity_id (entities (run conn calls w))).
Proof.
  revert w. induction calls as [|[c f] calls IH]; simpl; intros w H; auto.
  apply IH, call_key. exact H.
Qed.

Lemma initial_key conn f : NoDup (map entity_id (entities (initial conn f))).
Proof.
  unfold initial, DbRegistry_init, _init_project.
  destruct (is_sqlalchemy_supported conn); [|constructor].
  unfold bind.
  pose proof (footprint_key conn Project _ _
                (create_footprint conn 0
                   (CreateProject {| project_name := "global" |})
                   (set_fail_in f empty_world))) as H.
  simpl in H. destruct (create_project _ _ _) as [[x|e] w']; apply H; constructor.
Qed.

Lemma dict_set_new {V} (k : Ident) (v : V) (d : list (Ident * V)) :
  ~ In k (map fst d) -> dict_set k v d = d ++ [(k, v)].
Proof.
  induction d as [|[k' v'] d IH]; simpl; intros H; [reflexivity|].
  destruct (Ident_eqb k' k) eqn:E.
  - apply Ident_eqb_eq in E. tauto.
  - rewrite IH; tauto.
Qed.

(** With one row for each key, the dictionary that the loop fills is the
    list of the rows. *)
Lemma dict_of_rows (rows : list EntityRow) : forall d,
  NoDup (map fst d ++ map entity_id rows) ->
  fold_left (fun projects r => dict_set (entity_id r) (qualified_name r) projects)
            rows d
  = d ++ map (fun r => (entity_id r, qualified_name r)) rows.
Proof.
  induction rows as [|r rows IH]; simpl; intros d H.
  - now rewrite app_nil_r.
  - rewrite dict_set_new.
    + rewrite IH.
      * now rewrite <- app_assoc.
      * rewrite map_app. simpl. rewrite <- app_assoc. exact H.
    + intros Hin. apply NoDup_remove_2 in H. apply H, in_app_iff. now left.
Qed.

Lemma get_projects_ids_rows w :
  NoDup (map entity_id (entities w)) ->
  get_projects_ids w
  = map (fun r => (entity_id r, qualified_name r))
        (filter (fun r => EntityType_eqb (entity_type r) Project) (entities w)).
Proof.
  intros H. unfold get_projects_ids. rewrite dict_of_rows; [reflexivity|].
  simpl. now apply NoDup_map_filter.
Qed.

(** X6.  In the store that the registry starts from and after every sequence
    of calls (creations and deletions, whatever the driver does):
    [get_projects] lists no name twice, [get_projects_ids] has one entry
    for each listed project, in the same order, and the name of every
    entry that is not the text of a UUID resolves, through
    [get_entity_id], to the identifier of the entry; a name that is the
    text of a UUID resolves to that UUID, whatever the entry says. *)
Theorem project_listings uuid_of_text conn fault calls :
  let w := history conn fault calls in
  NoDup (get_projects w)
  /\ map snd (get_projects_ids w) = get_projects w
  /\ forall x name, In (x, name) (get_projects_ids w) ->
        match uuid_of_text name with
        | None => get_entity_id (of_text uuid_of_text name) w = Ok x
        | Some u => get_entity_id (of_text uuid_of_text name) w = Ok (Uuid u)
        end.
Proof.
  intros w.
  assert (uniqueness w) as Hu by (apply run_uniqueness, initial_uniqueness).
  assert (NoDup (map entity_id (entities w))) as Hk
      by (apply run_key, initial_key).
  rewrite (get_projects_ids_rows w Hk). split; [|split].
  - unfold get_projects. apply NoDup_map_filter. now apply uniqueness_NoDup.
  - unfold get_projects. now rewrite map_map.
  - intros x name Hin. apply in_map_iff in Hin. destruct Hin as [r [E Hr]].
    inversion E; subst. apply filter_In in Hr. destruct Hr as [Hr _].
    unfold of_text. destruct (uuid_of_text (qualified_name r)); [reflexivity|].
    simpl. now rewrite (select_by_qualified_name_key w r Hu Hr).
Qed.

Lemma extends_get_projects w w' :
  extends w w' -> incl (get_projects w) (get_projects w').
Proof.
  intros [[rows Hrows] _] name. rewrite !get_projects_In.
  intros [r [Hin H]]. exists r. split; [|exact H].
  rewrite Hrows. apply in_app_iff. now left.
Qed.

Lemma run_creations_extends conn calls w :
  extends w (run conn (creations calls) w).
Proof.
  revert w. induction calls as [|[[fuel c] f] calls IH]; simpl; intros w.
  - apply stable_refl.
  - eapply stable_trans; [|apply IH].
    eapply stable_trans; [apply (stable_fault w f) | apply create_extends].
Qed.

(** X7.  [DbRegistry.__init__] creates the project ["global"] under a
    SQLAlchemy provider only: there, when the driver does not fail at the
    start, [get_projects] lists ["global"] after every sequence of
    creations; in raw SQL the registry starts with no project. *)
Theorem global_project_at_start :
  (forall conn calls,
      is_sqlalchemy_supported conn = true ->
      In "global" (get_projects (history conn None (creations calls))))
  /\ (forall fault, get_projects (initial MssqlConnection fault) = []).
Proof.
  split.
  - intros conn calls Horm. unfold history.
    apply (extends_get_projects _ _ (run_creations_extends conn calls _)).
    unfold initial, DbRegistry_init. rewrite Horm. now left.
  - reflexivity.
Qed.

Lemma global_project_at_start_witness :
  In "global" (get_projects (history sqlite None (creations lineage_calls))).
Proof. apply (proj1 global_project_at_start). reflexivity. Defined.

(* ================================================================== *)
(** * Invariants of the edge table *)
(* ================================================================== *)

#[export] Instance preserves_stable Q : Stable (preserves Q).
Proof. split; unfold preserves; simpl; auto. Qed.

Lemma keeps_edges_preserves {A} Q (c : M A) :
  effect c keeps_edges -> effect c (preserves Q).
Proof. intros H w. unfold preserves. now rewrite (H w). Qed.

Lemma shrinks_unique w w' :
  shrinks w w' -> unique_connections (edges w) -> unique_connections (edges w').
Proof. intros [_ [q Hq]] H. rewrite Hq. now apply NoDup_map_filter. Qed.

Lemma delete_empty_entities_shrinks conn fuel l :
  effect (delete_empty_entities conn fuel l) shrinks.
Proof.
  unfold delete_empty_entities. effect_auto; apply delete_empty_shrinks.
Qed.

(** ** In raw SQL, one edge for each triple *)

Lemma create_edge_raw_unique a b t :
  effect (_create_edge MssqlConnection a b t) (preserves unique_connections).
Proof.
  intros w.
  change (wp (_create_edge MssqlConnection a b t)
            (fun _ w' => preserves unique_connections w w') w).
  unfold _create_edge. apply wp_bind, wp_uuid4.
  cbn [is_sqlalchemy_supported MssqlConnection].
  unfold insert_edge_if_not_exists. apply wp_bind, wp_driver; intros f;
    [|intros H; exact H].
  unfold wp, preserves. cbn [set_fail_in edges next_uuid].
  match goal with |- context [if ?c then _ else _] => destruct c eqn:Ex end;
    [intros H; exact H|].
  match goal with |- context [if ?c then _ else _] => destruct c end;
    [intros H; exact H|].
  cbn. intros H. unfold unique_connections. rewrite map_app.
  apply NoDup_snoc; [exact H|]. cbn. intros Hin.
  apply in_map_iff in Hin. destruct Hin as [e [He Hin]].
  assert (existsb (same_connection
                     {| edge_id := Uuid (next_uuid w); from_id := a;
                        to_id := b; conn_type := t |}) (edges w) = true) as Hx.
  { apply existsb_exists. exists e. split; [exact Hin|].
    unfold connection in He. inversion He; subst.
    unfold same_connection. cbn.
    rewrite !Ident_eqb_refl. now destruct (conn_type e). }
  cbn in Ex. congruence.
Qed.

Lemma link_inputs_raw_unique x rows :
  effect (link_inputs MssqlConnection x rows) (preserves unique_connections).
Proof.
  induction rows as [|r rows IH]; simpl; effect_auto;
    apply create_edge_raw_unique.
Qed.

Lemma create_raw_unique fuel c :
  effect (create MssqlConnection fuel c) (preserves unique_connections).
Proof.
  destruct c; simpl;
    unfold create_project, create_project_datasource, create_project_anchor,
      create_project_anchor_feature, create_project_derived_feature;
    effect_auto;
    first [ apply find_existing_keeps; exact _
          | apply select_inputs_keeps; exact _
          | apply keeps_edges_preserves, insert_entity_keeps_edges
          | apply create_edge_raw_unique
          | apply link_inputs_raw_unique ].
Qed.

(** X8.  In raw SQL no two stored edges have the same (from, to, type): in the
    store that the registry starts from and after every sequence of calls
    (creations and deletions, whatever the driver does). *)
Theorem raw_sql_connections_unique fault calls :
  unique_connections (edges (history MssqlConnection fault calls)).
Proof.
  unfold history.
  assert (unique_connections (edges (initial MssqlConnection fault))) as H0
      by constructor.
  revert H0. generalize (initial MssqlConnection fault).
  induction calls as [|[c f] calls IH]; simpl; intros w H; [exact H|].
  apply IH. destruct c as [fuel c|x|fuel l]; simpl.
  - now apply (create_raw_unique fuel c (set_fail_in f w)).
  - apply (shrinks_unique (set_fail_in f w)); [apply delete_entity_shrinks|].
    exact H.
  - apply (shrinks_unique (set_fail_in f w));
      [apply delete_empty_entities_shrinks|].
    exact H.
Qed.

(** ** Every BelongsTo edge has its Contains edge *)

Lemma owned_add es e :
  owned es ->
  (conn_type e = BelongsTo ->
   exists e', In e' es /\ conn_type e' = Contains
              /\ from_id e' = to_id e /\ to_id e' = from_id e) ->
  owned (es ++ [e]).
Proof.
  intros H He e0 Hin Hct. apply in_app_iff in Hin.
  destruct Hin as [Hin|[<-|[]]].
  - destruct (H e0 Hin Hct) as [e' [Hin' H']]. exists e'.
    split; [apply in_app_iff; auto | exact H'].
  - destruct (He Hct) as [e' [Hin' H']]. exists e'.
    split; [apply in_app_iff; auto | exact H'].
Qed.

Lemma create_edge_other_owned conn a b t :
  t <> BelongsTo -> effect (_create_edge conn a b t) (preserves owned).
Proof.
  intros Ht w. destruct (create_edge_cases conn a b t w) as [_ [_ Hd]].
  unfold preserves. destruct Hd as [[-> _]|[_ ->]]; [auto|].
  intros H. apply owned_add; [exact H|]. cbn. congruence.
Qed.

(** The pair of edges that records that [p] contains [x], followed by the
    rest of the writes. *)
Lemma owned_pair {A} conn p x (rest : M A) :
  effect rest (preserves owned) ->
  effect (_create_edge conn p x Contains ;;;
          _create_edge conn x p BelongsTo ;;; rest) (preserves owned).
Proof.
  intros Hrest w.
  pose proof (create_edge_other_owned conn p x Contains
                ltac:(discriminate) w) as L1.
  destruct (create_edge_cases conn p x Contains w) as [_ [_ Hd]].
  unfold bind at 1.
  destruct (_create_edge conn p x Contains w) as [[[]|e1] w1]; simpl in *;
    [|exact L1].
  assert (exists e, In e (edges w1) /\ conn_type e = Contains
                    /\ from_id e = p /\ to_id e = x) as [e0 [Hin0 [Hc0 [Hf0 Ht0]]]].
  { destruct Hd as [[Hd Hex]|[_ Hd]].
    - destruct (Hex eq_refl) as [e [Hin [Hf [Ht Hc]]]]. exists e.
      rewrite Hd. auto.
    - eexists. rewrite Hd. split; [apply in_app_iff; right; now left|].
      cbn. auto. }
  assert (preserves owned w1 (snd (_create_edge conn x p BelongsTo w1))) as L2.
  { destruct (create_edge_cases conn x p BelongsTo w1) as [_ [_ Hd2]].
    unfold preserves. destruct Hd2 as [[-> _]|[_ ->]]; [auto|].
    intros H. apply owned_add; [exact H|]. cbn. intros _. exists e0. auto. }
  unfold bind.
  destruct (_create_edge conn x p BelongsTo w1) as [[[]|e2] w2]; simpl in *.
  - apply stable_trans with w1; [exact L1|].
    apply stable_trans with w2; [exact L2 | apply Hrest].
  - now apply stable_trans with w1.
Qed.

Lemma link_inputs_owned conn x rows :
  effect (link_inputs conn x rows) (preserves owned).
Proof.
  induction rows as [|r rows IH]; simpl; effect_auto;
    apply create_edge_other_owned; discriminate.
Qed.

Ltac owned_tail :=
  intros;
  repeat first
    [ apply owned_pair
    | apply effect_ret; exact _
    | apply create_edge_other_owned; discriminate
    | apply link_inputs_owned
    | apply effect_bind; [exact _ | | intros ?] ].

Lemma create_owned conn fuel c :
  effect (create conn fuel c) (preserves owned).
Proof.
  destruct c as [d|p d|p d|p a d|p d]; simpl;
    unfold create_project, create_project_datasource, create_project_anchor,
      create_project_anchor_feature, create_project_derived_feature.
  - effect_auto; first [ apply find_existing_keeps; exact _
                       | apply keeps_edges_preserves, insert_entity_keeps_edges ].
  - apply effect_bind; [exact _ | apply effect_read; exact _ | intros project].
    apply effect_transaction; [exact _|].
    apply effect_bind; [exact _ | apply find_existing_keeps; exact _ |].
    intros [y|]; [apply effect_ret; exact _|].
    apply effect_bind; [exact _ | apply effect_uuid4; exact _ | intros x].
    apply effect_bind;
      [exact _ | apply keeps_edges_preserves, insert_entity_keeps_edges |].
    owned_tail.
  - apply effect_bind; [exact _ | apply effect_read; exact _ | intros project].
    apply effect_transaction; [exact _|].
    apply effect_bind; [exact _ | apply find_existing_keeps; exact _ |].
    intros [y|]; [apply effect_ret; exact _|].
    apply effect_bind; [exact _ | apply effect_read; exact _ | intros r].
    destruct r as [|r0 rs]; [apply effect_raise; exact _|].
    apply effect_bind; [exact _ | apply effect_uuid4; exact _ | intros x].
    apply effect_bind;
      [exact _ | apply keeps_edges_preserves, insert_entity_keeps_edges |].
    owned_tail.
  - apply effect_bind; [exact _ | apply effect_read; exact _ | intros anchor].
    apply effect_transaction; [exact _|].
    apply effect_bind; [exact _ | apply find_existing_keeps; exact _ |].
    intros [y|]; [apply effect_ret; exact _|].
    apply effect_bind; [exact _ | apply effect_read; exact _ | intros s].
    apply effect_bind; [exact _ | apply effect_uuid4; exact _ | intros x].
    apply effect_bind;
      [exact _ | apply keeps_edges_preserves, insert_entity_keeps_edges |].
    owned_tail.
  - apply effect_bind; [exact _ | apply effect_read; exact _ | intros project].
    apply effect_transaction; [exact _|].
    apply effect_bind; [exact _ | apply find_existing_keeps; exact _ |].
    intros [y|]; [apply effect_ret; exact _|].
    apply effect_bind; [exact _ | apply select_inputs_keeps; exact _ | intros r1].
    apply effect_bind; [exact _ | apply select_inputs_keeps; exact _ | intros r2].
    apply effect_bind; [exact _ | apply effect_uuid4; exact _ | intros x].
    apply effect_bind;
      [exact _ | apply keeps_edges_preserves, insert_entity_keeps_edges |].
    owned_tail.
Qed.

(** A criterion of deletion that does not tell an edge from its inverse. *)
Lemma delete_edges_owned p :
  (forall e e', from_id e' = to_id e -> to_id e' = from_id e -> p e' = p e) ->
  effect (delete_edges p) (preserves owned).
Proof.
  intros Hsym. unfold delete_edges. effect_auto.
  intros w. unfold preserves. simpl. intros H e He Hct.
  apply filter_In in He. destruct He as [He Hp].
  destruct (H e He Hct) as [e' [He' [Hct' [Hf Ht]]]]. exists e'.
  split; [|auto]. apply filter_In. split; [exact He'|].
  now rewrite (Hsym e e' Hf Ht).
Qed.

Lemma delete_entity_owned conn x :
  conn = MssqlConnection \/ (exists truth, conn = SQLiteConnection truth) ->
  effect (delete_entity conn x) (preserves owned).
Proof.
  intros Hconn. unfold delete_entity, _delete_all_entity_edges, _delete_entity.
  apply effect_bind; [exact _ | apply effect_read; exact _ | intros y].
  apply effect_transaction; [exact _|].
  apply effect_bind; [exact _ | | intros _;
    apply keeps_edges_preserves, delete_entities_keeps_edges].
  destruct Hconn as [->|[truth ->]]; cbn.
  - apply delete_edges_owned. intros e e' Hf Ht. unfold sql_edge_criterion.
    rewrite Hf, Ht. apply orb_comm.
  - apply delete_edges_owned. reflexivity.
Qed.

Lemma delete_empty_owned conn ty ct fuel l :
  conn = MssqlConnection \/ (exists truth, conn = SQLiteConnection truth) ->
  effect (delete_empty conn ty ct fuel l) (preserves owned).
Proof.
  intros Hconn. induction l as [|e l IH]; simpl; unfold delete_if_empty;
    effect_auto; now apply delete_entity_owned.
Qed.

Lemma call_owned conn c w :
  conn = MssqlConnection \/ (exists truth, conn = SQLiteConnection truth) ->
  owned (edges w) -> owned (edges (call conn c w)).
Proof.
  intros Hconn. destruct c as [fuel c|x|fuel l]; simpl.
  - apply create_owned.
  - now apply delete_entity_owned.
  - unfold delete_empty_entities.
    assert (effect (match l with
                    | [] => ret tt
                    | _ :: _ =>
                        delete_empty conn Anchor Contains fuel l ;;;
                        delete_empty conn Source Produces fuel l
                    end) (preserves owned)) as H;
      [|apply H].
    effect_auto; now apply delete_empty_owned.
Qed.

(** X9.  Under SQLite and in raw SQL, in the store that the registry starts
    from and after every sequence of calls (creations and deletions,
    whatever the driver does), every stored BelongsTo edge from X to P has
    its inverse Contains edge from P to X stored. *)
Theorem belongs_to_has_contains conn fault calls e :
  conn = MssqlConnection \/ (exists truth, conn = SQLiteConnection truth) ->
  let w := history conn fault calls in
  In e (edges w) -> conn_type e = BelongsTo ->
  exists e', In e' (edges w) /\ conn_type e' = Contains
             /\ from_id e' = to_id e /\ to_id e' = from_id e.
Proof.
  intros Hconn w. cut (owned (edges w)); [intros H; apply H|].
  unfold w, history.
  assert (owned (edges (initial conn fault))) as H0.
  { pose proof (create_owned conn 0 (CreateProject {| project_name := "global" |})
                  (set_fail_in fault empty_world)) as H.
    unfold initial, DbRegistry_init, _init_project.
    destruct (is_sqlalchemy_supported conn); [|intros e0 []].
    unfold bind. simpl in H. unfold preserves in H.
    destruct (create_project _ _ _) as [[x|e0] w']; apply H; intros e1 []. }
  revert H0. generalize (initial conn fault).
  induction calls as [|[c f] calls IH]; simpl; intros w0 H; [exact H|].
  apply IH. now apply call_owned.
Qed.

Lemma belongs_to_has_contains_witness :
  let w := history sqlite None (creations lineage_calls) in
  exists e', In e' (edges w) /\ conn_type e' = Contains
             /\ from_id e' = Uuid 1 /\ to_id e' = Uuid 2.
Proof.
  apply (belongs_to_has_contains sqlite None (creations lineage_calls)
           {| edge_id := Uuid 4; from_id := Uuid 2; to_id := Uuid 1;
              conn_type := BelongsTo |}).
  - right. now eexists.
  - vm_compute. right. left. reflexivity.
  - reflexivity.
Defined.

(* ================================================================== *)
(** * Deleting in raw SQL; deleting what is not stored *)
(* ================================================================== *)

Lemma filter_all {A} (p : A -> bool) (l : list A) :
  (forall x, In x l -> p x = true) -> filter p l = l.
Proof.
  induction l as [|x l IH]; simpl; intros H; [reflexivity|].
  rewrite (H x) by auto. f_equal. apply IH. auto.
Qed.

(** What [delete_entity] leaves when it returns, the criterion of its
    first statement being [p]. *)
Lemma wp_delete_entity conn x p w :
  (forall y : Ident, _delete_all_entity_edges conn y = delete_edges (p y)) ->
  wp (delete_entity conn x)
     (fun r w' =>
        r = Ok tt ->
        exists y, get_entity_id x w = Ok y
          /\ edges w' = filter (fun e => negb (p y e)) (edges w)
          /\ entities w'
             = filter (fun r => negb (Ident_eqb (entity_id r) y)) (entities w)
          /\ next_uuid w' = next_uuid w) w.
Proof.
  intros Hp. unfold delete_entity, _delete_entity. apply wp_bind, wp_read.
  destruct (get_entity_id x w) as [y|e]; [|discriminate].
  rewrite Hp.
  apply wp_transaction, wp_bind, wp_delete_edges; intros f;
    [destruct (rolls_back _); discriminate|].
  apply wp_delete_entities; intros f';
    [destruct (rolls_back _); discriminate|].
  intros _. exists y. auto.
Qed.

(** X10.  In raw SQL, when [delete_entity] returns: the rows that are left are
    the rows whose identifier is not the one that the argument resolved
    to, the edges that are left are the edges that do not have it at
    either end, no edge refers to it, and [get_entity] of a deleted UUID
    raises [KeyError]. *)
Theorem delete_entity_raw_sql_exact x y w w' :
  delete_entity MssqlConnection x w = (Ok tt, w') ->
  get_entity_id x w = Ok y ->
  entities w' = filter (fun r => negb (Ident_eqb (entity_id r) y)) (entities w)
  /\ edges w'
     = filter (fun e => negb (Ident_eqb (from_id e) y || Ident_eqb (to_id e) y))
              (edges w)
  /\ (forall e, In e (edges w') -> from_id e <> y /\ to_id e <> y)
  /\ select_by_entity_id y w' = []
  /\ (forall u fuel, y = Uuid u -> get_entity (S fuel) y w' = Raise KeyError).
Proof.
  intros Hrun Hy.
  pose proof (wp_delete_entity MssqlConnection x sql_edge_criterion w
                (fun _ => eq_refl)) as H.
  unfold wp in H. rewrite Hrun in H. simpl in H.
  destruct (H eq_refl) as [y' [Hy' [Hd [He _]]]].
  assert (y' = y) as -> by congruence.
  assert (select_by_entity_id y w' = []) as Hgone
      by (eapply select_by_entity_id_deleted; exact He).
  split; [exact He|]. split; [exact Hd|]. split; [|split; [exact Hgone|]].
  - intros e Hin. rewrite Hd in Hin. apply filter_In in Hin.
    destruct Hin as [_ Hin]. apply negb_true_iff, orb_false_iff in Hin.
    destruct Hin as [H1 H2]. apply Ident_eqb_neq in H1, H2. auto.
  - intros u fuel ->. cbn. unfold _get_entity. cbn. now rewrite Hgone.
Qed.

Lemma delete_entity_raw_sql_exact_witness :
  let w' := snd (delete_entity MssqlConnection (Str "p1__s1") mssql_sources) in
  select_by_entity_id (Uuid 1) w' = []
  /\ forall e, In e (edges w') -> from_id e <> Uuid 1 /\ to_id e <> Uuid 1.
Proof.
  destruct (delete_entity_raw_sql_exact (Str "p1__s1") (Uuid 1) mssql_sources
              (snd (delete_entity MssqlConnection (Str "p1__s1") mssql_sources)))
    as [_ [_ [H1 [H2 _]]]].
  - vm_compute. reflexivity.
  - reflexivity.
  - split; [exact H2 | exact H1].
Defined.

(** X11.  [delete_entity] does not look the entity up: for a UUID that no row
    carries and no edge refers to, it returns, under SQLite and in raw
    SQL, and leaves the store as it was; only a name that is not stored
    raises [KeyError]. *)
Theorem delete_entity_not_stored conn u w :
  conn = MssqlConnection \/ (exists truth, conn = SQLiteConnection truth) ->
  fail_in w = None ->
  select_by_entity_id (Uuid u) w = [] ->
  (forall e, In e (edges w) -> from_id e <> Uuid u /\ to_id e <> Uuid u) ->
  delete_entity conn (Uuid u) w = (Ok tt, w)
  /\ forall name, select_by_qualified_name name w = [] ->
                  delete_entity conn (Str name) w = (Raise KeyError, w).
Proof.
  intros Hconn Hf Hrows Hedges. split.
  - assert (filter (fun r => negb (Ident_eqb (entity_id r) (Uuid u))) (entities w)
            = entities w) as He.
    { apply filter_all. intros r Hr. apply negb_true_iff.
      destruct (Ident_eqb (entity_id r) (Uuid u)) eqn:E; [|reflexivity].
      assert (In r (select_by_entity_id (Uuid u) w)) as Hin
          by (apply filter_In; auto).
      rewrite Hrows in Hin. contradiction. }
    assert (forall p, (forall e, In e (edges w) -> p e = false) ->
              filter (fun e => negb (p e)) (edges w) = edges w) as Hd.
    { intros p Hp. apply filter_all. intros e He'. now rewrite Hp. }
    destruct w as [es ds n f]. simpl in *. subst f.
    destruct Hconn as [->|[truth ->]];
      unfold delete_entity, _delete_all_entity_edges, _delete_entity,
        transaction, bind, read, delete_edges, delete_entities, driver,
        set_edges, set_entities; cbn.
    + rewrite He, Hd; [reflexivity|]. intros e Hin. unfold sql_edge_criterion.
      destruct (Hedges e Hin) as [H1 H2]. apply Ident_eqb_neq in H1, H2.
      now rewrite H1, H2.
    + rewrite He, filter_true. reflexivity.
  - intros name Hname. unfold delete_entity, bind, read. cbn.
    now rewrite Hname.
Qed.

Lemma delete_entity_not_stored_witness :
  delete_entity sqlite (Uuid 99) sqlite_sources = (Ok tt, sqlite_sources)
  /\ forall name, select_by_qualified_name name sqlite_sources = [] ->
                  delete_entity sqlite (Str name) sqlite_sources
                  = (Raise KeyError, sqlite_sources).
Proof.
  apply (delete_entity_not_stored sqlite 99 sqlite_sources).
  - right. now eexists.
  - reflexivity.
  - reflexivity.
  - intros e He. vm_compute in He.
    repeat (destruct He as [<-|He]; [split; discriminate|]). destruct He.
Defined.

(* ================================================================== *)
(** * What a traversal finds *)
(* ================================================================== *)

Lemma reachable_last w R x y e :
  reachable w R x y -> In e (edges w) -> conn_type e = R -> from_id e = y ->
  reachable w R x (to_id e).
Proof.
  intros H He Hct Hf. induction H as [x|x e0 y H0 Hct0 Hf0 _ IH].
  - apply reachable_next with e; auto. apply reachable_here.
  - apply reachable_next with e0; auto.
Qed.

Lemma reachable_inv_last w R x y :
  reachable w R x y ->
  y = x \/ exists e, In e (edges w) /\ conn_type e = R
                     /\ reachable w R x (from_id e) /\ to_id e = y.
Proof.
  intros H. induction H as [x|x e0 y H0 Hct0 Hf0 _ IH]; [now left|right].
  destruct IH as [->|[e [He [Hct [Hr Ht]]]]].
  - exists e0. rewrite Hf0. repeat split; auto. apply reachable_here.
  - exists e. repeat split; auto. now apply reachable_next with e0.
Qed.

Lemma reachable_inv w R x y :
  reachable w R x y ->
  x = y \/ exists e, In e (edges w) /\ conn_type e = R /\ from_id e = x
                     /\ reachable w R (to_id e) y.
Proof. intros [x'|x' e y' He Hct Hf Hr]; [now left | right; eauto]. Qed.

Lemma bfs_loop_sound R w fuel : forall frontier c,
  bfs_loop fuel frontier R w = Some c ->
  forall e, In e c ->
    In e (edges w) /\ conn_type e = R
    /\ exists f, In f frontier /\ reachable w R f (from_id e).
Proof.
  induction fuel as [|fuel IH]; intros [|z frontier] c H e He;
    simpl in H; try discriminate; try (inversion H; subst; destruct He).
  destruct (bfs_loop fuel _ R w) as [r|] eqn:Er; [|discriminate].
  inversion H; subst. apply in_app_iff in He. destruct He as [He|He].
  - apply bfs_step_In in He. destruct He as [Hin [Hct Hf]].
    repeat split; auto. exists (from_id e). split; [exact Hf|].
    apply reachable_here.
  - destruct (IH _ _ Er e He) as [Hin [Hct [f [Hf Hr]]]].
    repeat split; auto. apply in_map_iff in Hf. destruct Hf as [e0 [<- He0]].
    apply bfs_step_In in He0. destruct He0 as [Hin0 [Hct0 Hf0]].
    exists (from_id e0). split; [exact Hf0|].
    now apply reachable_next with e0.
Qed.

Lemma bfs_loop_complete R w fuel : forall frontier c,
  bfs_loop fuel frontier R w = Some c ->
  forall e f, In e (edges w) -> conn_type e = R -> In f frontier ->
              reachable w R f (from_id e) -> In e c.
Proof.
  induction fuel as [|fuel IH]; intros [|z frontier] c H e f He Hct Hf Hr;
    simpl in H; try discriminate; try destruct Hf.
  - destruct (bfs_loop fuel _ R w) as [r|] eqn:Er; [|discriminate].
    inversion H; subst. apply in_app_iff.
    destruct (reachable_inv _ _ _ _ Hr) as [Hx|[e0 [Hin0 [Hct0 [Hf0 Hrest]]]]].
    + left. apply bfs_step_In. repeat split; auto. rewrite <- Hx. now left.
    + right. apply (IH _ _ Er e (to_id e0)); auto.
      apply in_map, bfs_step_In. repeat split; auto. rewrite Hf0. now left.
  - destruct (bfs_loop fuel _ R w) as [r|] eqn:Er; [|discriminate].
    inversion H; subst. apply in_app_iff.
    destruct (reachable_inv _ _ _ _ Hr) as [Hx|[e0 [Hin0 [Hct0 [Hf0 Hrest]]]]].
    + left. apply bfs_step_In. repeat split; auto. rewrite <- Hx. now right.
    + right. apply (IH _ _ Er e (to_id e0)); auto.
      apply in_map, bfs_step_In. repeat split; auto. rewrite Hf0. now right.
Qed.

Lemma bfs_edges fuel x R w E c :
  _bfs fuel x R w = Ok (E, c) ->
  forall e, In e c
            <-> In e (edges w) /\ conn_type e = R
                /\ reachable w R x (from_id e).
Proof.
  intros H e. apply bfs_inv in H. destruct H as [Hc _]. split.
  - intros He. destruct (bfs_loop_sound _ _ _ _ _ Hc e He)
      as [Hin [Hct [f [[<-|[]] Hr]]]]. auto.
  - intros [Hin [Hct Hr]]. apply (bfs_loop_complete _ _ _ _ _ Hc e x); auto.
    now left.
Qed.

Lemma bfs_entities fuel x R w E c :
  _bfs fuel x R w = Ok (E, c) ->
  forall row, In row (map row_of E)
              <-> In row (entities w) /\ reachable w R x (entity_id row).
Proof.
  intros H row. pose proof (bfs_edges _ _ _ _ _ _ H) as Hedges.
  destruct (bfs_rows _ _ _ _ _ _ H) as [-> _].
  unfold _get_entities. rewrite filter_In, existsb_Ident. simpl.
  rewrite in_flat_map. split.
  - intros [Hin [<-|[e [He Hy]]]]; (split; [exact Hin|]).
    + apply reachable_here.
    + apply Hedges in He. destruct He as [He [Hct Hr]].
      destruct Hy as [<-|[<-|[]]]; [exact Hr|].
      now apply reachable_last with (from_id e).
  - intros [Hin Hr]. split; [exact Hin|].
    destruct (reachable_inv_last _ _ _ _ Hr) as [->|[e [He [Hct [Hr' Ht]]]]];
      [now left|right].
    exists e. split; [apply Hedges; auto|]. simpl. auto.
Qed.

(** X12.  When [_bfs] returns, the edges it returns are the stored edges of the
    relation whose start is reached from the start of the traversal, and
    the entities it returns are the stored entities that are reached;
    [get_dependent_entities] returns those but the ones that carry the
    identifier it started from, along the relation of the type of the
    entity. *)
Theorem traversal_finds_the_reachable :
  (forall fuel x R w E c,
      _bfs fuel x R w = Ok (E, c) ->
      (forall e, In e c
                 <-> In e (edges w) /\ conn_type e = R
                     /\ reachable w R x (from_id e))
      /\ (forall row, In row (map row_of E)
                      <-> In row (entities w)
                          /\ reachable w R x (entity_id row)))
  /\ (forall fuel x0 x w entity l,
        get_entity_id x0 w = Ok x ->
        get_entity fuel x w = Ok entity ->
        get_dependent_entities fuel x0 w = Ok l ->
        forall row,
          In row (map row_of l)
          <-> In row (entities w) /\ entity_id row <> x
              /\ reachable w (relation_of (entity_type (row_of entity))) x
                   (entity_id row)).
Proof.
  split.
  - intros fuel x R w E c H. split;
      [now apply bfs_edges with fuel E | now apply bfs_entities with fuel c].
  - intros fuel x0 x w entity l Hx He Hl row.
    rewrite (get_dependent_entities_bfs _ _ _ _ _ Hx He) in Hl.
    apply rbind_Ok in Hl. destruct Hl as [[E c] [Hbfs Hl]].
    inversion Hl; subst. simpl.
    pose proof (bfs_entities _ _ _ _ _ _ Hbfs row) as Hrow.
    rewrite in_map_iff in *. split.
    + intros [e [<- Hin]]. apply filter_In in Hin. destruct Hin as [Hin Hne].
      apply negb_true_iff, Ident_eqb_neq in Hne.
      destruct (proj1 Hrow) as [H1 H2]; [eauto|]. auto.
    + intros [Hin [Hne Hr]]. destruct (proj2 Hrow) as [e [<- He']]; [auto|].
      exists e. split; [reflexivity|]. apply filter_In. split; [exact He'|].
      now apply negb_true_iff, Ident_eqb_neq.
Qed.

Lemma traversal_finds_the_reachable_witness :
  let a1 := {| entity_id := Uuid 8; qualified_name := "p1__a1";
               entity_type := Anchor;
               attributes :=
                 AnchorAttributes "a1"
                   {| ref_id := Uuid 2; ref_type := Source;
                      ref_qualified_name := "p1__s1" |} |} in
  In a1 (map row_of p1_dependents)
  <-> In a1 (entities sqlite_anchor) /\ entity_id a1 <> Uuid 1
      /\ reachable sqlite_anchor Contains (Uuid 1) (entity_id a1).
Proof.
  intros a1.
  assert (get_entity 4 (Uuid 1) sqlite_anchor
          = Ok (mkEntity
                  {| entity_id := Uuid 1; qualified_name := "p1";
                     entity_type := Project;
                     attributes := ProjectAttributes "p1" |}
                  (map row_of p1_dependents) [] [] None)) as He
      by (vm_compute; reflexivity).
  assert (get_dependent_entities 4 (Uuid 1) sqlite_anchor = Ok p1_dependents)
    as Hl by (vm_compute; reflexivity).
  exact (proj2 traversal_finds_the_reachable 4 (Uuid 1) (Uuid 1) sqlite_anchor
           _ p1_dependents eq_refl He Hl a1).
Defined.

(** ** A traversal that does not end *)

Lemma bfs_loop_trapped w R C :
  closed_under w R C ->
  forall fuel frontier f y,
    In f frontier -> reachable w R f y -> In y C ->
    bfs_loop fuel frontier R w = None.
Proof.
  intros Hc. induction fuel as [|fuel IH]; intros frontier f y Hf Hr Hy;
    (destruct frontier as [|z rest]; [destruct Hf|]); [reflexivity|].
  cbn [bfs_loop].
  assert (exists e z', In e (_bfs_step (z :: rest) R w)
                       /\ reachable w R (to_id e) z' /\ In z' C)
    as [e [z' [He [Hr' Hz']]]].
  { destruct (reachable_inv _ _ _ _ Hr) as [Hx|[e0 [Hin0 [Hct0 [Hf0 Hrest]]]]].
    - destruct (Hc y Hy) as [e [He [Hct [Hfe Hte]]]].
      exists e, (to_id e). split; [|split; [apply reachable_here | exact Hte]].
      apply bfs_step_In. repeat split; auto. now rewrite Hfe, <- Hx.
    - exists e0, y. split; [|auto].
      apply bfs_step_In. repeat split; auto. now rewrite Hf0. }
  rewrite (IH _ (to_id e) z'); auto. now apply in_map.
Qed.

(** X13.  When the start of a traversal reaches, along the relation, a set of
    identifiers that the relation does not leave (a cycle), the loop of
    [_bfs] does not end: whatever the fuel, the model runs out of it, in
    [_bfs] and, for a cycle of Consumes edges, in [get_lineage]. *)
Theorem traversal_of_a_cycle_does_not_end w R C x y :
  closed_under w R C -> reachable w R x y -> In y C ->
  forall fuel,
    _bfs fuel x R w = Raise OutOfFuel
    /\ (forall u, x = Uuid u -> R = Consumes ->
                  get_lineage fuel x w = Raise OutOfFuel).
Proof.
  intros Hc Hr Hy fuel.
  assert (_bfs fuel x R w = Raise OutOfFuel) as H.
  { unfold _bfs. rewrite (bfs_loop_trapped w R C Hc fuel [x] x y); auto.
    now left. }
  split; [exact H|]. intros u -> ->.
  unfold get_lineage. cbn [get_entity_id rbind]. now rewrite H.
Qed.

Lemma traversal_of_a_cycle_does_not_end_witness :
  let loop := {| edge_id := Uuid 9; from_id := Uuid 1; to_id := Uuid 1;
                 conn_type := Consumes |} in
  let w := set_edges [loop] empty_world in
  _bfs 1000 (Uuid 1) Consumes w = Raise OutOfFuel
  /\ (forall u, Uuid 1 = Uuid u -> Consumes = Consumes ->
                get_lineage 1000 (Uuid 1) w = Raise OutOfFuel).
Proof.
  apply (traversal_of_a_cycle_does_not_end _ Consumes [Uuid 1] (Uuid 1) (Uuid 1)).
  - intros z [<-|[]]. eexists. split; [now left|]. cbn. auto.
  - apply reachable_here.
  - now left.
Defined.

(* ================================================================== *)
(** * The entities that a definition refers to *)
(* ================================================================== *)

Lemma find_existing_nil qn ty same w :
  select_by_qualified_name qn w = [] ->
  find_existing qn ty same w = (Ok None, w).
Proof.
  intros E. unfold find_existing, bind, read, ret. cbn. now rewrite E.
Qed.

Lemma selected_inputs_stored w ty ids :
  NoDup (map entity_id (entities w)) ->
  let rows := filter (fun r => existsb (Ident_eqb (entity_id r)) ids
                               && EntityType_eqb (entity_type r) ty)
                     (entities w) in
  List.length rows = List.length ids <-> inputs_stored w ty ids.
Proof.
  intros Hkey rows.
  assert (NoDup (map entity_id rows)) as Hnd by now apply NoDup_map_filter.
  assert (incl (map entity_id rows) ids) as Hincl.
  { intros x Hx. apply in_map_iff in Hx. destruct Hx as [r [<- Hr]].
    apply filter_In in Hr. destruct Hr as [_ Hr]. apply andb_true_iff in Hr.
    now apply existsb_Ident. }
  split.
  - intros Hlen.
    assert (List.length ids <= List.length (map entity_id rows)) as Hle
        by (rewrite length_map; lia).
    split.
    + exact (NoDup_incl_NoDup Hnd Hle Hincl).
    + intros x Hx. apply (NoDup_length_incl Hnd Hle Hincl) in Hx.
      apply in_map_iff in Hx. destruct Hx as [r [Hid Hr]].
      apply filter_In in Hr. destruct Hr as [Hin Hr].
      apply andb_true_iff in Hr. destruct Hr as [_ Hty].
      apply EntityType_eqb_eq in Hty. eauto.
  - intros [Hids Hall].
    assert (incl ids (map entity_id rows)) as Hback.
    { intros x Hx. destruct (Hall x Hx) as [r [Hin [Hid Hty]]].
      apply in_map_iff. exists r. split; [exact Hid|].
      apply filter_In. split; [exact Hin|]. apply andb_true_iff. split.
      - apply existsb_Ident. now rewrite Hid.
      - now apply EntityType_eqb_eq. }
    pose proof (NoDup_incl_length Hids Hback) as H1.
    pose proof (NoDup_incl_length Hnd Hincl) as H2.
    rewrite length_map in H1, H2. lia.
Qed.

(** [select_inputs] returns the rows when the identifiers are distinct and
    stored with the type, and raises [ValueError] when they are not. *)
Lemma select_inputs_checked w ty ids :
  NoDup (map entity_id (entities w)) ->
  (inputs_stored w ty ids /\ exists rows, select_inputs ids ty w = (Ok rows, w))
  \/ (~ inputs_stored w ty ids
      /\ select_inputs ids ty w = (Raise ValueError, w)).
Proof.
  intros Hkey. destruct ids as [|i ids].
  - left. split; [|exists []; reflexivity]. split; [constructor | intros x []].
  - pose proof (selected_inputs_stored w ty (i :: ids) Hkey) as Hiff.
    cbv zeta in Hiff. unfold select_inputs, bind, read, ret, raise.
    cbn [fst snd].
    destruct (Nat.eqb _ _) eqn:E; cbn [negb].
    + left. apply Nat.eqb_eq in E. split; [now apply Hiff | eauto].
    + right. apply Nat.eqb_neq in E. split; [|reflexivity].
      intros H. now apply E, Hiff.
Qed.

Lemma transaction_raise {A} conn (body : M A) w e :
  body w = (Raise e, w) -> transaction conn body w = (Raise e, w).
Proof.
  intros H. unfold transaction. rewrite H.
  destruct (rolls_back conn); [|reflexivity].
  f_equal. apply (restore_same w).
Qed.

Lemma transaction_fst {A} conn (body : M A) w :
  fst (transaction conn body w) = fst (body w).
Proof. unfold transaction. now destruct (body w) as [[a|e] w']. Qed.

(** X14.  [create_project_derived_feature], called for a stored project and
    a qualified name that is free, in a store where identifiers are
    unique, raises [ValueError] exactly when the input anchor features
    are not distinct stored anchor features or the input derived features
    are not distinct stored derived features (an identifier that is not
    stored, stored with another type, or listed twice); the store is then
    left as it was. *)
Theorem derived_feature_inputs_are_checked conn fuel p d w project :
  NoDup (map entity_id (entities w)) ->
  get_entity fuel p w = Ok project ->
  select_by_qualified_name
    (qualify (qualified_name (row_of project)) (derived_feature_name d)) w = [] ->
  (fst (create_project_derived_feature conn fuel p d w) = Raise ValueError
   <-> ~ (inputs_stored w AnchorFeature (input_anchor_features d)
          /\ inputs_stored w DerivedFeature (input_derived_features d)))
  /\ (fst (create_project_derived_feature conn fuel p d w) = Raise ValueError ->
      snd (create_project_derived_feature conn fuel p d w) = w).
Proof.
  intros Hkey Hp Hfree.
  unfold create_project_derived_feature. rewrite bind_read, Hp.
  match goal with |- context [transaction conn ?b w] => set (body := b) end.
  destruct (select_inputs_checked w AnchorFeature (input_anchor_features d) Hkey)
    as [[Ha [r1 E1]]|[Ha E1]];
    [destruct (select_inputs_checked w DerivedFeature
                 (input_derived_features d) Hkey) as [[Hd [r2 E2]]|[Hd E2]]|].
  - assert (fst (body w) <> Raise ValueError) as Hne.
    { unfold body, bind at 1. rewrite (find_existing_nil _ _ _ _ Hfree).
      unfold bind at 1. rewrite E1. unfold bind at 1. rewrite E2.
      intros H.
      match type of H with
      | fst (?c w) = _ =>
          assert (raises_only_DbError c) as Ht by only_DbError;
          discriminate (Ht w ValueError H)
      end. }
    rewrite transaction_fst.
    split; [|intros H; contradiction].
    split; [intros H; contradiction | intros H; exfalso; auto].
  - rewrite (transaction_raise conn body w ValueError).
    + split; [|reflexivity]. split; [intros _ [_ H]; auto | reflexivity].
    + unfold body, bind at 1. rewrite (find_existing_nil _ _ _ _ Hfree).
      unfold bind at 1. rewrite E1. unfold bind. now rewrite E2.
  - rewrite (transaction_raise conn body w ValueError).
    + split; [|reflexivity]. split; [intros _ [H _]; auto | reflexivity].
    + unfold body, bind at 1. rewrite (find_existing_nil _ _ _ _ Hfree).
      unfold bind. now rewrite E1.
Qed.

Lemma derived_feature_inputs_are_checked_witness :
  create_project_derived_feature sqlite 2 (Uuid 1)
    (derived_def "d5" [Uuid 2; Uuid 2]) sqlite_chain
  = (Raise ValueError, sqlite_chain).
Proof.
  destruct (derived_feature_inputs_are_checked sqlite 2 (Uuid 1)
              (derived_def "d5" [Uuid 2; Uuid 2]) sqlite_chain
              (mkEntity
                 {| entity_id := Uuid 1; qualified_name := "p1";
                    entity_type := Project;
                    attributes := ProjectAttributes "p1" |}
                 [d1_row; d2_row; d3_row; d4_row] [] [] None))
    as [[_ H1] H2].
  - vm_compute. repeat constructor; simpl; intuition discriminate.
  - vm_compute. reflexivity.
  - reflexivity.
  - assert (fst (create_project_derived_feature sqlite 2 (Uuid 1)
                   (derived_def "d5" [Uuid 2; Uuid 2]) sqlite_chain)
            = Raise ValueError) as Hr.
    { apply H1. intros [_ [Hnd _]]. inversion Hnd as [|? ? Hin _].
      apply Hin. now left. }
    specialize (H2 Hr).
    destruct (create_project_derived_feature sqlite 2 (Uuid 1)
                (derived_def "d5" [Uuid 2; Uuid 2]) sqlite_chain) as [r w'].
    simpl in *. now subst.
Defined.

(** X15.  [create_project_anchor], called for a stored project and a
    qualified name that is free, raises [ValueError] exactly when no
    stored entity of type Source carries the identifier [source_id] of
    the definition (the identifier is not stored, or it is the identifier
    of an entity of another type); the store is then left as it was. *)
Theorem anchor_source_is_checked conn fuel p d w project :
  get_entity fuel p w = Ok project ->
  select_by_qualified_name
    (qualify (qualified_name (row_of project)) (anchor_name d)) w = [] ->
  (fst (create_project_anchor conn fuel p d w) = Raise ValueError
   <-> forall r, In r (entities w) -> entity_id r = source_id d ->
                 entity_type r <> Source)
  /\ (fst (create_project_anchor conn fuel p d w) = Raise ValueError ->
      snd (create_project_anchor conn fuel p d w) = w).
Proof.
  intros Hp Hfree.
  unfold create_project_anchor. rewrite bind_read, Hp.
  match goal with |- context [transaction conn ?b w] => set (body := b) end.
  destruct (filter (fun r => Ident_eqb (entity_id r) (source_id d)
                             && EntityType_eqb (entity_type r) Source)
                   (entities w)) as [|r0 rs] eqn:E.
  - rewrite (transaction_raise conn body w ValueError).
    + split; [|reflexivity]. split; [|reflexivity].
      intros _ r Hr Hid Hty.
      assert (In r []) as Hin; [|destruct Hin].
      rewrite <- E. apply filter_In. split; [exact Hr|].
      apply andb_true_iff. split;
        [now apply Ident_eqb_eq | now apply EntityType_eqb_eq].
    + unfold body, bind at 1. rewrite (find_existing_nil _ _ _ _ Hfree).
      unfold bind, read. cbn. now rewrite E.
  - assert (fst (body w) <> Raise ValueError) as Hne.
    { unfold body, bind at 1. rewrite (find_existing_nil _ _ _ _ Hfree).
      unfold bind at 1, read. cbn [fst snd]. rewrite E.
      intros H.
      match type of H with
      | fst (?c w) = _ =>
          assert (raises_only_DbError c) as Ht by only_DbError;
          discriminate (Ht w ValueError H)
      end. }
    rewrite transaction_fst.
    split; [|intros H; contradiction].
    split; [intros H; contradiction|]. intros H. exfalso.
    assert (In r0 (r0 :: rs)) as Hin by now left.
    rewrite <- E in Hin. apply filter_In in Hin. destruct Hin as [Hin Hb].
    apply andb_true_iff in Hb. destruct Hb as [H1 H2].
    apply Ident_eqb_eq in H1. apply EntityType_eqb_eq in H2.
    exact (H r0 Hin H1 H2).
Qed.

Lemma anchor_source_is_checked_witness :
  create_project_anchor sqlite 2 (Uuid 1)
    {| anchor_name := "a2"; source_id := Uuid 1 |} sqlite_sources
  = (Raise ValueError, sqlite_sources).
Proof.
  destruct (anchor_source_is_checked sqlite 2 (Uuid 1)
              {| anchor_name := "a2"; source_id := Uuid 1 |} sqlite_sources
              (mkEntity
                 {| entity_id := Uuid 1; qualified_name := "p1";
                    entity_type := Project;
                    attributes := ProjectAttributes "p1" |}
                 (_get_entities [Uuid 2; Uuid 5] sqlite_sources) [] [] None))
    as [[_ H1] H2].
  - vm_compute. reflexivity.
  - reflexivity.
  - assert (fst (create_project_anchor sqlite 2 (Uuid 1)
                   {| anchor_name := "a2"; source_id := Uuid 1 |} sqlite_sources)
            = Raise ValueError) as Hr.
    { apply H1. intros r Hr Hid. vm_compute in Hr.
      repeat (destruct Hr as [<-|Hr]; [try discriminate|]);
        try (now destruct Hr); simpl in Hid; discriminate. }
    specialize (H2 Hr).
    destruct (create_project_anchor sqlite 2 (Uuid 1)
                {| anchor_name := "a2"; source_id := Uuid 1 |} sqlite_sources)
      as [r w'].
    simpl in *. now subst.
Defined.

(* ================================================================== *)
(** * search_entity *)
(* ================================================================== *)

(** X16.  Under a SQLAlchemy provider [search_entity] never returns: it
    raises [KeyError] when it is given the name of a project that is not
    stored, and [AttributeError] in every other case, whatever it is asked
    to search. *)
Theorem search_entity_under_sqlalchemy conn like order keyword type project
    start size w :
  is_sqlalchemy_supported conn = true ->
  search_entity conn like order keyword type project start size w
  = Raise AttributeError
  \/ (search_entity conn like order keyword type project start size w
      = Raise KeyError
      /\ exists name, project = Some (Str name)
                      /\ select_by_qualified_name name w = []).
Proof.
  intros Horm. unfold search_entity. rewrite Horm.
  destruct project as [[u|[|c name]]|]; cbn; auto.
  destruct (select_by_qualified_name (String c name) w) eqn:E; cbn; eauto.
Qed.

Lemma search_entity_under_sqlalchemy_witness :
  search_entity sqlite (fun _ _ => true) (fun rows => rows) "s"
    [AnchorFeature; DerivedFeature] None (Some 0) (Some 10) sqlite_sources
  = Raise AttributeError
  \/ (search_entity sqlite (fun _ _ => true) (fun rows => rows) "s"
        [AnchorFeature; DerivedFeature] None (Some 0) (Some 10) sqlite_sources
      = Raise KeyError
      /\ exists name, None = Some (Str name)
                      /\ select_by_qualified_name name sqlite_sources = []).
Proof. apply search_entity_under_sqlalchemy. reflexivity. Defined.

Lemma last_rows_of_top {A} (start size : nat) (rows : list A) :
  (start + size <= List.length rows ->
   last_rows size (firstn (start + size) rows) = firstn size (skipn start rows))
  /\ (List.length rows <= start + size ->
      last_rows size (firstn (start + size) rows) = last_rows size rows).
Proof.
  unfold last_rows. split; intros H.
  - rewrite firstn_length_le by exact H.
    replace (start + size - size) with start by lia.
    symmetry. apply firstn_skipn_comm.
  - now rewrite firstn_all2 by exact H.
Qed.

(** X17.  The pages of [search_entity] in raw SQL, for types that are not
    empty, a project that is absent or given by its UUID, and [found] the
    ordered rows that match.  With [start] and a positive [size]: when
    [found] has at least [start + size] rows the result is the [size] rows
    from position [start]; when it has fewer, the result is its last
    [size] rows (all of them when there are no more), wherever [start]
    is.  With [size] zero the result is the first [start] rows. *)
Theorem search_entity_pages like order keyword type project start size w :
  type <> [] ->
  let project' := option_map Uuid project in
  let found := search_rows like order keyword type project' w in
  let search size' :=
    search_entity MssqlConnection like order keyword type project'
      (Some start) (Some size') w in
  (0 < size -> start + size <= List.length found ->
   search size = Ok (firstn size (skipn start found)))
  /\ (0 < size -> List.length found <= start + size ->
      search size = Ok (skipn (List.length found - size) found))
  /\ search 0 = Ok (firstn start found).
Proof.
  intros Hty project' found search.
  assert (forall size',
             search size'
             = Ok (match size' with
                   | S n => last_rows (S n) (firstn (start + S n) found)
                   | 0 => firstn (start + 0) found
                   end)) as Hsearch.
  { intros size'. unfold search, search_entity, search_query, found, project'.
    destruct type as [|t type]; [contradiction|].
    destruct project as [u|]; cbn [option_map get_entity_id rbind
      is_sqlalchemy_supported MssqlConnection top]; now destruct size'. }
  split; [|split].
  - intros Hpos Hlen. rewrite Hsearch. destruct size as [|n]; [lia|].
    now rewrite (proj1 (last_rows_of_top start (S n) found)).
  - intros Hpos Hlen. rewrite Hsearch. destruct size as [|n]; [lia|].
    now rewrite (proj2 (last_rows_of_top start (S n) found)).
  - rewrite Hsearch. now rewrite Nat.add_0_r.
Qed.

Lemma search_entity_pages_witness :
  search_entity MssqlConnection (fun _ _ => true) (fun rows => rows) "s"
    [Source] None (Some 5) (Some 1) mssql_sources
  = Ok [ {| ref_id := Uuid 4; ref_type := Source;
            ref_qualified_name := "p1__s2" |} ].
Proof.
  apply (proj1 (proj2 (search_entity_pages (fun _ _ => true) (fun rows => rows)
                         "s" [Source] None 5 1 mssql_sources
                         ltac:(discriminate)))).
  - lia.
  - vm_compute. lia.
Defined.

(* ================================================================== *)
(** * The DELETE route *)
(* ================================================================== *)

Lemma delete_empty_entities_keeps_outside conn fuel es S :
  (forall e, In e es -> exists u, id e = Uuid u /\ In (Uuid u) S) ->
  effect (delete_empty_entities conn fuel es) (keeps_outside S).
Proof.
  intros Hes. unfold delete_empty_entities. destruct es as [|e0 es0] eqn:E.
  - apply effect_ret. exact _.
  - rewrite <- E in *.
    apply effect_bind; [exact _ | | intros _];
      now apply delete_empty_keeps_outside.
Qed.

(** What [get_dependent_entities] returns are stored rows. *)
Lemma dependents_are_stored fuel x w l :
  get_dependent_entities fuel x w = Ok l ->
  forall e, In e l -> In (row_of e) (entities w).
Proof.
  intros H. pose proof H as H'. unfold get_dependent_entities in H'.
  apply rbind_Ok in H'. destruct H' as [y [Hy H']].
  apply rbind_Ok in H'. destruct H' as [entity [He _]].
  rewrite (get_dependent_entities_bfs _ _ _ _ _ Hy He) in H.
  apply rbind_Ok in H. destruct H as [[E c] [Hbfs Hl]]. inversion Hl; subst.
  intros e Hin. simpl in Hin. apply filter_In in Hin. destruct Hin as [Hin _].
  apply (bfs_entities _ _ _ _ _ _ Hbfs (row_of e)). now apply in_map.
Qed.

Lemma registry_call_status {A} (c : M A) w status w' :
  registry_call c w <> (Raises (HTTPException status), w').
Proof.
  unfold registry_call. destruct (c w) as [[a|e] w1]; discriminate.
Qed.

(** X18.  When the DELETE route answers 412 (the identifiers of the store
    being UUIDs): every row of the entity it was asked to delete is still
    stored, the store has only lost rows and edges (those of the empty
    anchors and sources that [delete_empty_entities] removed), and the
    entity still has dependents in the store that is left. *)
Theorem delete_refused_keeps_the_entity conn fuel entity x w w' :
  (forall r, In r (entities w) -> exists u, entity_id r = Uuid u) ->
  get_entity_id entity w = Ok x ->
  Api.delete_entity conn fuel entity w = (Raises (HTTPException 412), w') ->
  (forall row, In row (entities w) -> entity_id row = x ->
               In row (entities w'))
  /\ shrinks w w'
  /\ exists l, get_dependent_entities fuel x w' = Ok l /\ l <> [].
Proof.
  intros Hids Hx. unfold Api.delete_entity.
  rewrite handler_bind_read, Hx, handler_bind_read.
  destruct (get_dependent_entities fuel x w) as [l|e] eqn:El; [|discriminate].
  unfold handler_bind at 1.
  destruct (Nat.ltb 0 (List.length l)) eqn:Hl;
    [|intros H; now apply registry_call_status in H].
  unfold handler_bind at 1. unfold registry_call at 1.
  destruct (delete_empty_entities conn fuel l w) as [[[]|e] w1] eqn:Ed;
    [|discriminate].
  rewrite handler_bind_read.
  destruct (get_dependent_entities fuel x w1) as [l1|e] eqn:El1; [|discriminate].
  destruct (Nat.ltb 0 (List.length l1)) eqn:Hl1;
    [|intros H; now apply registry_call_status in H].
  intros H. inversion H; subst w1. clear H.
  split; [|split].
  - intros row Hrow Hid.
    pose proof (delete_empty_entities_keeps_outside conn fuel l (map id l)) as K.
    specialize (K ltac:(
      intros e He;
      destruct (Hids _ (dependents_are_stored _ _ _ _ El e He)) as [u Hu];
      exists u; split; [exact Hu | rewrite <- Hu; now apply (in_map id)]) w).
    rewrite Ed in K. apply K; [exact Hrow|]. rewrite Hid.
    intros Hin. apply in_map_iff in Hin. destruct Hin as [e [He Hin]].
    assert (get_entity_id x w = Ok x) as Hxx.
    { unfold get_dependent_entities in El. apply rbind_Ok in El.
      destruct El as [y [Hy _]]. destruct x as [u|s]; [reflexivity|].
      exfalso. destruct entity as [u|name]; [discriminate|].
      simpl in Hx.
      destruct (select_by_qualified_name name w) as [|r rest] eqn:Es;
        [discriminate|].
      destruct (selected_row _ _ _ _ Es) as [Hr _].
      destruct (Hids r Hr) as [u Hu]. congruence. }
    now apply (dependents_exclude_start _ _ _ _ _ El Hxx e).
  - pose proof (delete_empty_entities_shrinks conn fuel l w) as S.
    now rewrite Ed in S.
  - exists l1. split; [exact El1|]. intros ->. discriminate.
Qed.

Lemma delete_refused_keeps_the_entity_witness :
  let w' := snd (Api.delete_entity sqlite 4 (Str "p1") sqlite_chain) in
  (forall row, In row (entities sqlite_chain) -> entity_id row = Uuid 1 ->
               In row (entities w'))
  /\ shrinks sqlite_chain w'
  /\ exists l, get_dependent_entities 4 (Uuid 1) w' = Ok l /\ l <> [].
Proof.
  apply (delete_refused_keeps_the_entity sqlite 4 (Str "p1") (Uuid 1)
           sqlite_chain).
  - intros r Hr. vm_compute in Hr.
    repeat (destruct Hr as [<-|Hr]; [eexists; reflexivity|]). destruct Hr.
  - reflexivity.
  - vm_compute. reflexivity.
Defined.

(** X19.  When the DELETE route returns: the cleanup it may have run has
    only removed rows and edges, the entity had no dependent left in the
    store that [delete_entity] was called on, and no row carries the UUID
    of the entity in the store that is left. *)
Theorem delete_accepted_had_no_dependents conn fuel entity x w w' :
  get_entity_id entity w = Ok x ->
  Api.delete_entity conn fuel entity w = (Returns tt, w') ->
  exists w1,
    shrinks w w1
    /\ get_dependent_entities fuel x w1 = Ok []
    /\ delete_entity conn x w1 = (Ok tt, w')
    /\ (forall u, x = Uuid u -> select_by_entity_id x w' = []).
Proof.
  intros Hx. unfold Api.delete_entity.
  rewrite handler_bind_read, Hx, handler_bind_read.
  destruct (get_dependent_entities fuel x w) as [l|e] eqn:El; [|discriminate].
  assert (forall w1, shrinks w w1 ->
            get_dependent_entities fuel x w1 = Ok [] ->
            registry_call (delete_entity conn x) w1 = (Returns tt, w') ->
            exists w2,
              shrinks w w2 /\ get_dependent_entities fuel x w2 = Ok []
              /\ delete_entity conn x w2 = (Ok tt, w')
              /\ (forall u, x = Uuid u -> select_by_entity_id x w' = []))
    as Hend.
  { intros w1 Hs Hnone Hdel. exists w1. unfold registry_call in Hdel.
    destruct (delete_entity conn x w1) as [[[]|e] w2] eqn:Ed; [|discriminate].
    inversion Hdel; subst w2.
    split; [exact Hs | split; [exact Hnone | split; [reflexivity|]]].
    intros u ->. now apply delete_entity_deletes with conn w1. }
  unfold handler_bind at 1.
  destruct (Nat.ltb 0 (List.length l)) eqn:Hl.
  - unfold handler_bind at 1. unfold registry_call at 1.
    destruct (delete_empty_entities conn fuel l w) as [[[]|e] w1] eqn:Ed;
      [|discriminate].
    rewrite handler_bind_read.
    destruct (get_dependent_entities fuel x w1) as [l1|e] eqn:El1;
      [|discriminate].
    destruct (Nat.ltb 0 (List.length l1)) eqn:Hl1; [discriminate|].
    cbn [handler_ret]. apply Hend.
    + pose proof (delete_empty_entities_shrinks conn fuel l w) as S.
      now rewrite Ed in S.
    + destruct l1; [exact El1 | discriminate].
  - cbn [handler_ret]. apply Hend; [apply stable_refl|].
    destruct l; [exact El | discriminate].
Qed.

Lemma delete_accepted_had_no_dependents_witness :
  let w' := snd (Api.delete_entity MssqlConnection 4 (Str "p1__s1")
                   mssql_sources) in
  exists w1,
    shrinks mssql_sources w1
    /\ get_dependent_entities 4 (Uuid 1) w1 = Ok []
    /\ delete_entity MssqlConnection (Uuid 1) w1 = (Ok tt, w')
    /\ (forall u, Uuid 1 = Uuid u -> select_by_entity_id (Uuid 1) w' = []).
Proof.
  apply (delete_accepted_had_no_dependents MssqlConnection 4 (Str "p1__s1")
           (Uuid 1) mssql_sources).
  - reflexivity.
  - vm_compute. reflexivity.
Defined.

(** X20.  The DELETE route looks the entity up before it deletes: for a name
    that is not stored and for a UUID that no row carries it raises
    [KeyError], which the application answers with 404, and the store is
    left as it was. *)
Theorem delete_of_what_is_not_stored conn fuel w :
  (forall name, select_by_qualified_name name w = [] ->
     Api.delete_entity conn fuel (Str name) w = (Raises (Registry KeyError), w))
  /\ (forall u, select_by_entity_id (Uuid u) w = [] ->
        Api.delete_entity conn (S fuel) (Uuid u) w
        = (Raises (Registry KeyError), w))
  /\ exception_handler (Registry KeyError) = Some 404.
Proof.
  split; [|split; [|reflexivity]].
  - intros name Hname. unfold Api.delete_entity. rewrite handler_bind_read.
    cbn. now rewrite Hname.
  - intros u Hu. unfold Api.delete_entity.
    rewrite handler_bind_read. cbn [get_entity_id].
    rewrite handler_bind_read.
    unfold get_dependent_entities. cbn [get_entity_id rbind get_entity].
    unfold _get_entity. cbn [get_entity_id rbind]. now rewrite Hu.
Qed.

Lemma delete_of_what_is_not_stored_witness :
  Api.delete_entity sqlite 4 (Str "nowhere") sqlite_sources
  = (Raises (Registry KeyError), sqlite_sources).
Proof.
  apply (proj1 (delete_of_what_is_not_stored sqlite 4 sqlite_sources)).
  reflexivity.
Defined.

(* ================================================================== *)
(** * The provider of the store; repeated statements; reading by list *)
(* ================================================================== *)

Lemma PROVIDERS_raw_sql engine name conn :
  PROVIDERS engine name = Some conn ->
  (is_sqlalchemy_supported conn = false <-> name = "mssql"%string).
Proof.
  unfold PROVIDERS.
  destruct (String.eqb name "sqlite") eqn:E1.
  { apply String.eqb_eq in E1. subst name. intros H. inversion H; subst conn.
    split; discriminate. }
  destruct (String.eqb name "pgsql" || String.eqb name "mysql"
            || String.eqb name "mariadb" || String.eqb name "mssqlv2") eqn:E2.
  { intros H. inversion H; subst conn. split; [discriminate|].
    intros ->. discriminate. }
  destruct (String.eqb name "mssql") eqn:E3; [|discriminate].
  apply String.eqb_eq in E3. intros H. inversion H; subst conn.
  split; auto.
Qed.

(** X21.  [get_db_provider] raises [RuntimeError] exactly when the name is
    missing or not one of [PROVIDERS], also when no connection string is
    given.  For a name of [PROVIDERS], a missing or empty connection string
    makes it construct the SQLite provider, on a file under [/tmp],
    whatever the name is; otherwise it constructs the provider of the
    name on the given string.  It returns that provider when the
    constructor connects and lets the exception of the constructor
    through when it does not.  The provider that is returned runs the
    registry in raw SQL exactly when the name is ["mssql"] and the
    connection string is set and not empty. *)
Theorem provider_selection engine make_connection get_name db_name conn_str :
  let provided :=
    get_db_provider engine make_connection get_name db_name conn_str in
  (provided = RuntimeError
   <-> forall name, db_name = Some name -> PROVIDERS engine name = None)
  /\ (forall name, db_name = Some name -> PROVIDERS engine name <> None ->
        conn_str = None \/ conn_str = Some ""%string ->
        provided
        = if make_connection "sqlite"%string
               ("sqlite:////tmp/" ++ get_name
                  ++ ".sqlite?check_same_thread=False")%string
          then Provider (SQLiteConnection (fst (engine "sqlite"%string)))
          else ConnectionFailed)
  /\ (forall name db_provider s,
        db_name = Some name -> PROVIDERS engine name = Some db_provider ->
        conn_str = Some s -> s <> ""%string ->
        provided
        = if make_connection name s then Provider db_provider
          else ConnectionFailed)
  /\ (forall conn, provided = Provider conn ->
        (is_sqlalchemy_supported conn = false
         <-> db_name = Some "mssql"%string
             /\ exists s, conn_str = Some s /\ s <> ""%string)).
Proof.
  intros provided. subst provided. unfold get_db_provider.
  split; [|split; [|split]].
  - destruct db_name as [name|].
    + destruct (PROVIDERS engine name) as [c|] eqn:Ec.
      * split.
        -- destruct conn_str as [[|a s]|]; cbn;
             try rewrite Ec; destruct (make_connection _ _); discriminate.
        -- intros H. specialize (H name eq_refl). congruence.
      * split; [|reflexivity]. intros _ name' Hn. now inversion Hn; subst.
    + split; [|reflexivity]. intros _ name' Hn. discriminate.
  - intros name -> Hname Hstr.
    destruct (PROVIDERS engine name) as [c|]; [|congruence].
    destruct Hstr as [-> | ->]; reflexivity.
  - intros name db_provider s -> Hname -> Hs. rewrite Hname.
    destruct s as [|a s]; [congruence|]. now rewrite Hname.
  - intros conn. destruct db_name as [name|]; [|discriminate].
    destruct (PROVIDERS engine name) as [c|] eqn:Ec; [|discriminate].
    destruct conn_str as [[|a s]|]; cbn.
    + destruct (make_connection _ _); [|discriminate].
      intros H. inversion H; subst conn. split; [discriminate|].
      intros [_ [s [Hs Hne]]]. inversion Hs. congruence.
    + rewrite Ec. destruct (make_connection _ _); [|discriminate].
      intros H. inversion H; subst conn.
      rewrite (PROVIDERS_raw_sql engine name c Ec). split.
      * intros ->. split; [reflexivity|]. exists (String a s).
        split; [reflexivity | discriminate].
      * intros [Hn _]. now inversion Hn.
    + destruct (make_connection _ _); [|discriminate].
      intros H. inversion H; subst conn. split; [discriminate|].
      intros [_ [s [Hs _]]]. discriminate.
Qed.

(** X22.  [retry] returns the result of the first call of [func] that
    returns, if one of the first [max_attempts] calls does, and gives up
    after [max_attempts] failed calls otherwise.  Every call starts from
    the store that the failed calls before it left, and what they wrote
    is still there when [retry] returns or gives up. *)
Theorem retry_calls_until_one_returns {A} max_attempts (func : M A) w :
  match retry max_attempts func w with
  | (Some result, w') =>
      exists k, k < max_attempts
        /\ (forall j, j < k ->
              exists e, fst (func (after_calls j func w)) = Raise e)
        /\ func (after_calls k func w) = (Ok result, w')
  | (None, w') =>
      (forall j, j < max_attempts ->
         exists e, fst (func (after_calls j func w)) = Raise e)
      /\ w' = after_calls max_attempts func w
  end.
Proof.
  revert w. induction max_attempts as [|n IH]; intros w; simpl.
  - split; [lia | reflexivity].
  - destruct (func w) as [[a|e] w1] eqn:E.
    + exists 0. split; [lia|]. split; [lia | exact E].
    + specialize (IH w1). simpl.
      destruct (retry n func w1) as [[a|] w'].
      * destruct IH as [k [Hk [Hfail Hret]]]. exists (S k).
        split; [lia|]. simpl. rewrite E. simpl. split; [|exact Hret].
        intros [|j] Hj; simpl; rewrite E; simpl; [eauto|]. apply Hfail. lia.
      * destruct IH as [Hfail Hw]. split; [|exact Hw].
        intros [|j] Hj; simpl; rewrite E; simpl; [eauto|]. apply Hfail. lia.
Qed.

(** X23.  The result of [get_entities] depends only on which of the stored
    identifiers are in the list: the order of the list, its repetitions
    and the identifiers in it that no row carries change nothing, and no
    error reports the latter. *)
Theorem get_entities_by_membership fuel ids ids' w :
  (forall r, In r (entities w) ->
     (In (entity_id r) ids <-> In (entity_id r) ids')) ->
  get_entities fuel ids w = get_entities fuel ids' w.
Proof.
  intros H. unfold get_entities, _get_entities. f_equal.
  apply filter_ext_in. intros r Hr.
  destruct (existsb (Ident_eqb (entity_id r)) ids) eqn:E1;
    destruct (existsb (Ident_eqb (entity_id r)) ids') eqn:E2; try reflexivity.
  - apply existsb_Ident, (H r Hr), existsb_Ident in E1. congruence.
  - apply existsb_Ident, (H r Hr), existsb_Ident in E2. congruence.
Qed.

Lemma get_entities_by_membership_witness :
  get_entities 3 [Uuid 2; Uuid 5] sqlite_sources
  = get_entities 3 [Uuid 5; Uuid 77; Uuid 2; Uuid 5] sqlite_sources.
Proof.
  apply get_entities_by_membership. intros r Hr. vm_compute in Hr.
  repeat (destruct Hr as [<-|Hr];
          [simpl; intuition congruence|]).
  destruct Hr.
Defined.

(* ================================================================== *)
(** * C10: the cleanup returns, and what it removes *)
(* ================================================================== *)













